(** * gungame1: match lifecycle and target simulation

    A shallow embedding of the game logic of [src/main.js] (the match
    controller, its timers and listeners), [src/components/Target.js]
    (spawn, pursuit and collision of one target), [src/manager.js] (the
    part of the UI manager that the controller drives) and the three level
    presets under [src/levels/].

    Numbers.  JavaScript numbers are IEEE doubles.  Counters that only ever
    hold integers (score, timeLeft, countdown, targetCount, gameTime,
    colours, delays) are modelled as [Z]; coordinates, speeds and distances
    are modelled as real numbers [R], i.e. rounding is idealised away.
    Where a property depends on the rounding, [Target.js] is taken in
    rounded arithmetic: [Rounded] applies a rounding function after every
    operation, and [Binary64] computes on the binary64 numbers themselves.

    Environment.  The browser and three.js are not part of the repository.
    What the code uses of them is modelled by its documented contract:
    [Vector3] arithmetic, the timer table behind [setInterval] /
    [setTimeout] / [clearInterval], [Math.random] as an oracle returning
    values in [0,1), and the ray caster as an input of the click event. *)

From Stdlib Require Import Reals Lra Lia ZArith List String Ascii Bool.
From Stdlib Require Import DecimalString Sorted.
From Stdlib Require Floats.
Import ListNotations.

(** ** three.js [Vector3] *)

Module Vector3.
Local Open Scope R_scope.

Record t : Type := mk { x : R; y : R; z : R }.

Definition zero : t := mk 0 0 0.

(** [a.subVectors(p, q)] stores [p - q]. *)
Definition subVectors (p q : t) : t :=
  mk (x p - x q) (y p - y q) (z p - z q).

Definition add (p q : t) : t :=
  mk (x p + x q) (y p + y q) (z p + z q).

Definition multiplyScalar (p : t) (s : R) : t :=
  mk (x p * s) (y p * s) (z p * s).

Definition length (p : t) : R :=
  sqrt (x p * x p + y p * y p + z p * z p).

(** [divideScalar(s)] is [multiplyScalar(1 / s)];
    [normalize()] is [divideScalar(length() || 1)]. *)
Definition divideScalar (p : t) (s : R) : t := multiplyScalar p (1 / s).

Definition normalize (p : t) : t :=
  let l := length p in
  divideScalar p (if Req_dec_T l 0 then 1 else l).

Definition distanceToSquared (p q : t) : R :=
  let dx := x p - x q in
  let dy := y p - y q in
  let dz := z p - z q in
  dx * dx + dy * dy + dz * dz.

Definition distanceTo (p q : t) : R := sqrt (distanceToSquared p q).
End Vector3.

(** ** Level presets ([src/levels/*.js]) *)

Module Levels.
Local Open Scope R_scope.
Local Open Scope string_scope.

Record SpawnRange : Type := mkRange { rx : R; ry : R; rz : R }.

(** The display-only [icon] field (an emoji) is left out. *)
Record LevelConfig : Type := mkLevel {
  name : string;
  targetCount : Z;
  targetSpeed : R;
  targetSize : R;
  gameTime : Z;
  spawnRange : SpawnRange;
  color : Z;
  description : string;
  collisionDistance : R
}.

Definition beginner : LevelConfig := {|
  name := "Beginner";
  targetCount := 5;
  targetSpeed := 0.05;
  targetSize := 1.8;
  gameTime := 90;
  spawnRange := mkRange 15 5 40;
  color := 0x00ff00;
  description := "Easy targets, more time";
  collisionDistance := 3.0 |}.

Definition intermediate : LevelConfig := {|
  name := "Intermediate";
  targetCount := 15;
  targetSpeed := 0.10;
  targetSize := 3.2;
  gameTime := 60;
  spawnRange := mkRange 30 10 80;
  color := 0xffa500;
  description := "Moderate challenge";
  collisionDistance := 3.0 |}.

Definition professional : LevelConfig := {|
  name := "Professional";
  targetCount := 25;
  targetSpeed := 0.15;
  targetSize := 2.0;
  gameTime := 30;
  spawnRange := mkRange 40 15 100;
  color := 0xff0000;
  description := "Hardcore mode";
  collisionDistance := 3.0 |}.
End Levels.

(** ** [Math.random] *)

(** The values returned by the successive calls of [Math.random()], in call
  order.  The state of a computation that draws from it is the number of
  calls made so far. *)
Definition Rand : Type := nat -> R.

Definition unit_interval (rnd : Rand) : Prop :=
forall k : nat, (0 <= rnd k < 1)%R.

(** The JavaScript comparisons [a < b] and [a > b] on numbers. *)
Definition ltb (a b : R) : bool := if Rlt_dec a b then true else false.
Definition gtb (a b : R) : bool := ltb b a.

(** ** [Target] ([src/components/Target.js]) *)

Module Target.
Import Levels.
Local Open Scope R_scope.

(** The three.js mesh of a target: [uuid] stands for the identity of the
    object (what [===] compares), [size] for its box geometry. *)
Record Mesh : Type := mkMesh {
  uuid : nat;
  size : R;
  materialColor : Z;
  position : Vector3.t;
  rotationX : R;
  rotationY : R
}.

Record t : Type := mk {
  levelConfig : LevelConfig;
  mesh : Mesh;
  speed : R
}.

Definition setPosition (m : Mesh) (p : Vector3.t) : Mesh :=
  mkMesh (uuid m) (size m) (materialColor m) p (rotationX m) (rotationY m).

Definition setColor (m : Mesh) (c : Z) : Mesh :=
  mkMesh (uuid m) (size m) c (position m) (rotationX m) (rotationY m).

Definition rotate (m : Mesh) (dx dy : R) : Mesh :=
  mkMesh (uuid m) (size m) (materialColor m) (position m)
         (rotationX m + dx) (rotationY m + dy).

Definition withMesh (tg : t) (m : Mesh) : t :=
  mk (levelConfig tg) m (speed tg).

(** [respawn(levelConfig)]: three calls of [Math.random], in argument
    order; [k] is the number of calls made before. *)
Definition respawn (rnd : Rand) (k : nat) (lc : LevelConfig) (tg : t)
  : t * nat :=
  let range := spawnRange lc in
  let p := Vector3.mk ((rnd k - 0.5) * rx range * 2)
                      (rnd (k + 1)%nat * ry range + 1)
                      ((- rnd (k + 2)%nat) * rz range - 5) in
  (mk (levelConfig tg) (setPosition (mesh tg) p) (targetSpeed lc),
   (k + 3)%nat).

(** [new Target(scene, levelConfig)]; [id] is the identity of the new
    mesh.  (Adding the mesh to the scene is done by the caller below.) *)
Definition create (rnd : Rand) (k : nat) (id : nat) (lc : LevelConfig)
  : t * nat :=
  let m := mkMesh id (targetSize lc) (color lc) Vector3.zero 0 0 in
  respawn rnd k lc (mk lc m 0).

(** The first half of [update]: one pursuit step and the cosmetic
    rotation. *)
Definition advance (cameraPosition : Vector3.t) (tg : t) : t :=
  let direction :=
    Vector3.normalize
      (Vector3.subVectors cameraPosition (position (mesh tg))) in
  let p := Vector3.add (position (mesh tg))
                       (Vector3.multiplyScalar direction (speed tg)) in
  withMesh tg (rotate (setPosition (mesh tg) p) 0.01 0.01).

(** The respawn test at the end of [update]. *)
Definition mustRespawn (cameraPosition : Vector3.t) (tg : t) : bool :=
  let distance := Vector3.distanceTo (position (mesh tg)) cameraPosition in
  ltb distance 1.0 || gtb (Vector3.z (position (mesh tg))) 0.

Definition update (rnd : Rand) (k : nat) (cameraPosition : Vector3.t)
           (lc : LevelConfig) (tg : t) : t * nat :=
  let tg1 := advance cameraPosition tg in
  if mustRespawn cameraPosition tg1 then respawn rnd k lc tg1
  else (tg1, k).

Definition checkCollision (tg : t) (cameraPosition : Vector3.t) : bool :=
  let threshold := collisionDistance (levelConfig tg) in
  let distance := Vector3.distanceTo (position (mesh tg)) cameraPosition in
  ltb distance threshold.

(** The box that [respawn] samples from, as the spec words it: half
    width [rx], ground clearance 1, forward offset 5 and depth [rz]. *)
Definition inSpawnVolume (lc : LevelConfig) (p : Vector3.t) : Prop :=
  let range := spawnRange lc in
  - rx range <= Vector3.x p <= rx range /\
  1 <= Vector3.y p <= ry range + 1 /\
  - rz range - 5 <= Vector3.z p <= -5.
End Target.

(** ** [Target] in rounded arithmetic *)

(** JavaScript numbers are binary64 floating-point numbers: each
    arithmetic operation and [Math.sqrt] returns the exact result rounded.
    Here [Target.js] is written once more with the rounding [fl] applied
    after every operation, in the order the code (and three.js, whose
    [normalize] is [divideScalar(length() || 1)] and whose [divideScalar(s)]
    is [multiplyScalar(1 / s)]) performs them.  With no rounding at all
    ([fl] the identity) these are the definitions of [Vector3] and
    [Target] above. *)
Module Rounded.
Import Levels.
Local Open Scope R_scope.

Section Arithmetic.
Variable fl : R -> R.

Definition subVectors (p q : Vector3.t) : Vector3.t :=
  Vector3.mk (fl (Vector3.x p - Vector3.x q))
             (fl (Vector3.y p - Vector3.y q))
             (fl (Vector3.z p - Vector3.z q)).

Definition add (p q : Vector3.t) : Vector3.t :=
  Vector3.mk (fl (Vector3.x p + Vector3.x q))
             (fl (Vector3.y p + Vector3.y q))
             (fl (Vector3.z p + Vector3.z q)).

Definition multiplyScalar (p : Vector3.t) (s : R) : Vector3.t :=
  Vector3.mk (fl (Vector3.x p * s)) (fl (Vector3.y p * s))
             (fl (Vector3.z p * s)).

(** [a * a + b * b + c * c], left to right. *)
Definition sumOfSquares (a b c : R) : R :=
  fl (fl (fl (a * a) + fl (b * b)) + fl (c * c)).

Definition length (p : Vector3.t) : R :=
  fl (sqrt (sumOfSquares (Vector3.x p) (Vector3.y p) (Vector3.z p))).

Definition divideScalar (p : Vector3.t) (s : R) : Vector3.t :=
  multiplyScalar p (fl (1 / s)).

Definition normalize (p : Vector3.t) : Vector3.t :=
  let l := length p in
  divideScalar p (if Req_dec_T l 0 then 1 else l).

Definition distanceToSquared (p q : Vector3.t) : R :=
  let dx := fl (Vector3.x p - Vector3.x q) in
  let dy := fl (Vector3.y p - Vector3.y q) in
  let dz := fl (Vector3.z p - Vector3.z q) in
  sumOfSquares dx dy dz.

Definition distanceTo (p q : Vector3.t) : R :=
  fl (sqrt (distanceToSquared p q)).

Definition respawn (rnd : Rand) (k : nat) (lc : LevelConfig) (tg : Target.t)
  : Target.t * nat :=
  let range := spawnRange lc in
  let p := Vector3.mk (fl (fl (fl (rnd k - 0.5) * rx range) * 2))
                      (fl (fl (rnd (k + 1)%nat * ry range) + 1))
                      (fl (fl ((- rnd (k + 2)%nat) * rz range) - 5)) in
  (Target.mk (Target.levelConfig tg)
             (Target.setPosition (Target.mesh tg) p) (targetSpeed lc),
   (k + 3)%nat).

Definition rotate (m : Target.Mesh) (dx dy : R) : Target.Mesh :=
  Target.mkMesh (Target.uuid m) (Target.size m) (Target.materialColor m)
                (Target.position m)
                (fl (Target.rotationX m + dx)) (fl (Target.rotationY m + dy)).

Definition advance (cameraPosition : Vector3.t) (tg : Target.t) : Target.t :=
  let direction :=
    normalize
      (subVectors cameraPosition (Target.position (Target.mesh tg))) in
  let p := add (Target.position (Target.mesh tg))
               (multiplyScalar direction (Target.speed tg)) in
  Target.withMesh tg
    (rotate (Target.setPosition (Target.mesh tg) p) (fl 0.01) (fl 0.01)).

Definition mustRespawn (cameraPosition : Vector3.t) (tg : Target.t) : bool :=
  let distance :=
    distanceTo (Target.position (Target.mesh tg)) cameraPosition in
  ltb distance 1.0 || gtb (Vector3.z (Target.position (Target.mesh tg))) 0.

Definition update (rnd : Rand) (k : nat) (cameraPosition : Vector3.t)
           (lc : LevelConfig) (tg : Target.t) : Target.t * nat :=
  let tg1 := advance cameraPosition tg in
  if mustRespawn cameraPosition tg1 then respawn rnd k lc tg1
  else (tg1, k).

Definition checkCollision (tg : Target.t) (cameraPosition : Vector3.t)
  : bool :=
  let threshold := collisionDistance (Target.levelConfig tg) in
  let distance :=
    distanceTo (Target.position (Target.mesh tg)) cameraPosition in
  ltb distance threshold.

End Arithmetic.
End Rounded.

(** ** [Target] in binary64 *)

(** The same steps on Rocq's primitive binary64 numbers, whose operations
    are those of IEEE 754 with rounding to nearest, as JavaScript's are:
    what the code computes, bit for bit, at a given input. *)
Module Binary64.
Import PrimFloat.
Local Open Scope float_scope.

Record Vector3 : Type := mkVector3 { x : float; y : float; z : float }.

Definition subVectors (p q : Vector3) : Vector3 :=
  mkVector3 (x p - x q) (y p - y q) (z p - z q).

Definition add (p q : Vector3) : Vector3 :=
  mkVector3 (x p + x q) (y p + y q) (z p + z q).

Definition multiplyScalar (p : Vector3) (s : float) : Vector3 :=
  mkVector3 (x p * s) (y p * s) (z p * s).

Definition length (p : Vector3) : float :=
  sqrt (x p * x p + y p * y p + z p * z p).

Definition divideScalar (p : Vector3) (s : float) : Vector3 :=
  multiplyScalar p (1 / s).

(** [length() || 1]: zero and NaN are falsy. *)
Definition normalize (p : Vector3) : Vector3 :=
  let l := length p in
  divideScalar p (if (l =? 0) || is_nan l then 1 else l).

Definition distanceToSquared (p q : Vector3) : float :=
  let dx := x p - x q in
  let dy := y p - y q in
  let dz := z p - z q in
  dx * dx + dy * dy + dz * dz.

Definition distanceTo (p q : Vector3) : float :=
  sqrt (distanceToSquared p q).

(** The position set by [respawn(levelConfig)] for the spawn range
    [range]; [random] gives the values of [Math.random()] in call order. *)
Definition respawn (random : nat -> float) (k : nat) (range : Vector3)
  : Vector3 :=
  mkVector3 ((random k - 0.5) * x range * 2)
            (random (k + 1)%nat * y range + 1)
            (- random (k + 2)%nat * z range - 5).

(** The position after the pursuit step of [update]. *)
Definition advance (cameraPosition position : Vector3) (speed : float)
  : Vector3 :=
  let direction := normalize (subVectors cameraPosition position) in
  add position (multiplyScalar direction speed).

(** The respawn test of [update]. *)
Definition mustRespawn (cameraPosition position : Vector3) : bool :=
  let distance := distanceTo position cameraPosition in
  (distance <? 1) || (0 <? z position).

(** The position after [update(cameraPosition, levelConfig)]. *)
Definition update (random : nat -> float) (k : nat)
           (cameraPosition range position : Vector3) (speed : float)
  : Vector3 :=
  let position1 := advance cameraPosition position speed in
  if mustRespawn cameraPosition position1 then respawn random k range
  else position1.

End Binary64.

(** ** [UIManager] ([src/manager.js]) *)

(** Template literals print integers in decimal. *)
Definition showZ (n : Z) : string := NilZero.string_of_int (Z.to_int n).

Module UIManager.
Local Open Scope string_scope.

(** The DOM elements the controller drives: [true] is
    [style.display = 'block'], [false] is ['none'].  The elements
    [#score] and [#crosshair] come from the page and are taken to exist,
    so the null guards of [updateScore], [showCrosshair] and
    [hideCrosshair] pass. *)
Record t : Type := mk {
  levelSelectorDisplay : bool;
  countdownDisplay : bool;
  crosshairDisplay : bool;
  scoreText : string;
  timerText : string;
  countdownText : string
}.

Definition showLevelSelector (u : t) : t :=
  mk true (countdownDisplay u) (crosshairDisplay u)
     (scoreText u) (timerText u) (countdownText u).

Definition hideLevelSelector (u : t) : t :=
  mk false (countdownDisplay u) (crosshairDisplay u)
     (scoreText u) (timerText u) (countdownText u).

Definition showCountdown (u : t) : t :=
  mk (levelSelectorDisplay u) true (crosshairDisplay u)
     (scoreText u) (timerText u) (countdownText u).

Definition hideCountdown (u : t) : t :=
  mk (levelSelectorDisplay u) false (crosshairDisplay u)
     (scoreText u) (timerText u) (countdownText u).

Definition updateCountdown (number : Z) (u : t) : t :=
  mk (levelSelectorDisplay u) (countdownDisplay u) (crosshairDisplay u)
     (scoreText u) (timerText u) (showZ number).

Definition updateTimer (time : string) (u : t) : t :=
  mk (levelSelectorDisplay u) (countdownDisplay u) (crosshairDisplay u)
     (scoreText u) ("Time: " ++ time) (countdownText u).

Definition updateScore (score : Z) (u : t) : t :=
  mk (levelSelectorDisplay u) (countdownDisplay u) (crosshairDisplay u)
     ("Score: " ++ showZ score) (timerText u) (countdownText u).

Definition showCrosshair (u : t) : t :=
  mk (levelSelectorDisplay u) (countdownDisplay u) true
     (scoreText u) (timerText u) (countdownText u).

Definition hideCrosshair (u : t) : t :=
  mk (levelSelectorDisplay u) (countdownDisplay u) false
     (scoreText u) (timerText u) (countdownText u).

(** After [createUI]: the selector is in the page, the countdown is
    hidden, the timer reads 0:00.  What [#score] reads and whether
    [#crosshair] shows is up to the page; they start empty and hidden
    here. *)
Definition created : t := mk true false false "" "Time: 0:00" "".
End UIManager.

(** ** The controller ([src/main.js]) *)

Module Main.
Import Levels.
Local Open Scope Z_scope.

Definition nl : string := String (ascii_of_nat 10) EmptyString.

(** [gameState]; its constant [levels] table is the three presets. *)
Record GameState : Type := mkGameState {
  currentLevel : LevelConfig;
  score : Z;
  timeLeft : Z;
  isPlaying : bool;
  isCountdown : bool;
  countdown : Z
}.

(** The callbacks the code registers with [setInterval] ... *)
Inductive IntervalCallback : Type :=
| UpdateTimer          (* setInterval(updateTimer, 1000) *)
| CountdownStep.       (* the arrow function in startCountdown *)

(** ... and with [setTimeout]. *)
Inductive TimeoutCallback : Type :=
| TimeUpAlert                    (* in endGame *)
| CollisionAlert                 (* in handleCollision *)
| RespawnHit (hitTarget : nat).  (* in the click listener; the mesh hit *)

(** One entry of the browser's timer table. *)
Record Timer (C : Type) : Type := mkTimer {
  handle : nat;
  delay : Z;
  callback : C
}.
Arguments mkTimer {C}.
Arguments handle {C}.
Arguments delay {C}.
Arguments callback {C}.

(** What the code does to the outside, in the order it does it.
    Console messages are kept without their non-ASCII decoration. *)
Inductive Effect : Type :=
| ConsoleLog (msg : string)
| Alert (msg : string)
| ControlsLock       (* controls.lock() *)
| ControlsUnlock     (* controls.unlock() *)
| PlaySound (i : nat)
| FallbackTone.

(** [shootSounds]: the array filled by [initAudio] (only its length
    matters here) or the object made by [createFallbackSound]. *)
Inductive ShootSounds : Type :=
| SoundArray (len : nat)
| SoundFallback.

(** One result of [raycaster.intersectObjects]. *)
Record Intersection : Type := mkIntersection {
  distance : R;
  object : nat   (* the mesh *)
}.

Record State : Type := mkState {
  gameState : GameState;
  isLocked : bool;                  (* controls.isLocked *)
  cameraPosition : Vector3.t;       (* camera.position *)
  sceneMeshes : list nat;           (* target meshes in the scene *)
  targets : list Target.t;
  nextUuid : nat;                   (* identity of the next new mesh *)
  shootSounds : ShootSounds;
  currentSoundIndex : nat;
  nextHandle : nat;                 (* next timer handle *)
  intervals : list (Timer IntervalCallback);
  timeouts : list (Timer TimeoutCallback);
  ui : UIManager.t;
  randomCalls : nat;                (* calls of Math.random so far *)
  effects : list Effect
}.

(** *** Field updates *)

Definition setGameState (g : GameState) (s : State) : State :=
  mkState g (isLocked s) (cameraPosition s) (sceneMeshes s) (targets s)
    (nextUuid s) (shootSounds s) (currentSoundIndex s) (nextHandle s)
    (intervals s) (timeouts s) (ui s) (randomCalls s) (effects s).

Definition setIsLocked (b : bool) (s : State) : State :=
  mkState (gameState s) b (cameraPosition s) (sceneMeshes s) (targets s)
    (nextUuid s) (shootSounds s) (currentSoundIndex s) (nextHandle s)
    (intervals s) (timeouts s) (ui s) (randomCalls s) (effects s).

Definition setScene (sc : list nat) (ts : list Target.t) (id : nat)
           (s : State) : State :=
  mkState (gameState s) (isLocked s) (cameraPosition s) sc ts
    id (shootSounds s) (currentSoundIndex s) (nextHandle s)
    (intervals s) (timeouts s) (ui s) (randomCalls s) (effects s).

Definition setTargets (ts : list Target.t) (s : State) : State :=
  setScene (sceneMeshes s) ts (nextUuid s) s.

Definition setAudio (sounds : ShootSounds) (i : nat) (s : State) : State :=
  mkState (gameState s) (isLocked s) (cameraPosition s) (sceneMeshes s)
    (targets s) (nextUuid s) sounds i (nextHandle s)
    (intervals s) (timeouts s) (ui s) (randomCalls s) (effects s).

Definition setTimers (h : nat) (iv : list (Timer IntervalCallback))
           (tm : list (Timer TimeoutCallback)) (s : State) : State :=
  mkState (gameState s) (isLocked s) (cameraPosition s) (sceneMeshes s)
    (targets s) (nextUuid s) (shootSounds s) (currentSoundIndex s) h
    iv tm (ui s) (randomCalls s) (effects s).

Definition setUi (u : UIManager.t) (s : State) : State :=
  mkState (gameState s) (isLocked s) (cameraPosition s) (sceneMeshes s)
    (targets s) (nextUuid s) (shootSounds s) (currentSoundIndex s)
    (nextHandle s) (intervals s) (timeouts s) u (randomCalls s)
    (effects s).

Definition setRandomCalls (k : nat) (s : State) : State :=
  mkState (gameState s) (isLocked s) (cameraPosition s) (sceneMeshes s)
    (targets s) (nextUuid s) (shootSounds s) (currentSoundIndex s)
    (nextHandle s) (intervals s) (timeouts s) (ui s) k (effects s).

Definition emit (e : Effect) (s : State) : State :=
  mkState (gameState s) (isLocked s) (cameraPosition s) (sceneMeshes s)
    (targets s) (nextUuid s) (shootSounds s) (currentSoundIndex s)
    (nextHandle s) (intervals s) (timeouts s) (ui s) (randomCalls s)
    (effects s ++ [e]).

Definition setScore (n : Z) (g : GameState) : GameState :=
  mkGameState (currentLevel g) n (timeLeft g) (isPlaying g)
              (isCountdown g) (countdown g).

Definition setTimeLeft (n : Z) (g : GameState) : GameState :=
  mkGameState (currentLevel g) (score g) n (isPlaying g)
              (isCountdown g) (countdown g).

Definition setIsPlaying (b : bool) (g : GameState) : GameState :=
  mkGameState (currentLevel g) (score g) (timeLeft g) b
              (isCountdown g) (countdown g).

Definition setCountdown (n : Z) (g : GameState) : GameState :=
  mkGameState (currentLevel g) (score g) (timeLeft g) (isPlaying g)
              (isCountdown g) n.

(** Statements in sequence: [s |> f |> g] runs [f], then [g]. *)
Notation "s |> f" := (f s) (at level 45, left associativity, only parsing).

Definition onGameState (f : GameState -> GameState) (s : State) : State :=
  setGameState (f (gameState s)) s.

Definition onUi (f : UIManager.t -> UIManager.t) (s : State) : State :=
  setUi (f (ui s)) s.

(** *** The timer table *)

Definition setInterval (cb : IntervalCallback) (ms : Z) (s : State)
  : State :=
  setTimers (S (nextHandle s))
            (intervals s ++ [mkTimer (nextHandle s) ms cb])
            (timeouts s) s.

Definition setTimeout (cb : TimeoutCallback) (ms : Z) (s : State)
  : State :=
  setTimers (S (nextHandle s)) (intervals s)
            (timeouts s ++ [mkTimer (nextHandle s) ms cb]) s.

Definition clearInterval (h : nat) (s : State) : State :=
  setTimers (nextHandle s)
            (filter (fun t => negb (Nat.eqb (handle t) h)) (intervals s))
            (timeouts s) s.

(** A timeout leaves the table when it fires. *)
Definition dropTimeout (h : nat) (s : State) : State :=
  setTimers (nextHandle s) (intervals s)
            (filter (fun t => negb (Nat.eqb (handle t) h)) (timeouts s)) s.

Definition findTimer {C : Type} (h : nat) (l : list (Timer C))
  : option (Timer C) :=
  find (fun t => Nat.eqb (handle t) h) l.

(** *** Audio *)

(** [playShootSound]; a missing or empty array plays nothing. *)
Definition playShootSound (s : State) : State :=
  match shootSounds s with
  | SoundArray O => s
  | SoundArray len =>
      s |> emit (PlaySound (currentSoundIndex s))
        |> setAudio (SoundArray len)
                    (Nat.modulo (currentSoundIndex s + 1) len)
  | SoundFallback => s |> emit FallbackTone
  end.

(** *** Game functions *)

(** The loop of [createTargets]: [n] new targets, each with a new mesh. *)
Fixpoint newTargets (rnd : Rand) (lc : LevelConfig) (n : nat)
         (k id : nat) : list Target.t * nat :=
  match n with
  | O => ([], k)
  | S n' =>
      let (tg, k1) := Target.create rnd k id lc in
      let (rest, k2) := newTargets rnd lc n' k1 (S id) in
      (tg :: rest, k2)
  end.

Definition meshOf (tg : Target.t) : nat := Target.uuid (Target.mesh tg).

Definition createTargets (rnd : Rand) (levelConfig : LevelConfig)
           (s : State) : State :=
  let old := map meshOf (targets s) in
  let scene1 :=
    filter (fun m => negb (existsb (Nat.eqb m) old)) (sceneMeshes s) in
  let n := Z.to_nat (targetCount levelConfig) in
  let (ts, k) :=
    newTargets rnd levelConfig n (randomCalls s) (nextUuid s) in
  s |> setScene (scene1 ++ map meshOf ts) ts (nextUuid s + n)%nat
    |> setRandomCalls k.

Definition formatTime (seconds : Z) : string :=
  let mins := Z.div seconds 60 in
  let secs := Z.rem seconds 60 in
  showZ mins ++ ":" ++ (if (secs <? 10)%Z then "0" else "") ++ showZ secs.

Definition startCountdown (rnd : Rand) (level : LevelConfig) (s : State)
  : State :=
  s |> onGameState (fun g =>
         mkGameState level 0 (gameTime level) (isPlaying g) true 5)
    |> onUi (UIManager.updateScore 0)
    |> onUi (UIManager.updateTimer (formatTime (gameTime level)))
    |> onUi UIManager.hideLevelSelector
    |> onUi UIManager.showCountdown
    |> onUi (UIManager.updateCountdown 5)
    |> createTargets rnd level
    |> setInterval CountdownStep 1000.

(** The callback of the countdown interval; [countdownInterval] is the
    handle the enclosing call of [startCountdown] got from
    [setInterval]. *)
Definition countdownStep (countdownInterval : nat) (s : State) : State :=
  let s1 :=
    s |> onGameState (fun g => setCountdown (countdown g - 1) g) in
  let s2 :=
    s1 |> onUi (UIManager.updateCountdown (countdown (gameState s1))) in
  if (countdown (gameState s2) <=? 0)%Z then
    s2 |> clearInterval countdownInterval
       |> onUi UIManager.hideCountdown
       |> onGameState (setIsPlaying true)
       |> onUi UIManager.showCrosshair
  else s2.

Definition endGame (s : State) : State :=
  s |> onGameState (setIsPlaying false)
    |> emit ControlsUnlock
    |> onUi UIManager.hideCrosshair
    |> setTimeout TimeUpAlert 500.

Definition summary (reason : string) (g : GameState) : string :=
  "Game Over!" ++ nl ++ reason ++ nl ++
  "Final Score: " ++ showZ (score g) ++ nl ++
  "Level: " ++ name (currentLevel g).

(** The callback of the timeout set by [endGame]. *)
Definition timeUpAlert (s : State) : State :=
  s |> emit (Alert (summary "Time's up!" (gameState s)))
    |> onUi UIManager.showLevelSelector.

Definition updateTimer (s : State) : State :=
  if negb (isPlaying (gameState s)) then s
  else
    let s1 :=
      s |> onGameState (fun g => setTimeLeft (timeLeft g - 1) g) in
    let s2 :=
      s1 |> onUi (UIManager.updateTimer
                    (formatTime (timeLeft (gameState s1)))) in
    if (timeLeft (gameState s2) <=? 0)%Z then endGame s2 else s2.

(** *** Listeners *)

(** The click listeners of the three level buttons, for the preset
    [level] the button passes. *)
Definition onLevelClick (rnd : Rand) (level : LevelConfig) (s : State)
  : State :=
  let s1 := startCountdown rnd level s in
  if negb (isLocked s1) then emit ControlsLock s1 else s1.

(** The ['lock'] listener. *)
Definition onLock (s : State) : State :=
  s |> emit (ConsoleLog
       "Pointer locked - mouse controls enabled, waiting for countdown to finish.").

(** The two ['unlock'] listeners, in registration order. *)
Definition onUnlock1 (s : State) : State :=
  let s1 := s |> emit (ConsoleLog "Pointer unlocked.") in
  if isPlaying (gameState s1) then
    s1 |> onGameState (setIsPlaying false)
       |> onUi UIManager.hideCrosshair
       |> onUi UIManager.showLevelSelector
  else s1.

Definition onUnlock2 (s : State) : State :=
  if isPlaying (gameState s) then s |> onGameState (setIsPlaying false)
  else s.

(** [hitTarget.material.color.set(c)] on the mesh object [m]: it shows
    on the target that holds this mesh, if one still does. *)
Definition colorMesh (m : nat) (c : Z) (ts : list Target.t)
  : list Target.t :=
  map (fun tg =>
         if Nat.eqb (meshOf tg) m
         then Target.withMesh tg (Target.setColor (Target.mesh tg) c)
         else tg) ts.

(** [target.respawn(lc)] for the first target whose mesh is [m], as
    [targets.find] selects it. *)
Fixpoint respawnMesh (rnd : Rand) (k : nat) (lc : LevelConfig) (m : nat)
         (ts : list Target.t) : list Target.t * nat :=
  match ts with
  | [] => ([], k)
  | tg :: rest =>
      if Nat.eqb (meshOf tg) m then
        let (tg', k') := Target.respawn rnd k lc tg in (tg' :: rest, k')
      else
        let (rest', k') := respawnMesh rnd k lc m rest in
        (tg :: rest', k')
  end.

(** The shooting listener; [intersects] is what
    [raycaster.intersectObjects] returns for the target meshes. *)
Definition onClick (intersects : list Intersection) (s : State) : State :=
  if negb (isPlaying (gameState s)) || negb (isLocked s) then s
  else
    let s1 := playShootSound s in
    match intersects with
    | [] => s1
    | hit :: _ =>
        let hitTarget := object hit in
        s1 |> setTargets (colorMesh hitTarget 0xffffff (targets s1))
           |> onGameState (fun g => setScore (score g + 1) g)
           |> (fun s2 =>
                 onUi (UIManager.updateScore (score (gameState s2))) s2)
           |> setTimeout (RespawnHit hitTarget) 200
    end.

(** The callback of the timeout set by the shooting listener. *)
Definition respawnHit (rnd : Rand) (hitTarget : nat) (s : State) : State :=
  let lc := currentLevel (gameState s) in
  let ts1 := colorMesh hitTarget (color lc) (targets s) in
  let (ts2, k) := respawnMesh rnd (randomCalls s) lc hitTarget ts1 in
  s |> setTargets ts2 |> setRandomCalls k.

(** *** Game loop *)

Definition handleCollision (target : Target.t) (s : State)
  : Target.t * State :=
  let s1 :=
    s |> emit (ConsoleLog "COLLISION DETECTED! Game Over!")
      |> onGameState (setIsPlaying false)
      |> emit ControlsUnlock
      |> onUi UIManager.hideCrosshair
      |> setTimeout CollisionAlert 500 in
  (Target.withMesh target (Target.setColor (Target.mesh target) 0xff0000),
   s1).

(** The callback of the timeout set by [handleCollision]. *)
Definition collisionAlert (s : State) : State :=
  s |> emit (Alert (summary "You were hit by a target!" (gameState s)))
    |> onUi UIManager.showLevelSelector.

(** The body of the arrow function given to [targets.forEach]. *)
Definition frameTarget (rnd : Rand) (target : Target.t) (s : State)
  : Target.t * State :=
  let (t1, k) :=
    Target.update rnd (randomCalls s) (cameraPosition s)
                  (currentLevel (gameState s)) target in
  let s1 := setRandomCalls k s in
  if Target.checkCollision t1 (cameraPosition s1)
  then handleCollision t1 s1
  else (t1, s1).

(** [targets.forEach(...)]: the callback runs for every element; its
    [return] ends one call of the callback. *)
Fixpoint forEachTarget (rnd : Rand) (ts : list Target.t) (s : State)
  : list Target.t * State :=
  match ts with
  | [] => ([], s)
  | target :: rest =>
      let (t1, s1) := frameTarget rnd target s in
      let (rest1, s2) := forEachTarget rnd rest s1 in
      (t1 :: rest1, s2)
  end.

(** [animate]; rendering and the next [requestAnimationFrame] leave the
    state alone. *)
Definition animate (rnd : Rand) (s : State) : State :=
  if isPlaying (gameState s) then
    let (ts, s1) := forEachTarget rnd (targets s) s in
    setTargets ts s1
  else s.

(** *** The event loop *)

(** What the browser can run next.  A click on a level button also
    reaches the window listener, which returns at once: the button can
    only be clicked while the pointer is not locked.  A shot is a click
    on the locked canvas.  The pointer lock changes when the browser
    grants or ends it, some time after [controls.lock()] or
    [controls.unlock()], or when the player presses Escape. *)
Inductive Event : Type :=
| LevelClick (level : LevelConfig)
| IntervalFires (h : nat)
| TimeoutFires (h : nat)
| Click (intersects : list Intersection)
| AnimationFrame
| PointerLockChange (locked : bool)
| AudioLoaded
| AudioFailed.

Definition MAX_SOUNDS : nat := 5.

Definition dispatch (rnd : Rand) (e : Event) (s : State) : State :=
  match e with
  | LevelClick level => onLevelClick rnd level s
  | IntervalFires h =>
      match findTimer h (intervals s) with
      | Some t =>
          match callback t with
          | UpdateTimer => updateTimer s
          | CountdownStep => countdownStep h s
          end
      | None => s
      end
  | TimeoutFires h =>
      match findTimer h (timeouts s) with
      | Some t =>
          let s1 := dropTimeout h s in
          match callback t with
          | TimeUpAlert => timeUpAlert s1
          | CollisionAlert => collisionAlert s1
          | RespawnHit m => respawnHit rnd m s1
          end
      | None => s
      end
  | Click intersects => onClick intersects s
  | AnimationFrame => animate rnd s
  | PointerLockChange true => s |> setIsLocked true |> onLock
  | PointerLockChange false =>
      s |> setIsLocked false |> onUnlock1 |> onUnlock2
  | AudioLoaded =>
      match shootSounds s with
      | SoundArray len =>
          setAudio (SoundArray (len + MAX_SOUNDS)) (currentSoundIndex s) s
      | SoundFallback => s
      end
  | AudioFailed => setAudio SoundFallback (currentSoundIndex s) s
  end.

Definition run (rnd : Rand) (evs : list Event) (s : State) : State :=
  fold_left (fun st e => dispatch rnd e st) evs s.

(** The state once the module has been evaluated: nothing is playing,
    the match timer interval is registered. *)
Definition loaded : State :=
  {| gameState := mkGameState beginner 0 0 false false 3;
     isLocked := false;
     cameraPosition := Vector3.zero;
     sceneMeshes := [];
     targets := [];
     nextUuid := O;
     shootSounds := SoundArray O;
     currentSoundIndex := O;
     nextHandle := 1%nat;
     intervals := [];
     timeouts := [];
     ui := UIManager.created;
     randomCalls := O;
     effects := [] |}
  |> setInterval UpdateTimer 1000.
End Main.

(** * Vocabulary of the properties *)

Import Levels Main.

Local Open Scope R_scope.

(** [target.mesh.position] and its distance to the player. *)
Definition positionOf (tg : Target.t) : Vector3.t :=
  Target.position (Target.mesh tg).

Definition distanceOf (tg : Target.t) (c : Vector3.t) : R :=
  Vector3.distanceTo (positionOf tg) c.

(** The invariant of the spec on the spawn volume of a level. *)
Definition positiveRange (lc : LevelConfig) : Prop :=
  0 < rx (spawnRange lc) /\ 0 < ry (spawnRange lc) /\ 0 < rz (spawnRange lc).

(** [n] successive calls of [update] with the camera kept at [c]. *)
Fixpoint updates (rnd : Rand) (n : nat) (k : nat) (c : Vector3.t)
         (lc : LevelConfig) (tg : Target.t) : Target.t * nat :=
  match n with
  | O => (tg, k)
  | S n' =>
      let (tg1, k1) := updates rnd n' k c lc tg in
      Target.update rnd k1 c lc tg1
  end.

(** [Math.random] returning 0 every time. *)
Definition rnd0 : Rand := fun _ => 0.

(** A target of the given level at [p], moving at speed [s]. *)
Definition targetAt (id : nat) (lc : LevelConfig) (p : Vector3.t) (s : R)
  : Target.t :=
  Target.mk lc (Target.mkMesh id (targetSize lc) (color lc) p 0 0) s.

Local Close Scope R_scope.

Local Open Scope string_scope.

(** What [forEach] computes for the targets alone: every target is
    updated, in order, drawing from the same random sequence. *)
Fixpoint updateAll (rnd : Rand) (k : nat) (c : Vector3.t)
         (lc : LevelConfig) (ts : list Target.t) : list Target.t * nat :=
  match ts with
  | [] => ([], k)
  | tg :: rest =>
      let (t1, k1) := Target.update rnd k c lc tg in
      let (rest1, k2) := updateAll rnd k1 c lc rest in
      (t1 :: rest1, k2)
  end.

(** [target.checkCollision(camera.position)], as a test on targets. *)
Definition collides (c : Vector3.t) (tg : Target.t) : bool :=
  Target.checkCollision tg c.

(** What [handleCollision] does to the target it is given ... *)
Definition markHit (c : Vector3.t) (tg : Target.t) : Target.t :=
  if collides c tg
  then Target.withMesh tg (Target.setColor (Target.mesh tg) 0xff0000)
  else tg.

(** ... and to the rest of the state. *)
Definition collisionEnds (s : State) : State :=
  setTimeout CollisionAlert 500
    (onUi UIManager.hideCrosshair
       (emit ControlsUnlock
          (onGameState (setIsPlaying false)
             (emit (ConsoleLog "COLLISION DETECTED! Game Over!") s)))).

(** The number of targets that collide after their update. *)
Definition collisionsIn (rnd : Rand) (s : State) (ts : list Target.t)
  : nat :=
  List.length
    (filter (collides (cameraPosition s))
            (fst (updateAll rnd (randomCalls s) (cameraPosition s)
                            (currentLevel (gameState s)) ts))).

Local Close Scope string_scope.

Local Open Scope Z_scope.

(** The phases of the spec, read off the state of the code: the match
    is Active while [isPlaying] is set, in Countdown while a countdown
    interval is registered, Ended once a match has been started and
    neither holds, Idle before the first match. *)
Inductive Phase : Type := Idle | Countdown | Active | Ended.

Definition isCountdownTimer (t : Timer IntervalCallback) : bool :=
  match callback t with
  | CountdownStep => true
  | UpdateTimer => false
  end.

Definition isMatchTimer (t : Timer IntervalCallback) : bool :=
  negb (isCountdownTimer t).

Definition countingDown (s : State) : bool :=
  existsb isCountdownTimer (intervals s).

Definition phase (s : State) : Phase :=
  if isPlaying (gameState s) then Active
  else if countingDown s then Countdown
  else if isCountdown (gameState s) then Ended
  else Idle.

(** Events that belong to the running match: everything but the choice
    of a level, which starts the next one. *)
Definition inMatch (e : Event) : bool :=
  match e with
  | LevelClick _ => false
  | _ => true
  end.

(** Events that touch neither the clock nor the countdown. *)
Definition isQuiet (e : Event) : bool :=
  match e with
  | LevelClick _ | IntervalFires _ => false
  | _ => true
  end.

(** What a quiet event may do to the game state: nothing but end the
    match or count a hit. *)
Definition quietStep (s s' : State) : Prop :=
  intervals s' = intervals s /\
  currentLevel (gameState s') = currentLevel (gameState s) /\
  timeLeft (gameState s') = timeLeft (gameState s) /\
  countdown (gameState s') = countdown (gameState s) /\
  isCountdown (gameState s') = isCountdown (gameState s) /\
  (isPlaying (gameState s') = true -> isPlaying (gameState s) = true) /\
  (isPlaying (gameState s) = false ->
   score (gameState s') = score (gameState s)) /\
  score (gameState s) <= score (gameState s') <= score (gameState s) + 1.

(** Timer handles are handed out in increasing order. *)
Definition freshHandles (s : State) : Prop :=
  Forall (fun t => (handle t < nextHandle s)%nat) (intervals s) /\
  Forall (fun t => (handle t < nextHandle s)%nat) (timeouts s).

(** Idle or Ended: nothing is playing and no countdown is pending. *)
Definition betweenMatches (s : State) : Prop :=
  isPlaying (gameState s) = false /\ countingDown s = false /\
  freshHandles s.

(** How often the interval [h] fires in a sequence of events. *)
Definition isTick (h : nat) (e : Event) : bool :=
  match e with
  | IntervalFires h' => Nat.eqb h' h
  | _ => false
  end.

Definition ticks (h : nat) (evs : list Event) : nat :=
  List.length (filter (isTick h) evs).

(** The number of steps of a run at which the match stops playing. *)
Fixpoint endedTransitions (rnd : Rand) (evs : list Event) (s : State)
  : nat :=
  match evs with
  | [] => O
  | e :: rest =>
      let s' := dispatch rnd e s in
      ((if isPlaying (gameState s) && negb (isPlaying (gameState s'))
        then 1 else 0)
       + endedTransitions rnd rest s')%nat
  end.

(** What holds during the match started with [level], whose countdown
    interval is [h] and has fired [n] times. *)
Definition MatchInv (level : LevelConfig) (h n : nat) (s : State) : Prop :=
  currentLevel (gameState s) = level /\
  isCountdown (gameState s) = true /\
  timeLeft (gameState s) <= gameTime level /\
  (((n < 5)%nat /\
    countdown (gameState s) = 5 - Z.of_nat n /\
    isPlaying (gameState s) = false /\
    timeLeft (gameState s) = gameTime level /\
    score (gameState s) = 0 /\
    findTimer h (intervals s) = Some (mkTimer h 1000 CountdownStep) /\
    (forall t, In t (intervals s) -> isCountdownTimer t = true ->
               handle t = h))
   \/
   ((5 <= n)%nat /\
    countdown (gameState s) = 0 /\
    countingDown s = false /\
    (0 < gameTime level ->
     0 <= timeLeft (gameState s) /\
     (isPlaying (gameState s) = true -> 1 <= timeLeft (gameState s))))).

(** The match has been played and is over. *)
Definition ended (n : nat) (s : State) : bool :=
  (5 <=? n)%nat && negb (isPlaying (gameState s)).

Definition allInMatch (evs : list Event) : Prop :=
  Forall (fun e => inMatch e = true) evs.

(** The events of a match that nobody interrupts, when it is the first
    one after loading: five ticks of the countdown (interval 2), then the
    ticks of the match timer (interval 1). *)
Definition quietMatch (timerTicks : nat) : list Event :=
  repeat (IntervalFires 2) 5 ++ repeat (IntervalFires 1) timerTicks.

(** The timeouts that [n] runs of [handleCollision] add, from handle [h]
    on. *)
Definition collisionTimers (h n : nat) : list (Timer TimeoutCallback) :=
  map (fun i => mkTimer (h + i)%nat 500 CollisionAlert) (seq 0 n).

(** What one event may do to the timer table: entries go away, and new
    ones get the handles handed out meanwhile. *)
Definition timersStep (s s' : State) : Prop :=
  (nextHandle s <= nextHandle s')%nat /\
  (forall t, In t (intervals s') ->
             In t (intervals s) \/
             (nextHandle s <= handle t < nextHandle s')%nat) /\
  (forall t, In t (timeouts s') ->
             In t (timeouts s) \/
             (nextHandle s <= handle t < nextHandle s')%nat).

(** Fifteen draws that then repeat: the five targets of a Beginner match
    spawn at (0, 1, -5), (-15, 1, -25), (7.5, 3.5, -15), (-7.5, 2.25, -35)
    and (12, 5, -9), and the sixteenth draw starts over. *)
Definition drawTable : list R :=
  [0.5; 0; 0; 0; 0; 0.5; 0.75; 0.5; 0.25; 0.25; 0.25; 0.75; 0.9; 0.8; 0.1]%R.

Definition rndCycle : Rand := fun k => nth (k mod 15) drawTable 0%R.

(** A Beginner match right after its countdown, the pointer locked. *)
Definition aiming : State :=
  run rndCycle (PointerLockChange true :: quietMatch 0)
      (onLevelClick rndCycle beginner loaded).

(** A Beginner match in which one target was hit and the time ran out. *)
Definition timeIsUp : State :=
  run rndCycle (Click [mkIntersection 4.2 0] :: repeat (IntervalFires 1) 90)
      aiming.

Local Close Scope Z_scope.

Local Open Scope R_scope.

(** The scenario of the spec, with two targets: a short match in which
    a target covers 13 units per frame. *)
Definition duel : LevelConfig := {|
  name := "Duel";
  targetCount := 2;
  targetSpeed := 13;
  targetSize := 1.8;
  gameTime := 2;
  spawnRange := mkRange 15 5 40;
  color := 0x00ff00;
  description := "Two fast targets";
  collisionDistance := 3.0 |}.

(** Draws that put the two targets at (-15, 1, -5) and (-15, 2, -5). *)
Definition rndDuel : Rand := fun k => if Nat.eqb k 4 then 0.2 else 0.

(** The duel right after its countdown. *)
Abbreviation duelStart :=
  (run rndDuel (quietMatch 0) (onLevelClick rndDuel duel loaded)).

(** The target of the duel made with the draws from [k] on. *)
Definition duelist (k id : nat) : Target.t :=
  fst (Target.create rndDuel k id duel).

Local Close Scope R_scope.

Local Open Scope Z_scope.

(** The interval registered when the module is loaded. *)
Definition matchTimer : Timer IntervalCallback := mkTimer 1 1000 UpdateTimer.

(** What holds of the interval table in every state reachable from
    [loaded]: the match timer is the only interval that runs
    [updateTimer], and the countdown intervals have other handles. *)
Definition oneMatchTimer (s : State) : Prop :=
  filter isMatchTimer (intervals s) = [matchTimer] /\
  (2 <= nextHandle s)%nat /\
  Forall (fun t => isCountdownTimer t = true -> (2 <= handle t)%nat)
         (intervals s).

Local Close Scope Z_scope.

(** ** Vocabulary of the further properties *)

Local Open Scope string_scope.

(** The index into the pool of shot sounds points at a sound, whenever
    there is a pool to play from. *)
Definition soundIndexOk (s : State) : Prop :=
  match shootSounds s with
  | SoundArray len =>
      (currentSoundIndex s < len)%nat \/
      (len = O /\ currentSoundIndex s = O)
  | SoundFallback => True
  end.

(** A click with a target under the crosshair. *)
Definition isShot (e : Event) : bool :=
  match e with
  | Click (_ :: _) => true
  | _ => false
  end.

Definition shots (evs : list Event) : nat :=
  List.length (filter isShot evs).

(** The three texts of the HUD show the game state. *)
Definition hudShows (s : State) : Prop :=
  UIManager.timerText (ui s) =
  "Time: " ++ formatTime (timeLeft (gameState s)) /\
  UIManager.scoreText (ui s) = "Score: " ++ showZ (score (gameState s)) /\
  UIManager.countdownText (ui s) = showZ (countdown (gameState s)).

(** The character of a decimal digit. *)
Definition digitChar (d : Z) : ascii := ascii_of_nat (48 + Z.to_nat d).

(** The target meshes in the scene are those of the current targets,
    each once, and all older than the next mesh. *)
Definition sceneOk (s : State) : Prop :=
  sceneMeshes s = map meshOf (targets s) /\
  NoDup (sceneMeshes s) /\
  Forall (fun m => (m < nextUuid s)%nat) (sceneMeshes s).

(** A target made for the level [lc] and moving at its speed. *)
Definition ofLevel (lc : LevelConfig) (tg : Target.t) : Prop :=
  Target.levelConfig tg = lc /\ Target.speed tg = targetSpeed lc.

Definition levelTargets (s : State) : Prop :=
  Forall (ofLevel (currentLevel (gameState s))) (targets s).

Local Close Scope string_scope.

Local Open Scope R_scope.

(** A level whose targets spawn in a proper box and move. *)
Definition goodLevel (lc : LevelConfig) : Prop :=
  positiveRange lc /\ 0 < targetSpeed lc.

Definition goodLevels (evs : list Event) : Prop :=
  Forall (fun e => match e with
                   | LevelClick level => goodLevel level
                   | _ => True
                   end) evs.

(** A target in front of a player who stands at the origin, out of the
    respawn radius, and moving. *)
Definition inFront (tg : Target.t) : Prop :=
  Vector3.z (positionOf tg) < 0 /\
  1 <= distanceOf tg Vector3.zero /\
  0 < Target.speed tg.

Definition keptInFront (s : State) : Prop :=
  cameraPosition s = Vector3.zero /\
  goodLevel (currentLevel (gameState s)) /\
  Forall inFront (targets s).

Local Close Scope R_scope.

(** ** Vocabulary of rounded arithmetic *)

Local Open Scope R_scope.

(** What is used of binary64 arithmetic with rounding to nearest: short
    of overflow, the rounded value of [x] is within [|x| / 2^53] of [x],
    or within [1 / 2^1075], half the smallest positive number, when [x]
    is too small for that. *)
Definition binary64 (fl : R -> R) : Prop :=
  forall x : R,
    Rabs x <= 2 ^ 1023 -> Rabs (fl x - x) <= Rabs x / 2 ^ 53 + / 2 ^ 1075.

(** Rounding to nearest keeps the order, and leaves the numbers of the
    format as they are. *)
Definition monotone (fl : R -> R) : Prop :=
  forall x y : R, x <= y -> fl x <= fl y.

Definition representable (fl : R -> R) (x : R) : Prop := fl x = x.

(** The constants of [respawn] and the bounds of the spawn volume of the
    level, with the intermediate bound [rx / 2], are numbers of the
    format. *)
Definition exactSpawnBounds (fl : R -> R) (lc : LevelConfig) : Prop :=
  let range := spawnRange lc in
  Forall (representable fl)
         [0; 0.5; - 0.5; 1; - 5;
          0.5 * rx range; - (0.5 * rx range); rx range; - rx range;
          ry range; ry range + 1; - rz range; - rz range - 5].

(** The Euclidean norm of a vector given by its components. *)
Definition norm3 (a b c : R) : R := sqrt (a * a + b * b + c * c).

(** No rounding at all. *)
Definition unrounded : R -> R := fun x => x.

(** [distanceTo(cameraPosition)] as the code computes it. *)
Definition roundedDistance (fl : R -> R) (tg : Target.t) (c : Vector3.t)
  : R :=
  Rounded.distanceTo fl (positionOf tg) c.

(** [n] successive calls of [update] in rounded arithmetic. *)
Fixpoint roundedUpdates (fl : R -> R) (rnd : Rand) (n : nat) (k : nat)
         (c : Vector3.t) (lc : LevelConfig) (tg : Target.t)
  : Target.t * nat :=
  match n with
  | O => (tg, k)
  | S n' =>
      let (tg1, k1) := roundedUpdates fl rnd n' k c lc tg in
      Rounded.update fl rnd k1 c lc tg1
  end.

(** A target on the playing field of a player at the origin: not due
    for a respawn, not farther than 1024, with a speed between 2^-32 and
    the respawn radius. *)
Definition inPlay (fl : R -> R) (tg : Target.t) : Prop :=
  Rabs (Vector3.x (positionOf tg)) <= 2 ^ 11 /\
  Rabs (Vector3.y (positionOf tg)) <= 2 ^ 11 /\
  Rabs (Vector3.z (positionOf tg)) <= 2 ^ 11 /\
  1 <= roundedDistance fl tg Vector3.zero <= 2 ^ 10 /\
  / 2 ^ 32 <= Target.speed tg <= 1.

(** A level whose spawn box and speed keep its targets in play. *)
Definition playable (lc : LevelConfig) : Prop :=
  positiveRange lc /\
  rx (spawnRange lc) <= 2 ^ 8 /\ ry (spawnRange lc) <= 2 ^ 8 /\
  rz (spawnRange lc) <= 2 ^ 8 /\
  / 2 ^ 32 <= targetSpeed lc <= 1.

(** Inside the spawn volume of the level, up to [tol] in each
    coordinate. *)
Definition nearSpawnVolume (tol : R) (lc : LevelConfig) (p : Vector3.t)
  : Prop :=
  let range := spawnRange lc in
  - rx range - tol <= Vector3.x p <= rx range + tol /\
  1 - tol <= Vector3.y p <= ry range + 1 + tol /\
  - rz range - 5 - tol <= Vector3.z p <= -5 + tol.

Local Close Scope R_scope.

(** * Properties *)

(** ** Pursuit and respawn geometry *)

Section Geometry.
Import Levels.
Local Open Scope R_scope.

Lemma ltb_true (a b : R) : ltb a b = true <-> a < b.
Proof.
  unfold ltb. destruct (Rlt_dec a b); split; intros; try easy.
Qed.

Lemma ltb_false (a b : R) : ltb a b = false <-> b <= a.
Proof.
  unfold ltb. destruct (Rlt_dec a b); split; intros; try easy; lra.
Qed.

Lemma distanceToSquared_nonneg (p q : Vector3.t) :
  0 <= Vector3.distanceToSquared p q.
Proof.
  unfold Vector3.distanceToSquared. cbv zeta.
  pose proof (Rle_0_sqr (Vector3.x p - Vector3.x q)) as Hx.
  pose proof (Rle_0_sqr (Vector3.y p - Vector3.y q)) as Hy.
  pose proof (Rle_0_sqr (Vector3.z p - Vector3.z q)) as Hz.
  unfold Rsqr in *. lra.
Qed.

Lemma distanceTo_nonneg (p q : Vector3.t) : 0 <= Vector3.distanceTo p q.
Proof. apply sqrt_pos. Qed.

Lemma distanceTo_sqr (p q : Vector3.t) :
  Vector3.distanceTo p q * Vector3.distanceTo p q =
  Vector3.distanceToSquared p q.
Proof. apply sqrt_sqrt, distanceToSquared_nonneg. Qed.

(** The vector from the target to the camera is as long as the distance
    between them. *)
Lemma length_subVectors (c p : Vector3.t) :
  Vector3.length (Vector3.subVectors c p) = Vector3.distanceTo p c.
Proof.
  unfold Vector3.length, Vector3.distanceTo, Vector3.distanceToSquared.
  simpl. f_equal. ring.
Qed.

(** A target that sits on the camera does not move. *)
Lemma advance_at_camera (c : Vector3.t) (tg : Target.t) :
  distanceOf tg c = 0 -> distanceOf (Target.advance c tg) c = 0.
Proof.
  unfold distanceOf, positionOf. intros H0.
  pose proof (distanceTo_sqr (Target.position (Target.mesh tg)) c) as Hs.
  rewrite H0 in Hs. unfold Vector3.distanceToSquared in Hs.
  destruct tg as [lc [id sz col [px py pz] rx0 ry0] sp];
    destruct c as [cx cy cz]; simpl in *.
  pose proof (Rle_0_sqr (px - cx)) as Hx. pose proof (Rle_0_sqr (py - cy)) as Hy.
  pose proof (Rle_0_sqr (pz - cz)) as Hz. unfold Rsqr in Hx, Hy, Hz.
  assert (px - cx = 0) as Ex by (apply Rsqr_0_uniq; unfold Rsqr; lra).
  assert (py - cy = 0) as Ey by (apply Rsqr_0_uniq; unfold Rsqr; lra).
  assert (pz - cz = 0) as Ez by (apply Rsqr_0_uniq; unfold Rsqr; lra).
  assert (px = cx /\ py = cy /\ pz = cz) as (-> & -> & ->)
    by (repeat split; lra).
  unfold Vector3.distanceTo, Vector3.distanceToSquared. simpl.
  replace (_ + _ + _) with 0 by ring. apply sqrt_0.
Qed.

(** One pursuit step from distance [d > 0] at speed [s] ends at distance
    [|d - s|]. *)
Lemma advance_distance (c : Vector3.t) (tg : Target.t) :
  distanceOf tg c <> 0 ->
  distanceOf (Target.advance c tg) c =
  Rabs (distanceOf tg c - Target.speed tg).
Proof.
  unfold distanceOf, positionOf. intros Hd.
  set (d := Vector3.distanceTo (Target.position (Target.mesh tg)) c) in *.
  pose proof (distanceTo_sqr (Target.position (Target.mesh tg)) c) as Hs.
  fold d in Hs.
  unfold Target.advance, Vector3.normalize.
  rewrite length_subVectors. fold d.
  destruct (Req_dec_T d 0) as [E | _]; [contradiction |].
  rewrite <- sqrt_Rsqr_abs.
  unfold Vector3.distanceTo at 1. f_equal.
  unfold Vector3.distanceToSquared in *.
  destruct tg as [lc [id sz col [px py pz] rx0 ry0] sp];
    destruct c as [cx cy cz]; simpl in *.
  unfold Rsqr.
  replace (px + (cx - px) * (1 / d) * sp - cx)
    with ((px - cx) * (1 - sp / d)) by (field; assumption).
  replace (py + (cy - py) * (1 / d) * sp - cy)
    with ((py - cy) * (1 - sp / d)) by (field; assumption).
  replace (pz + (cz - pz) * (1 / d) * sp - cz)
    with ((pz - cz) * (1 - sp / d)) by (field; assumption).
  transitivity ((d * d) * ((1 - sp / d) * (1 - sp / d))).
  - rewrite Hs. ring.
  - field. assumption.
Qed.

(** With the camera at the origin the step scales the position. *)
Lemma advance_z_origin (tg : Target.t) :
  distanceOf tg Vector3.zero <> 0 ->
  Vector3.z (positionOf (Target.advance Vector3.zero tg)) =
  Vector3.z (positionOf tg) *
  (1 - Target.speed tg / distanceOf tg Vector3.zero).
Proof.
  unfold distanceOf, positionOf. intros Hd.
  unfold Target.advance, Vector3.normalize.
  rewrite length_subVectors.
  destruct (Req_dec_T _ 0) as [E | _]; [contradiction |].
  destruct tg as [lc [id sz col [px py pz] rx0 ry0] sp]; simpl in *.
  field. assumption.
Qed.

Lemma respawn_position (rnd : Rand) (k : nat) (lc : LevelConfig)
      (tg : Target.t) :
  unit_interval rnd -> positiveRange lc ->
  Target.inSpawnVolume lc (positionOf (fst (Target.respawn rnd k lc tg))).
Proof.
  intros Hr (Hx & Hy & Hz).
  pose proof (Hr k) as H1. pose proof (Hr (k + 1)%nat) as H2.
  pose proof (Hr (k + 2)%nat) as H3.
  unfold Target.inSpawnVolume, positionOf. simpl.
  repeat split; nra.
Qed.

End Geometry.

Section Pursuit.
Import Levels.
Local Open Scope R_scope.

Lemma update_cases (rnd : Rand) (k : nat) (c : Vector3.t)
      (lc : LevelConfig) (tg : Target.t) :
  (Target.mustRespawn c (Target.advance c tg) = true /\
   Target.update rnd k c lc tg =
   Target.respawn rnd k lc (Target.advance c tg)) \/
  (Target.mustRespawn c (Target.advance c tg) = false /\
   Target.update rnd k c lc tg = (Target.advance c tg, k)).
Proof.
  unfold Target.update.
  destruct (Target.mustRespawn c (Target.advance c tg)); auto.
Qed.

Lemma no_respawn_bounds (c : Vector3.t) (tg : Target.t) :
  Target.mustRespawn c tg = false ->
  1 <= distanceOf tg c /\ Vector3.z (positionOf tg) <= 0.
Proof.
  unfold Target.mustRespawn, gtb. intros H.
  apply orb_false_iff in H as [H1 H2].
  apply ltb_false in H1, H2. unfold distanceOf, positionOf. lra.
Qed.

(** A step that does not respawn started away from the camera. *)
Lemma no_respawn_started_away (c : Vector3.t) (tg : Target.t) :
  Target.mustRespawn c (Target.advance c tg) = false ->
  distanceOf tg c <> 0.
Proof.
  intros H E. apply no_respawn_bounds in H as [H _].
  rewrite (advance_at_camera c tg E) in H. lra.
Qed.

(** In the game the camera stays at the origin and targets are in front
    of it: a step that does not respawn keeps the target in front and
    brings it closer by exactly its speed. *)
Lemma step_closer_origin (tg : Target.t) :
  0 < Target.speed tg ->
  Vector3.z (positionOf tg) < 0 ->
  Target.mustRespawn Vector3.zero (Target.advance Vector3.zero tg) = false ->
  distanceOf (Target.advance Vector3.zero tg) Vector3.zero =
  distanceOf tg Vector3.zero - Target.speed tg /\
  Vector3.z (positionOf (Target.advance Vector3.zero tg)) < 0.
Proof.
  intros Hs Hz H.
  pose proof (no_respawn_started_away _ tg H) as Hd.
  pose proof (no_respawn_bounds _ _ H) as [H1 Hz'].
  rewrite (advance_z_origin tg Hd) in *.
  rewrite (advance_distance _ tg Hd) in *.
  pose proof (distanceTo_nonneg (positionOf tg) Vector3.zero) as Hp.
  fold (distanceOf tg Vector3.zero) in Hp.
  set (d := distanceOf tg Vector3.zero) in *.
  set (s := Target.speed tg) in *.
  set (z := Vector3.z (positionOf tg)) in *.
  assert (0 < d) as Hd0 by lra.
  assert (s <= d) as Hsd.
  { destruct (Rle_or_lt s d) as [|Hlt]; [assumption | exfalso].
    assert (1 - s / d < 0).
    { apply Rmult_lt_reg_r with d; [assumption |].
      replace ((1 - s / d) * d) with (d - s) by (field; lra). lra. }
    nra. }
  assert (Rabs (d - s) = d - s) as Ha by (apply Rabs_right; lra).
  rewrite Ha in *. split; [reflexivity |].
  assert (0 < 1 - s / d).
  { apply Rmult_lt_reg_r with d; [assumption |].
    replace ((1 - s / d) * d) with (d - s) by (field; lra). lra. }
  nra.
Qed.

End Pursuit.

Section PursuitClaims.
Import Levels.
Local Open Scope R_scope.

Lemma distance_on_axis (a b : R) :
  Vector3.distanceTo (Vector3.mk 0 0 a) (Vector3.mk 0 0 b) = Rabs (a - b).
Proof.
  unfold Vector3.distanceTo, Vector3.distanceToSquared. simpl.
  rewrite <- sqrt_Rsqr_abs. f_equal. unfold Rsqr. ring.
Qed.

(** A target straight behind the camera's [z] moves along the axis. *)
Lemma advance_on_axis (cz pz : R) (tg : Target.t) :
  positionOf tg = Vector3.mk 0 0 pz -> pz < cz ->
  positionOf (Target.advance (Vector3.mk 0 0 cz) tg) =
  Vector3.mk 0 0 (pz + Target.speed tg).
Proof.
  unfold positionOf. intros Hp Hlt.
  unfold Target.advance, Vector3.normalize.
  rewrite length_subVectors, Hp, distance_on_axis.
  rewrite Rabs_left by lra.
  destruct (Req_dec_T _ 0) as [E | Hne]; [lra |].
  unfold Vector3.add, Vector3.multiplyScalar, Vector3.divideScalar,
    Vector3.subVectors, Vector3.multiplyScalar. simpl.
  f_equal; field; lra.
Qed.

Lemma rnd0_unit : unit_interval rnd0.
Proof. intros k. unfold rnd0. lra. Qed.

Lemma beginner_positive : positiveRange beginner.
Proof. unfold positiveRange. simpl. lra. Qed.



Lemma mustRespawn_on_axis (cz pz : R) (tg : Target.t) :
  positionOf tg = Vector3.mk 0 0 pz -> pz < cz ->
  Target.mustRespawn (Vector3.mk 0 0 cz)
                     (Target.advance (Vector3.mk 0 0 cz) tg) =
  ltb (Rabs (pz + Target.speed tg - cz)) 1.0 ||
  gtb (pz + Target.speed tg) 0.
Proof.
  intros Hp Hlt. unfold Target.mustRespawn.
  fold (positionOf (Target.advance (Vector3.mk 0 0 cz) tg)).
  rewrite (advance_on_axis cz pz tg Hp Hlt), distance_on_axis.
  reflexivity.
Qed.

Lemma distanceOf_on_axis (cz pz : R) (tg : Target.t) :
  positionOf tg = Vector3.mk 0 0 pz ->
  distanceOf tg (Vector3.mk 0 0 cz) = Rabs (pz - cz).
Proof.
  intros Hp. unfold distanceOf. rewrite Hp. apply distance_on_axis.
Qed.

End PursuitClaims.

(** ** Rounding errors of the pursuit step *)

Section Norm.
Local Open Scope R_scope.

Lemma Rabs_bounds (a b : R) : Rabs a <= b <-> - b <= a <= b.
Proof.
  unfold Rabs. destruct (Rcase_abs a); split; intros; lra.
Qed.

Lemma sqr_bound (a m : R) : Rabs a <= m -> a * a <= m * m.
Proof.
  intros H. apply Rabs_bounds in H. nra.
Qed.

Lemma norm3_nonneg (a b c : R) : 0 <= norm3 a b c.
Proof. apply sqrt_pos. Qed.

Lemma norm3_sqr (a b c : R) :
  norm3 a b c * norm3 a b c = a * a + b * b + c * c.
Proof. apply sqrt_sqrt. nra. Qed.

Lemma norm3_component (a b c : R) :
  Rabs a <= norm3 a b c /\ Rabs b <= norm3 a b c /\ Rabs c <= norm3 a b c.
Proof.
  pose proof (norm3_nonneg a b c) as H0. pose proof (norm3_sqr a b c) as Hs.
  repeat split; apply Rabs_bounds; nra.
Qed.

Lemma norm3_small (a b c t : R) :
  Rabs a <= t -> Rabs b <= t -> Rabs c <= t -> norm3 a b c <= 2 * t.
Proof.
  intros Ha Hb Hc.
  pose proof (norm3_nonneg a b c) as H0. pose proof (norm3_sqr a b c) as Hs.
  pose proof (sqr_bound a t Ha). pose proof (sqr_bound b t Hb).
  pose proof (sqr_bound c t Hc).
  assert (0 <= t) by (pose proof (Rabs_pos a); lra).
  nra.
Qed.

Lemma norm3_triangle (a b c a' b' c' : R) :
  norm3 (a + a') (b + b') (c + c') <= norm3 a b c + norm3 a' b' c'.
Proof.
  pose proof (norm3_nonneg a b c) as Hn. pose proof (norm3_sqr a b c) as Hs.
  pose proof (norm3_nonneg a' b' c') as Hn'.
  pose proof (norm3_sqr a' b' c') as Hs'.
  set (n := norm3 a b c) in *. set (n' := norm3 a' b' c') in *.
  assert (a * a' + b * b' + c * c' <= n * n') as Hcs.
  { assert ((a * a' + b * b' + c * c') * (a * a' + b * b' + c * c')
            <= (n * n') * (n * n')) as Hsq.
    { replace ((n * n') * (n * n')) with ((n * n) * (n' * n')) by ring.
      rewrite Hs, Hs'.
      pose proof (Rle_0_sqr (a * b' - a' * b)).
      pose proof (Rle_0_sqr (a * c' - a' * c)).
      pose proof (Rle_0_sqr (b * c' - b' * c)).
      unfold Rsqr in *. nra. }
    assert (0 <= n * n') by nra. nra. }
  unfold norm3 at 1.
  replace (n + n') with (sqrt ((n + n') * (n + n')))
    by (apply sqrt_square; lra).
  apply sqrt_le_1_alt. nra.
Qed.

(** Two vectors that differ by [e] have norms that differ by at most
    the norm of [e]. *)
Lemma norm3_perturbed (a b c a' b' c' : R) :
  Rabs (norm3 a' b' c' - norm3 a b c)
  <= norm3 (a' - a) (b' - b) (c' - c).
Proof.
  pose proof (norm3_triangle a b c (a' - a) (b' - b) (c' - c)) as H1.
  pose proof (norm3_triangle a' b' c' (a - a') (b - b') (c - c')) as H2.
  replace (a + (a' - a)) with a' in H1 by ring.
  replace (b + (b' - b)) with b' in H1 by ring.
  replace (c + (c' - c)) with c' in H1 by ring.
  replace (a' + (a - a')) with a in H2 by ring.
  replace (b' + (b - b')) with b in H2 by ring.
  replace (c' + (c - c')) with c in H2 by ring.
  assert (norm3 (a - a') (b - b') (c - c') =
          norm3 (a' - a) (b' - b) (c' - c)) as E
      by (unfold norm3; f_equal; ring).
  rewrite E in H2. apply Rabs_bounds. lra.
Qed.

Lemma norm3_scaled (k a b c : R) :
  norm3 (k * a) (k * b) (k * c) = Rabs k * norm3 a b c.
Proof.
  unfold norm3.
  replace (k * a * (k * a) + k * b * (k * b) + k * c * (k * c))
    with ((k * k) * (a * a + b * b + c * c)) by ring.
  rewrite sqrt_mult_alt by nra.
  f_equal. fold (Rsqr k). apply sqrt_Rsqr_abs.
Qed.

(** A number close to a square has a root close to the root. *)
Lemma sqrt_near (n s d : R) :
  0 <= d <= n -> Rabs (s - n * n) <= d * n -> Rabs (sqrt s - n) <= d.
Proof.
  intros Hd Hs. apply Rabs_bounds in Hs. apply Rabs_bounds.
  assert (0 <= s) by nra.
  assert (n - d <= sqrt s) as Hlo.
  { rewrite <- (sqrt_square (n - d)) by lra. apply sqrt_le_1_alt. nra. }
  assert (sqrt s <= n + d) as Hhi.
  { rewrite <- (sqrt_square (n + d)) by lra. apply sqrt_le_1_alt. nra. }
  lra.
Qed.

End Norm.

Section RoundingError.
Import Levels.
Local Open Scope R_scope.

Variable fl : R -> R.
Hypothesis Hfl : binary64 fl.

Lemma tiny_below : / 2 ^ 1075 <= / 2 ^ 100.
Proof.
  apply Rinv_le_contravar; [apply pow_lt; lra |].
  apply Rle_pow; [lra | lia].
Qed.

Lemma fl_error (x : R) :
  Rabs x <= 2 ^ 40 ->
  x - (Rabs x / 2 ^ 53 + / 2 ^ 100) <= fl x <=
  x + (Rabs x / 2 ^ 53 + / 2 ^ 100).
Proof.
  intros Hx.
  assert (Rabs x <= 2 ^ 1023) as Hbig.
  { apply Rle_trans with (2 ^ 40); [exact Hx |].
    apply Rle_pow; [lra | lia]. }
  pose proof (Hfl x Hbig) as H. pose proof tiny_below as Ht.
  apply Rabs_bounds in H. lra.
Qed.

(** [a * a + b * b + c * c] in rounded arithmetic. *)
Lemma sumOfSquares_error (a b c : R) :
  Rabs a <= 2 ^ 13 -> Rabs b <= 2 ^ 13 -> Rabs c <= 2 ^ 13 ->
  let q := a * a + b * b + c * c in
  Rabs (Rounded.sumOfSquares fl a b c - q) <= q / 2 ^ 51 + / 2 ^ 97.
Proof.
  intros Ha Hb Hc q. unfold Rounded.sumOfSquares.
  pose proof (sqr_bound a _ Ha) as Qa. pose proof (sqr_bound b _ Hb) as Qb.
  pose proof (sqr_bound c _ Hc) as Qc.
  assert (0 <= a * a) as Pa by nra. assert (0 <= b * b) as Pb by nra.
  assert (0 <= c * c) as Pc by nra.
  set (qa := a * a) in *. set (qb := b * b) in *. set (qc := c * c) in *.
  assert (Rabs qa = qa) as Aa by (apply Rabs_right; lra).
  assert (Rabs qb = qb) as Ab by (apply Rabs_right; lra).
  assert (Rabs qc = qc) as Ac by (apply Rabs_right; lra).
  pose proof (fl_error qa) as Fa. rewrite Aa in Fa.
  pose proof (fl_error qb) as Fb. rewrite Ab in Fb.
  pose proof (fl_error qc) as Fc. rewrite Ac in Fc.
  specialize (Fa ltac:(lra)). specialize (Fb ltac:(lra)).
  specialize (Fc ltac:(lra)).
  set (sa := fl qa) in *. set (sb := fl qb) in *. set (sc := fl qc) in *.
  assert (- (2 * / 2 ^ 100) <= sa + sb <= 2 ^ 28) as Ht0 by lra.
  pose proof (fl_error (sa + sb)) as Ft.
  assert (Rabs (sa + sb) <= sa + sb + 4 * / 2 ^ 100) as At
      by (apply Rabs_bounds; lra).
  assert (0 <= Rabs (sa + sb)) as At0 by apply Rabs_pos.
  specialize (Ft ltac:(lra)).
  set (t := fl (sa + sb)) in *.
  pose proof (fl_error (t + sc)) as Fr.
  assert (Rabs (t + sc) <= t + sc + 16 * / 2 ^ 100) as Ar
      by (apply Rabs_bounds; lra).
  assert (0 <= Rabs (t + sc)) as Ar0 by apply Rabs_pos.
  specialize (Fr ltac:(lra)).
  apply Rabs_bounds. unfold q. lra.
Qed.

(** The norm of a vector whose components were rounded once, computed
    in rounded arithmetic: within a relative 2^-48 of the exact norm [n]
    when [n] is not small, and not seen as 1 or more when it is. *)
Lemma rounded_norm (a b c a' b' c' : R) :
  Rabs a <= 2 ^ 12 -> Rabs b <= 2 ^ 12 -> Rabs c <= 2 ^ 12 ->
  Rabs (a' - a) <= Rabs a / 2 ^ 53 + / 2 ^ 100 ->
  Rabs (b' - b) <= Rabs b / 2 ^ 53 + / 2 ^ 100 ->
  Rabs (c' - c) <= Rabs c / 2 ^ 53 + / 2 ^ 100 ->
  let n := norm3 a b c in
  let l := fl (sqrt (Rounded.sumOfSquares fl a' b' c')) in
  (3 / 4 <= n -> Rabs (l - n) <= n / 2 ^ 48) /\ (n < 3 / 4 -> l <= 7 / 8).
Proof.
  intros Ha Hb Hc Ea Eb Ec n l.
  pose proof (norm3_nonneg a b c) as Hn0. fold n in Hn0.
  destruct (norm3_component a b c) as (Ca & Cb & Cc). fold n in Ca, Cb, Cc.
  assert (n <= 2 ^ 13) as Hn13.
  { replace (2 ^ 13) with (2 * 2 ^ 12) by (simpl; ring).
    apply norm3_small; assumption. }
  set (t := n / 2 ^ 53 + / 2 ^ 100).
  assert (Rabs (a' - a) <= t) as Ta by (unfold t; lra).
  assert (Rabs (b' - b) <= t) as Tb by (unfold t; lra).
  assert (Rabs (c' - c) <= t) as Tc by (unfold t; lra).
  pose proof (norm3_perturbed a b c a' b' c') as Hp.
  pose proof (norm3_small _ _ _ t Ta Tb Tc) as Hs.
  set (n' := norm3 a' b' c') in *. fold n in Hp.
  assert (Rabs (n' - n) <= 2 * t) as Hnn by lra.
  apply Rabs_bounds in Hnn. unfold t in Hnn.
  pose proof (norm3_nonneg a' b' c') as Hn'0. fold n' in Hn'0.
  pose proof (norm3_sqr a' b' c') as Hq. fold n' in Hq.
  assert (Rabs a' <= 2 ^ 13) as Ha'
      by (apply Rabs_bounds in Ha, Ta; apply Rabs_bounds; unfold t in Ta;
          lra).
  assert (Rabs b' <= 2 ^ 13) as Hb'
      by (apply Rabs_bounds in Hb, Tb; apply Rabs_bounds; unfold t in Tb;
          lra).
  assert (Rabs c' <= 2 ^ 13) as Hc'
      by (apply Rabs_bounds in Hc, Tc; apply Rabs_bounds; unfold t in Tc;
          lra).
  pose proof (sumOfSquares_error a' b' c' Ha' Hb' Hc') as HS.
  cbv zeta in HS. rewrite <- Hq in HS.
  set (S := Rounded.sumOfSquares fl a' b' c') in *.
  set (q := n' * n') in *.
  apply Rabs_bounds in HS.
  split.
  - intros Hbig.
    assert (/ 4 <= q) as Hq4 by (unfold q; nra).
    assert (Rabs (sqrt S - n') <= n' / 2 ^ 50) as Hroot.
    { apply sqrt_near; [lra |].
      replace (n' / 2 ^ 50 * n') with (q / 2 ^ 50) by (unfold q; field).
      apply Rabs_bounds. unfold q in *. lra. }
    apply Rabs_bounds in Hroot.
    assert (0 <= sqrt S) as Hr0 by apply sqrt_pos.
    pose proof (fl_error (sqrt S)) as Hf.
    rewrite (Rabs_right (sqrt S)) in Hf by lra.
    specialize (Hf ltac:(lra)). fold l in Hf.
    apply Rabs_bounds. lra.
  - intros Hsmall.
    assert (q <= 4 / 5 * (4 / 5) - / 16) as Hq'
        by (unfold q; nra).
    assert (sqrt S <= 4 / 5) as Hroot.
    { rewrite <- (sqrt_square (4 / 5)) by lra. apply sqrt_le_1_alt. lra. }
    assert (0 <= sqrt S) as Hr0 by apply sqrt_pos.
    pose proof (fl_error (sqrt S)) as Hf.
    rewrite (Rabs_right (sqrt S)) in Hf by lra.
    specialize (Hf ltac:(lra)). fold l in Hf. lra.
Qed.

End RoundingError.

Section PursuitError.
Import Levels.
Local Open Scope R_scope.

Variable fl : R -> R.
Hypothesis Hfl : binary64 fl.

Lemma Rabs_product (a b A B : R) :
  Rabs a <= A -> Rabs b <= B -> Rabs (a * b) <= A * B.
Proof.
  intros Ha Hb. rewrite Rabs_mult.
  apply Rmult_le_compat; try apply Rabs_pos; assumption.
Qed.

(** [1 / length] for a computed length [l] close to the exact [n]. *)
Lemma inverse_error (n l : R) :
  3 / 4 <= n <= 2 ^ 13 -> Rabs (l - n) <= n / 2 ^ 48 ->
  0 < l /\ Rabs (fl (1 / l) - / n) <= / n / 2 ^ 46.
Proof.
  intros Hn Hl. apply Rabs_bounds in Hl.
  assert (n / 2 <= l) as Hl2 by lra.
  assert (0 < l) as Hl0 by lra. split; [exact Hl0 |].
  set (m := / n). set (r := 1 / l).
  assert (m * n = 1) as Hm by (unfold m; field; lra).
  assert (r * l = 1) as Hr by (unfold r; field; lra).
  assert (0 < m) as Hm0 by (unfold m; apply Rinv_0_lt_compat; lra).
  assert (0 < r) as Hr0
      by (unfold r; apply Rdiv_lt_0_compat; lra).
  assert (/ 2 ^ 13 <= m <= 4 / 3) as Hm43 by nra.
  assert (r <= 2 * m) as Hr2 by nra.
  assert (r - m = r * m * (n - l)) as E by (unfold r, m; field; lra).
  assert (Rabs (r - m) <= m / 2 ^ 47) as Hrm.
  { rewrite E.
    assert (Rabs (r * m * (n - l)) <= r * m * (n / 2 ^ 48)) as Hp.
    { apply Rabs_product; [| apply Rabs_bounds; lra].
      rewrite Rabs_right; [lra | nra]. }
    replace (r * m * (n / 2 ^ 48)) with (r * (m * n) / 2 ^ 48) in Hp
      by field.
    rewrite Hm in Hp. lra. }
  apply Rabs_bounds in Hrm.
  pose proof (fl_error fl Hfl r) as Hf.
  rewrite (Rabs_right r) in Hf by lra. specialize (Hf ltac:(lra)).
  apply Rabs_bounds. lra.
Qed.

(** One component of the computed direction, for the player at the
    origin: [vi] is the rounded [0 - xi]. *)
Lemma direction_error (n l xi vi : R) :
  3 / 4 <= n <= 2 ^ 13 -> Rabs (l - n) <= n / 2 ^ 48 -> Rabs xi <= n ->
  Rabs (vi + xi) <= Rabs xi / 2 ^ 53 + / 2 ^ 100 ->
  Rabs (fl (vi * fl (1 / l)) + xi / n) <= / 2 ^ 44.
Proof.
  intros Hn Hl Hx Hv.
  destruct (inverse_error n l Hn Hl) as [Hl0 Hi].
  set (m := / n) in *. set (i := fl (1 / l)) in *.
  assert (m * n = 1) as Hm by (unfold m; field; lra).
  assert (0 < m) as Hm0 by (unfold m; apply Rinv_0_lt_compat; lra).
  assert (m <= 4 / 3) as Hm43 by nra.
  set (X := Rabs xi) in *.
  assert (0 <= X) as HX0 by apply Rabs_pos.
  assert (X * m <= 1) as HXm by nra.
  set (e1 := vi + xi) in *. set (e2 := i - m) in *.
  assert (vi * i + xi / n = e1 * m + e1 * e2 - xi * e2) as E
      by (unfold e1, e2, m; field; lra).
  assert (Rabs (e1 * m) <= (X / 2 ^ 53 + / 2 ^ 100) * m) as B1.
  { apply Rabs_product; [exact Hv |]. rewrite Rabs_right; lra. }
  assert (Rabs (e1 * e2) <= (X / 2 ^ 53 + / 2 ^ 100) * (m / 2 ^ 46)) as B2
      by (apply Rabs_product; assumption).
  assert (Rabs (xi * e2) <= X * (m / 2 ^ 46)) as B3
      by (apply Rabs_product; [unfold X; lra | assumption]).
  apply Rabs_bounds in B1, B2, B3.
  assert (Rabs (vi * i + xi / n) <= / 2 ^ 45) as Hprod.
  { rewrite E. apply Rabs_bounds. lra. }
  assert (Rabs (xi / n) <= 1) as Hq.
  { unfold Rdiv. fold m. rewrite <- (Rmult_1_l 1) at 1.
    replace 1 with (1 * 1) by ring.
    rewrite Rabs_mult. fold X. rewrite (Rabs_right m) by lra. lra. }
  apply Rabs_bounds in Hprod, Hq.
  pose proof (fl_error fl Hfl (vi * i)) as Hf.
  assert (Rabs (vi * i) <= 2) as Hvi by (apply Rabs_bounds; lra).
  pose proof (Rabs_pos (vi * i)) as Hp0.
  specialize (Hf ltac:(lra)).
  apply Rabs_bounds. lra.
Qed.

(** One component of the position after the step. *)
Lemma moved_error (n xi dir s : R) :
  3 / 4 <= n -> Rabs xi <= n -> Rabs xi <= 2 ^ 11 ->
  Rabs (dir + xi / n) <= / 2 ^ 44 -> 0 <= s <= 1 ->
  Rabs (fl (xi + fl (dir * s)) - xi * (1 - s / n)) <= / 2 ^ 39 /\
  Rabs (xi * (1 - s / n)) <= Rabs xi + 1.
Proof.
  intros Hn Hx Hx11 Hd Hs.
  set (m := / n) in *.
  assert (m * n = 1) as Hm by (unfold m; field; lra).
  assert (0 < m) as Hm0 by (unfold m; apply Rinv_0_lt_compat; lra).
  assert (m <= 4 / 3) as Hm43 by nra.
  set (X := Rabs xi) in *.
  assert (0 <= X) as HX0 by apply Rabs_pos.
  assert (X * m <= 1) as HXm by nra.
  assert (Rabs (xi / n) <= 1) as Hq.
  { unfold Rdiv. fold m. rewrite Rabs_mult. fold X.
    rewrite (Rabs_right m) by lra. lra. }
  apply Rabs_bounds in Hq, Hd.
  set (g := dir + xi / n) in *.
  assert (Rabs (g * s) <= / 2 ^ 44 * 1) as Hgs
      by (apply Rabs_product; apply Rabs_bounds; lra).
  assert (Rabs (xi / n * s) <= 1 * 1) as Hqs
      by (apply Rabs_product; apply Rabs_bounds; lra).
  apply Rabs_bounds in Hgs, Hqs.
  assert (dir * s = g * s - xi / n * s) as E1 by (unfold g; ring).
  pose proof (fl_error fl Hfl (dir * s)) as Hf1.
  assert (Rabs (dir * s) <= 2) as Hds by (apply Rabs_bounds; lra).
  pose proof (Rabs_pos (dir * s)) as Hp1.
  specialize (Hf1 ltac:(lra)).
  set (w := fl (dir * s)) in *.
  apply Rabs_bounds in Hx11.
  pose proof (fl_error fl Hfl (xi + w)) as Hf2.
  assert (Rabs (xi + w) <= 2 ^ 12) as Hxw by (apply Rabs_bounds; lra).
  pose proof (Rabs_pos (xi + w)) as Hp2.
  specialize (Hf2 ltac:(lra)).
  assert (xi * (1 - s / n) = xi - xi / n * s) as E2
      by (unfold Rdiv; ring).
  split.
  - rewrite E2. apply Rabs_bounds. lra.
  - rewrite E2. apply Rabs_bounds in Hx.
    unfold X in *.
    assert (- Rabs xi <= xi <= Rabs xi) as Hxx
        by (apply Rabs_bounds; lra).
    apply Rabs_bounds. lra.
Qed.

End PursuitError.

Section PursuitStep.
Import Levels.
Local Open Scope R_scope.

Variable fl : R -> R.
Hypothesis Hfl : binary64 fl.

Lemma norm3_opp (a b c : R) : norm3 (- a) (- b) (- c) = norm3 a b c.
Proof. unfold norm3. f_equal. ring. Qed.

Lemma fl_of_difference (a : R) :
  Rabs a <= 2 ^ 12 ->
  Rabs (fl (a - 0) - a) <= Rabs a / 2 ^ 53 + / 2 ^ 100 /\
  Rabs (fl (0 - a) - - a) <= Rabs (- a) / 2 ^ 53 + / 2 ^ 100.
Proof.
  intros Ha. split.
  - rewrite Rminus_0_r. pose proof (fl_error fl Hfl a ltac:(lra)) as H.
    apply Rabs_bounds. lra.
  - rewrite Rminus_0_l. rewrite Rabs_Ropp.
    pose proof (fl_error fl Hfl (- a)) as H. rewrite Rabs_Ropp in H.
    specialize (H ltac:(lra)). apply Rabs_bounds. lra.
Qed.

(** The distance to a player at the origin, as computed, against the
    exact one. *)
Lemma roundedDistance_error (tg : Target.t) :
  let p := positionOf tg in
  let n := norm3 (Vector3.x p) (Vector3.y p) (Vector3.z p) in
  Rabs (Vector3.x p) <= 2 ^ 12 -> Rabs (Vector3.y p) <= 2 ^ 12 ->
  Rabs (Vector3.z p) <= 2 ^ 12 ->
  (3 / 4 <= n -> Rabs (roundedDistance fl tg Vector3.zero - n) <= n / 2 ^ 48)
  /\ (n < 3 / 4 -> roundedDistance fl tg Vector3.zero <= 7 / 8).
Proof.
  intros p n Hx Hy Hz.
  destruct (fl_of_difference _ Hx) as [Ex _].
  destruct (fl_of_difference _ Hy) as [Ey _].
  destruct (fl_of_difference _ Hz) as [Ez _].
  exact (rounded_norm fl Hfl _ _ _ _ _ _ Hx Hy Hz Ex Ey Ez).
Qed.

(** One pursuit step towards a player at the origin, in rounded
    arithmetic: if the target was at least 1 away before and is so after,
    its distance has dropped by its speed, up to 2^-33. *)
Lemma step_closes_in (tg : Target.t) :
  let p := positionOf tg in
  let tg' := Rounded.advance fl Vector3.zero tg in
  let p' := positionOf tg' in
  let D := roundedDistance fl tg Vector3.zero in
  let D' := roundedDistance fl tg' Vector3.zero in
  Rabs (Vector3.x p) <= 2 ^ 11 -> Rabs (Vector3.y p) <= 2 ^ 11 ->
  Rabs (Vector3.z p) <= 2 ^ 11 ->
  1 <= D <= 2 ^ 10 -> 0 <= Target.speed tg <= 1 -> 1 <= D' ->
  Rabs (D' - (D - Target.speed tg)) <= / 2 ^ 33 /\
  Rabs (Vector3.x p') <= 2 ^ 11 /\ Rabs (Vector3.y p') <= 2 ^ 11 /\
  Rabs (Vector3.z p') <= 2 ^ 11.
Proof.
  intros p tg' p' D D' Hx Hy Hz HD Hs HD'.
  pose proof (roundedDistance_error tg) as HE. cbv zeta in HE.
  fold p D in HE.
  specialize (HE ltac:(lra) ltac:(lra) ltac:(lra)).
  pose proof (roundedDistance_error tg') as HE'. cbv zeta in HE'.
  fold p' D' in HE'.
  destruct tg as [lc [id sz col [x y z] rX rY] s].
  cbn [positionOf Target.position Target.mesh Vector3.x Vector3.y Vector3.z
       Target.speed] in *.
  subst p. cbn [Vector3.x Vector3.y Vector3.z] in *.
  set (n := norm3 x y z) in *.
  destruct HE as [HE1 HE2].
  assert (3 / 4 <= n) as Hn by (destruct (Rlt_le_dec n (3 / 4)); lra).
  specialize (HE1 Hn). clear HE2.
  destruct (norm3_component x y z) as (Cx & Cy & Cz). fold n in Cx, Cy, Cz.
  assert (n <= 2 ^ 12) as Hn12.
  { replace (2 ^ 12) with (2 * 2 ^ 11) by (simpl; ring).
    apply norm3_small; assumption. }
  (* the direction *)
  destruct (fl_of_difference x ltac:(lra)) as [_ Vx].
  destruct (fl_of_difference y ltac:(lra)) as [_ Vy].
  destruct (fl_of_difference z ltac:(lra)) as [_ Vz].
  assert (Rabs (- x) <= 2 ^ 12) as Ox by (rewrite Rabs_Ropp; lra).
  assert (Rabs (- y) <= 2 ^ 12) as Oy by (rewrite Rabs_Ropp; lra).
  assert (Rabs (- z) <= 2 ^ 12) as Oz by (rewrite Rabs_Ropp; lra).
  pose proof (rounded_norm fl Hfl _ _ _ _ _ _ Ox Oy Oz Vx Vy Vz) as HL.
  cbv zeta in HL. rewrite norm3_opp in HL. fold n in HL.
  destruct HL as [HL _]. specialize (HL Hn).
  set (l := fl (sqrt (Rounded.sumOfSquares fl (fl (0 - x)) (fl (0 - y))
                                           (fl (0 - z))))) in *.
  destruct (inverse_error fl Hfl n l ltac:(lra) HL) as [Hl0 _].
  assert (positionOf tg' =
          Vector3.mk (fl (x + fl (fl (fl (0 - x) * fl (1 / l)) * s)))
                     (fl (y + fl (fl (fl (0 - y) * fl (1 / l)) * s)))
                     (fl (z + fl (fl (fl (0 - z) * fl (1 / l)) * s))))
    as Ep'.
  { unfold tg', Rounded.advance, Rounded.normalize, Rounded.divideScalar,
      Rounded.multiplyScalar, Rounded.add, Rounded.subVectors,
      Rounded.length, positionOf.
    cbn [Target.position Target.mesh Target.withMesh Target.setPosition
         Target.speed Vector3.x Vector3.y Vector3.z Vector3.zero].
    fold l. destruct (Req_dec_T l 0) as [E0 | _]; [lra | reflexivity]. }
  fold p' in Ep'.
  rewrite Rabs_Ropp in Vx, Vy, Vz.
  replace (fl (0 - x) - - x) with (fl (0 - x) + x) in Vx by ring.
  replace (fl (0 - y) - - y) with (fl (0 - y) + y) in Vy by ring.
  replace (fl (0 - z) - - z) with (fl (0 - z) + z) in Vz by ring.
  pose proof (direction_error fl Hfl n l x _ ltac:(lra) HL Cx Vx) as Dx.
  pose proof (direction_error fl Hfl n l y _ ltac:(lra) HL Cy Vy) as Dy.
  pose proof (direction_error fl Hfl n l z _ ltac:(lra) HL Cz Vz) as Dz.
  destruct (moved_error fl Hfl n x _ s Hn Cx Hx Dx Hs) as [Mx Bx].
  destruct (moved_error fl Hfl n y _ s Hn Cy Hy Dy Hs) as [My By].
  destruct (moved_error fl Hfl n z _ s Hn Cz Hz Dz Hs) as [Mz Bz].
  set (px := fl (x + fl (fl (fl (0 - x) * fl (1 / l)) * s))) in *.
  set (py := fl (y + fl (fl (fl (0 - y) * fl (1 / l)) * s))) in *.
  set (pz := fl (z + fl (fl (fl (0 - z) * fl (1 / l)) * s))) in *.
  rewrite Ep' in *. cbn [Vector3.x Vector3.y Vector3.z] in *.
  (* the exact distance after the step *)
  set (k := 1 - s / n) in *.
  assert (Rabs (px - k * x) <= / 2 ^ 39) as Mx'
      by (replace (k * x) with (x * k) by ring; exact Mx).
  assert (Rabs (py - k * y) <= / 2 ^ 39) as My'
      by (replace (k * y) with (y * k) by ring; exact My).
  assert (Rabs (pz - k * z) <= / 2 ^ 39) as Mz'
      by (replace (k * z) with (z * k) by ring; exact Mz).
  pose proof (norm3_perturbed (k * x) (k * y) (k * z) px py pz) as HP.
  pose proof (norm3_small _ _ _ (/ 2 ^ 39) Mx' My' Mz') as HS.
  rewrite norm3_scaled in HP. fold n in HP.
  set (n' := norm3 px py pz) in *.
  assert (Rabs k * n = Rabs (n - s)) as Ek.
  { replace (n - s) with (k * n) by (unfold k; field; lra).
    rewrite Rabs_mult, (Rabs_right n) by lra. reflexivity. }
  rewrite Ek in HP.
  assert (Rabs (n' - Rabs (n - s)) <= / 2 ^ 38) as Hn'
      by (apply Rabs_bounds in HP; apply Rabs_bounds; lra).
  clear HP HS.
  (* the computed distance after the step *)
  assert (Rabs px <= 2 ^ 12 /\ Rabs py <= 2 ^ 12 /\ Rabs pz <= 2 ^ 12)
    as (Px & Py & Pz).
  { apply Rabs_bounds in Mx, My, Mz, Bx, By, Bz.
    repeat split; apply Rabs_bounds; lra. }
  specialize (HE' Px Py Pz). destruct HE' as [HE1' HE2'].
  assert (3 / 4 <= n') as Hn'34
      by (destruct (Rlt_le_dec n' (3 / 4)); lra).
  specialize (HE1' Hn'34). clear HE2'.
  apply Rabs_bounds in HE1, HE1', Hn'.
  assert (0 <= n - s) as Hpos.
  { destruct (Rle_lt_dec 0 (n - s)) as [|Hneg]; [assumption |].
    rewrite (Rabs_left (n - s)) in Hn' by lra. lra. }
  rewrite (Rabs_right (n - s)) in Hn' by lra.
  split; [apply Rabs_bounds; lra |].
  destruct (norm3_component px py pz) as (Qx & Qy & Qz).
  fold n' in Qx, Qy, Qz.
  repeat split; lra.
Qed.

End PursuitStep.

Section PursuitRuns.
Import Levels.
Local Open Scope R_scope.

Variable fl : R -> R.
Hypothesis Hfl : binary64 fl.

(** [respawn] in rounded arithmetic puts the target within 2^-40 of the
    spawn volume. *)
Lemma respawn_near (rnd : Rand) (k : nat) (lc : LevelConfig)
      (tg : Target.t) :
  unit_interval rnd -> playable lc ->
  nearSpawnVolume (/ 2 ^ 40) lc
                  (positionOf (fst (Rounded.respawn fl rnd k lc tg))).
Proof.
  intros Hr ((Hrx & Hry & Hrz) & Bx & By & Bz & _).
  unfold nearSpawnVolume, Rounded.respawn, positionOf.
  cbn [fst Target.position Target.mesh Target.setPosition Vector3.x
       Vector3.y Vector3.z].
  set (X := rx (spawnRange lc)) in *. set (Y := ry (spawnRange lc)) in *.
  set (Z := rz (spawnRange lc)) in *.
  pose proof (Hr k) as H0. pose proof (Hr (k + 1)%nat) as H1.
  pose proof (Hr (k + 2)%nat) as H2.
  set (r0 := rnd k) in *. set (r1 := rnd (k + 1)%nat) in *.
  set (r2 := rnd (k + 2)%nat) in *.
  repeat split.
  - (* x, from below *)
    pose proof (fl_error fl Hfl (r0 - 0.5)) as F1.
    assert (Rabs (r0 - 0.5) <= 1 / 2) as A1 by (apply Rabs_bounds; lra).
    pose proof (Rabs_pos (r0 - 0.5)) as P1. specialize (F1 ltac:(lra)).
    set (a := fl (r0 - 0.5)) in *.
    assert (Rabs (a * X) <= (1 / 2 + / 2 ^ 53) * 2 ^ 8) as A2
        by (apply Rabs_product; apply Rabs_bounds; lra).
    assert (Rabs ((a - (r0 - 0.5)) * X) <= (/ 2 ^ 53) * 2 ^ 8) as E2
        by (apply Rabs_product; apply Rabs_bounds; lra).
    assert (- (X / 2) <= (r0 - 0.5) * X <= X / 2) as G2 by nra.
    apply Rabs_bounds in A2, E2.
    pose proof (fl_error fl Hfl (a * X)) as F2.
    assert (Rabs (a * X) <= 2 ^ 9) as A2' by (apply Rabs_bounds; lra).
    pose proof (Rabs_pos (a * X)) as P2. specialize (F2 ltac:(lra)).
    set (b := fl (a * X)) in *.
    pose proof (fl_error fl Hfl (b * 2)) as F3.
    assert (Rabs (b * 2) <= 2 ^ 11) as A3 by (apply Rabs_bounds; lra).
    pose proof (Rabs_pos (b * 2)) as P3. specialize (F3 ltac:(lra)).
    lra.
  - pose proof (fl_error fl Hfl (r0 - 0.5)) as F1.
    assert (Rabs (r0 - 0.5) <= 1 / 2) as A1 by (apply Rabs_bounds; lra).
    pose proof (Rabs_pos (r0 - 0.5)) as P1. specialize (F1 ltac:(lra)).
    set (a := fl (r0 - 0.5)) in *.
    assert (Rabs (a * X) <= (1 / 2 + / 2 ^ 53) * 2 ^ 8) as A2
        by (apply Rabs_product; apply Rabs_bounds; lra).
    assert (Rabs ((a - (r0 - 0.5)) * X) <= (/ 2 ^ 53) * 2 ^ 8) as E2
        by (apply Rabs_product; apply Rabs_bounds; lra).
    assert (- (X / 2) <= (r0 - 0.5) * X <= X / 2) as G2 by nra.
    apply Rabs_bounds in A2, E2.
    pose proof (fl_error fl Hfl (a * X)) as F2.
    assert (Rabs (a * X) <= 2 ^ 9) as A2' by (apply Rabs_bounds; lra).
    pose proof (Rabs_pos (a * X)) as P2. specialize (F2 ltac:(lra)).
    set (b := fl (a * X)) in *.
    pose proof (fl_error fl Hfl (b * 2)) as F3.
    assert (Rabs (b * 2) <= 2 ^ 11) as A3 by (apply Rabs_bounds; lra).
    pose proof (Rabs_pos (b * 2)) as P3. specialize (F3 ltac:(lra)).
    lra.
  - assert (0 <= r1 * Y <= 2 ^ 8) as G1 by nra.
    pose proof (fl_error fl Hfl (r1 * Y)) as F1.
    rewrite (Rabs_right (r1 * Y)) in F1 by lra. specialize (F1 ltac:(lra)).
    set (a := fl (r1 * Y)) in *.
    pose proof (fl_error fl Hfl (a + 1)) as F2.
    assert (Rabs (a + 1) <= 2 ^ 9) as A2 by (apply Rabs_bounds; lra).
    pose proof (Rabs_pos (a + 1)) as P2. specialize (F2 ltac:(lra)).
    lra.
  - assert (0 <= r1 * Y <= Y) as G1 by nra.
    pose proof (fl_error fl Hfl (r1 * Y)) as F1.
    rewrite (Rabs_right (r1 * Y)) in F1 by lra. specialize (F1 ltac:(lra)).
    set (a := fl (r1 * Y)) in *.
    pose proof (fl_error fl Hfl (a + 1)) as F2.
    assert (Rabs (a + 1) <= 2 ^ 9) as A2 by (apply Rabs_bounds; lra).
    pose proof (Rabs_pos (a + 1)) as P2. specialize (F2 ltac:(lra)).
    lra.
  - assert (- Z <= - r2 * Z <= 0) as G1 by nra.
    pose proof (fl_error fl Hfl (- r2 * Z)) as F1.
    rewrite (Rabs_left1 (- r2 * Z)) in F1 by lra.
    specialize (F1 ltac:(lra)).
    set (a := fl (- r2 * Z)) in *.
    pose proof (fl_error fl Hfl (a - 5)) as F2.
    assert (Rabs (a - 5) <= 2 ^ 9) as A2 by (apply Rabs_bounds; lra).
    pose proof (Rabs_pos (a - 5)) as P2. specialize (F2 ltac:(lra)).
    lra.
  - assert (- Z <= - r2 * Z <= 0) as G1 by nra.
    pose proof (fl_error fl Hfl (- r2 * Z)) as F1.
    rewrite (Rabs_left1 (- r2 * Z)) in F1 by lra.
    specialize (F1 ltac:(lra)).
    set (a := fl (- r2 * Z)) in *.
    pose proof (fl_error fl Hfl (a - 5)) as F2.
    assert (Rabs (a - 5) <= 2 ^ 9) as A2 by (apply Rabs_bounds; lra).
    pose proof (Rabs_pos (a - 5)) as P2. specialize (F2 ltac:(lra)).
    lra.
Qed.

(** A target near the spawn volume of a playable level, with the speed
    of the level, is in play, and at least 5 - 2^-30 from the player. *)
Lemma spawned_inPlay (lc : LevelConfig) (tg : Target.t) :
  playable lc -> nearSpawnVolume (/ 2 ^ 40) lc (positionOf tg) ->
  Target.speed tg = targetSpeed lc ->
  inPlay fl tg /\ 5 - / 2 ^ 30 <= roundedDistance fl tg Vector3.zero.
Proof.
  intros ((Hrx & Hry & Hrz) & Bx & By & Bz & Bs) (Nx & Ny & Nz) Es.
  set (p := positionOf tg) in *.
  assert (Rabs (Vector3.x p) <= 2 ^ 8 + 6) as Ax
      by (apply Rabs_bounds; lra).
  assert (Rabs (Vector3.y p) <= 2 ^ 8 + 6) as Ay
      by (apply Rabs_bounds; lra).
  assert (Rabs (Vector3.z p) <= 2 ^ 8 + 6) as Az
      by (apply Rabs_bounds; lra).
  pose proof (roundedDistance_error fl Hfl tg) as HE. cbv zeta in HE.
  fold p in HE. specialize (HE ltac:(lra) ltac:(lra) ltac:(lra)).
  set (n := norm3 (Vector3.x p) (Vector3.y p) (Vector3.z p)) in *.
  destruct (norm3_component (Vector3.x p) (Vector3.y p) (Vector3.z p))
    as (_ & _ & Cz).
  fold n in Cz.
  assert (5 - / 2 ^ 40 <= n) as Hn5.
  { rewrite (Rabs_left1 (Vector3.z p)) in Cz by lra. lra. }
  pose proof (norm3_small _ _ _ _ Ax Ay Az) as Hn10. fold n in Hn10.
  destruct HE as [HE _]. specialize (HE ltac:(lra)).
  apply Rabs_bounds in HE.
  split; [| lra].
  unfold inPlay. fold p. rewrite Es.
  repeat split; lra.
Qed.

(** One call of [update] for a target in play. *)
Lemma update_inPlay (rnd : Rand) (k : nat) (lc : LevelConfig)
      (tg : Target.t) :
  unit_interval rnd -> playable lc -> inPlay fl tg ->
  let c := Vector3.zero in
  let tg1 := fst (Rounded.update fl rnd k c lc tg) in
  inPlay fl tg1 /\
  (Rounded.mustRespawn fl c (Rounded.advance fl c tg) = true ->
   snd (Rounded.update fl rnd k c lc tg) = (k + 3)%nat /\
   Target.speed tg1 = targetSpeed lc /\
   Target.levelConfig tg1 = Target.levelConfig tg /\
   nearSpawnVolume (/ 2 ^ 40) lc (positionOf tg1) /\
   5 - / 2 ^ 30 <= roundedDistance fl tg1 c) /\
  (Rounded.mustRespawn fl c (Rounded.advance fl c tg) = false ->
   snd (Rounded.update fl rnd k c lc tg) = k /\
   Target.speed tg1 = Target.speed tg /\
   Target.levelConfig tg1 = Target.levelConfig tg /\
   roundedDistance fl tg1 c < roundedDistance fl tg c /\
   Rabs (roundedDistance fl tg1 c -
         (roundedDistance fl tg c - Target.speed tg)) <= / 2 ^ 33).
Proof.
  intros Hr Hlc (Ix & Iy & Iz & ID & Is) c tg1.
  subst c. unfold tg1, Rounded.update.
  destruct (Rounded.mustRespawn fl Vector3.zero
              (Rounded.advance fl Vector3.zero tg)) eqn:Hm.
  - pose proof (respawn_near rnd k lc
                             (Rounded.advance fl Vector3.zero tg) Hr Hlc)
      as Hnear.
    destruct (spawned_inPlay lc _ Hlc Hnear eq_refl) as [Hin H5].
    split; [exact Hin |]. split; [| discriminate].
    intros _. split; [reflexivity |]. split; [reflexivity |].
    split; [reflexivity |]. split; assumption.
  - cbn [fst snd].
    unfold Rounded.mustRespawn in Hm. apply orb_false_iff in Hm as [Hm _].
    apply ltb_false in Hm.
    pose proof (step_closes_in fl Hfl tg) as Hstep. cbv zeta in Hstep.
    assert (1 <= roundedDistance fl (Rounded.advance fl Vector3.zero tg)
                                 Vector3.zero) as Hm'
        by (unfold roundedDistance, positionOf; lra).
    assert (0 <= Target.speed tg <= 1) as Hs01 by lra.
    destruct (Hstep Ix Iy Iz ID Hs01 Hm') as (Hd & Px & Py & Pz).
    assert (Target.speed (Rounded.advance fl Vector3.zero tg)
            = Target.speed tg) as Es by reflexivity.
    apply Rabs_bounds in Hd.
    assert (roundedDistance fl (Rounded.advance fl Vector3.zero tg)
                            Vector3.zero
            < roundedDistance fl tg Vector3.zero) as Hlt by lra.
    split; [| split; [discriminate |]].
    + unfold inPlay. rewrite Es.
      repeat split; try assumption; try lra.
    + intros _. repeat split; try assumption; lra.
Qed.


Lemma roundedUpdates_inPlay (rnd : Rand) (k : nat) (lc : LevelConfig)
      (tg : Target.t) (n : nat) :
  unit_interval rnd -> playable lc -> inPlay fl tg ->
  inPlay fl (fst (roundedUpdates fl rnd n k Vector3.zero lc tg)).
Proof.
  intros Hr Hlc Hin. induction n as [| n IH]; [exact Hin |].
  cbn [roundedUpdates].
  destruct (roundedUpdates fl rnd n k Vector3.zero lc tg) as [tn kn].
  cbn [fst] in IH.
  apply (update_inPlay rnd kn lc tn Hr Hlc IH).
Qed.

Lemma roundedUpdates_draws (rnd : Rand) (k : nat) (lc : LevelConfig)
      (tg : Target.t) (n : nat) :
  (k <= snd (roundedUpdates fl rnd n k Vector3.zero lc tg))%nat.
Proof.
  induction n as [| n IH]; [apply Nat.le_refl |].
  cbn [roundedUpdates].
  destruct (roundedUpdates fl rnd n k Vector3.zero lc tg) as [tn kn].
  cbn [snd] in IH. unfold Rounded.update.
  destruct (Rounded.mustRespawn fl Vector3.zero
              (Rounded.advance fl Vector3.zero tn));
    unfold Rounded.respawn; cbn [snd]; lia.
Qed.

End PursuitRuns.

Section ExactRespawn.
Import Levels.
Local Open Scope R_scope.

Variable fl : R -> R.
Hypothesis Hmono : monotone fl.

Lemma fl_between (lo hi x : R) :
  representable fl lo -> representable fl hi ->
  lo <= x <= hi -> lo <= fl x <= hi.
Proof.
  unfold representable. intros Hlo Hhi [H1 H2].
  pose proof (Hmono lo x H1) as L. pose proof (Hmono x hi H2) as U.
  rewrite Hlo in L. rewrite Hhi in U. split; assumption.
Qed.

(** When the bounds of the spawn volume are numbers of the format,
    [respawn] in rounded arithmetic stays inside the volume. *)
Lemma respawn_exact (rnd : Rand) (k : nat) (lc : LevelConfig)
      (tg : Target.t) :
  exactSpawnBounds fl lc -> unit_interval rnd -> positiveRange lc ->
  Target.inSpawnVolume lc
    (positionOf (fst (Rounded.respawn fl rnd k lc tg))).
Proof.
  intros Hex Hr (Hrx & Hry & Hrz).
  unfold exactSpawnBounds in Hex. cbv zeta in Hex.
  unfold Target.inSpawnVolume, Rounded.respawn, positionOf.
  cbn [fst Target.position Target.mesh Target.setPosition Vector3.x
       Vector3.y Vector3.z].
  set (X := rx (spawnRange lc)) in *. set (Y := ry (spawnRange lc)) in *.
  set (Z := rz (spawnRange lc)) in *.
  pose proof (Hr k) as H0. pose proof (Hr (k + 1)%nat) as H1.
  pose proof (Hr (k + 2)%nat) as H2.
  set (r0 := rnd k) in *. set (r1 := rnd (k + 1)%nat) in *.
  set (r2 := rnd (k + 2)%nat) in *.
  pose proof (proj1 (Forall_forall _ _) Hex) as Hrep.
  assert (forall lo hi x,
             In lo [0; 0.5; - 0.5; 1; - 5; 0.5 * X; - (0.5 * X); X; - X;
                    Y; Y + 1; - Z; - Z - 5] ->
             In hi [0; 0.5; - 0.5; 1; - 5; 0.5 * X; - (0.5 * X); X; - X;
                    Y; Y + 1; - Z; - Z - 5] ->
             lo <= x <= hi -> lo <= fl x <= hi) as Hb
      by (intros lo hi x Hlo Hhi; apply fl_between; apply Hrep; assumption).
  split; [| split].
  - assert (- 0.5 <= fl (r0 - 0.5) <= 0.5) as A
        by (apply Hb; [cbn; auto 20 | cbn; auto 20 | lra]).
    assert (- (0.5 * X) <= fl (fl (r0 - 0.5) * X) <= 0.5 * X) as B
        by (apply Hb; [cbn; auto 20 | cbn; auto 20 | nra]).
    apply Hb; [cbn; auto 20 | cbn; auto 20 | lra].
  - assert (0 <= fl (r1 * Y) <= Y) as A
        by (apply Hb; [cbn; auto 20 | cbn; auto 20 | nra]).
    apply Hb; [cbn; auto 20 | cbn; auto 20 | lra].
  - assert (- Z <= fl (- r2 * Z) <= 0) as A
        by (apply Hb; [cbn; auto 20 | cbn; auto 20 | nra]).
    apply Hb; [cbn; auto 20 | cbn; auto 20 | lra].
Qed.

End ExactRespawn.

Section RoundedPursuit.
Import Levels.
Local Open Scope R_scope.

Lemma unrounded_binary64 : binary64 unrounded.
Proof.
  intros x _. unfold unrounded.
  replace (x - x) with 0 by ring. rewrite Rabs_R0.
  pose proof (Rabs_pos x).
  assert (0 < / 2 ^ 53) by (apply Rinv_0_lt_compat, pow_lt; lra).
  assert (0 < / 2 ^ 1075) by (apply Rinv_0_lt_compat, pow_lt; lra).
  unfold Rdiv. nra.
Qed.

(** Without rounding, the rounded model is the model over the reals. *)
Lemma unrounded_normalize (p : Vector3.t) :
  Rounded.normalize unrounded p = Vector3.normalize p.
Proof. reflexivity. Qed.

Lemma unrounded_advance (c : Vector3.t) (tg : Target.t) :
  Rounded.advance unrounded c tg = Target.advance c tg.
Proof.
  unfold Rounded.advance, Target.advance. rewrite unrounded_normalize.
  reflexivity.
Qed.

Lemma unrounded_respawn (rnd : Rand) (k : nat) (lc : LevelConfig)
      (tg : Target.t) :
  Rounded.respawn unrounded rnd k lc tg = Target.respawn rnd k lc tg.
Proof. reflexivity. Qed.

Lemma unrounded_mustRespawn (c : Vector3.t) (tg : Target.t) :
  Rounded.mustRespawn unrounded c tg = Target.mustRespawn c tg.
Proof. reflexivity. Qed.

Lemma unrounded_update (rnd : Rand) (k : nat) (c : Vector3.t)
      (lc : LevelConfig) (tg : Target.t) :
  Rounded.update unrounded rnd k c lc tg = Target.update rnd k c lc tg.
Proof.
  unfold Rounded.update, Target.update.
  rewrite unrounded_advance, unrounded_mustRespawn, unrounded_respawn.
  reflexivity.
Qed.

Lemma unrounded_updates (rnd : Rand) (n k : nat) (c : Vector3.t)
      (lc : LevelConfig) (tg : Target.t) :
  roundedUpdates unrounded rnd n k c lc tg = updates rnd n k c lc tg.
Proof.
  induction n as [| n IH]; [reflexivity |].
  cbn [roundedUpdates updates]. rewrite IH.
  destruct (updates rnd n k c lc tg) as [tn kn]. apply unrounded_update.
Qed.

Lemma unrounded_distance (tg : Target.t) (c : Vector3.t) :
  roundedDistance unrounded tg c = distanceOf tg c.
Proof. reflexivity. Qed.

Lemma beginner_playable : playable beginner.
Proof.
  split; [exact beginner_positive |]. cbn.
  assert (0 < / 2 ^ 32) by (apply Rinv_0_lt_compat, pow_lt; lra).
  assert (/ 2 ^ 32 <= / 2 ^ 4)
    by (apply Rinv_le_contravar; [apply pow_lt; lra |];
        apply Rle_pow; [lra | lia]).
  lra.
Qed.

(** C2.  Pursuit in the arithmetic of the code, for a player at the
    origin.  Whatever the rounding of binary64 does within its error
    bound, a target of a playable level that is in play stays in play
    over repeated calls of [update], and each call either fires the
    respawn condition, which puts the target back within 2^-40 of the
    spawn volume, and inside it if the rounding keeps the order and the
    bounds of the volume are numbers of the format, or brings the
    computed distance strictly down, to within 2^-33 of the distance
    before minus the speed. *)
Theorem pursuit_closes_in
        (fl : R -> R) (rnd : Rand) (k n : nat) (lc : LevelConfig)
        (tg : Target.t) :
  binary64 fl -> unit_interval rnd -> playable lc -> inPlay fl tg ->
  let c := Vector3.zero in
  let tn := fst (roundedUpdates fl rnd n k c lc tg) in
  let tn1 := fst (roundedUpdates fl rnd (S n) k c lc tg) in
  inPlay fl tn /\ inPlay fl tn1 /\
  (Rounded.mustRespawn fl c (Rounded.advance fl c tn) = true ->
   nearSpawnVolume (/ 2 ^ 40) lc (positionOf tn1) /\
   (monotone fl -> exactSpawnBounds fl lc ->
    Target.inSpawnVolume lc (positionOf tn1))) /\
  (Rounded.mustRespawn fl c (Rounded.advance fl c tn) = false ->
   roundedDistance fl tn1 c < roundedDistance fl tn c /\
   Rabs (roundedDistance fl tn1 c -
         (roundedDistance fl tn c - Target.speed tn)) <= / 2 ^ 33).
Proof.
  intros Hfl Hr Hlc Hin c tn tn1.
  pose proof (roundedUpdates_inPlay fl Hfl rnd k lc tg n Hr Hlc Hin) as Hn.
  fold c tn in Hn. split; [exact Hn |].
  unfold tn1. cbn [roundedUpdates]. fold c. unfold tn in *.
  destruct (roundedUpdates fl rnd n k c lc tg) as [t kn]. cbn [fst] in *.
  destruct (update_inPlay fl Hfl rnd kn lc t Hr Hlc Hn) as (H1 & H2 & H3).
  fold c in H1, H2, H3.
  split; [exact H1 |]. split.
  - intros Hm. split; [apply (H2 Hm) |].
    intros Hmono Hex. unfold Rounded.update. rewrite Hm.
    apply (respawn_exact fl Hmono rnd kn lc _ Hex Hr (proj1 Hlc)).
  - intros Hm. destruct (H3 Hm) as (_ & _ & _ & Hlt & Hd).
    split; assumption.
Qed.

Lemma pursuit_closes_in_witness :
  let c := Vector3.zero in
  let tg := targetAt 0 beginner (Vector3.mk 0 0 (-10)) 0.05 in
  let tg1 := fst (roundedUpdates unrounded rnd0 1 0 c beginner tg) in
  inPlay unrounded tg /\
  roundedDistance unrounded tg1 c < roundedDistance unrounded tg c /\
  Rabs (roundedDistance unrounded tg1 c -
        (roundedDistance unrounded tg c - 0.05)) <= / 2 ^ 33.
Proof.
  intros c tg tg1.
  assert (roundedDistance unrounded tg c = 10) as Hd.
  { rewrite unrounded_distance. unfold c, Vector3.zero.
    rewrite (distanceOf_on_axis 0 (-10) tg eq_refl).
    rewrite Rabs_left; lra. }
  assert (inPlay unrounded tg) as Hin.
  { unfold inPlay. fold c. rewrite Hd. cbn.
    rewrite Rabs_R0, Rabs_left by lra.
    assert (0 < / 2 ^ 32) by (apply Rinv_0_lt_compat, pow_lt; lra).
    assert (/ 2 ^ 32 <= / 2 ^ 4)
      by (apply Rinv_le_contravar; [apply pow_lt; lra |];
          apply Rle_pow; [lra | lia]).
    lra. }
  assert (Rounded.mustRespawn unrounded c (Rounded.advance unrounded c tg)
          = false) as Hm.
  { rewrite unrounded_mustRespawn, unrounded_advance.
    unfold c, Vector3.zero.
    rewrite (mustRespawn_on_axis 0 (-10) tg eq_refl) by lra.
    apply orb_false_iff. unfold gtb. rewrite !ltb_false. simpl.
    rewrite Rabs_left by lra. lra. }
  split; [exact Hin |].
  exact (proj2 (proj2 (proj2 (pursuit_closes_in
                                unrounded rnd0 0 0 beginner tg
                                unrounded_binary64 rnd0_unit
                                beginner_playable Hin))) Hm).
Defined.

End RoundedPursuit.

Section PursuitInBinary64.
Import PrimFloat.
Local Open Scope float_scope.
#[local] Set Warnings "-inexact-float".

(** C2 as stated fails in the arithmetic of the code, with the player
    at the origin.  A target of positive speed 1e-17 at (0, 1, -5), and a
    target of the Beginner speed 0.05 at (0, 0, -1e17): the step is below
    half the spacing of the numbers at the target's coordinates, so the
    sum rounds back to the position; no respawn fires, the target has
    not moved and its distance to the player has not decreased.  And a
    target at (0, 0, -1.02) that steps within 1.0 of the player and is
    respawned, for a spawn range of (15, 0.1, 40) and random values
    0.9999999999999998: its new y is 1.1, above the top 1 + 0.1 of the
    spawn volume (y - 1, which is computed exactly, is above 0.1). *)
Lemma pursuit_fails_in_binary64 :
  let c := Binary64.mkVector3 0 0 0 in
  let slow := Binary64.mkVector3 0 1 (-5) in
  let far := Binary64.mkVector3 0 0 (-1e17) in
  let near := Binary64.mkVector3 0 0 (-1.02) in
  let range := Binary64.mkVector3 15 0.1 40 in
  let random := fun _ : nat => 0.9999999999999998 in
  ((0 <? 1e-17) = true /\
   Binary64.mustRespawn c (Binary64.advance c slow 1e-17) = false /\
   Binary64.update random 0 c range slow 1e-17 = slow /\
   (Binary64.distanceTo (Binary64.update random 0 c range slow 1e-17) c
    <? Binary64.distanceTo slow c) = false) /\
  (Binary64.mustRespawn c (Binary64.advance c far 0.05) = false /\
   Binary64.update random 0 c range far 0.05 = far /\
   (Binary64.distanceTo (Binary64.update random 0 c range far 0.05) c
    <? Binary64.distanceTo far c) = false) /\
  (Binary64.mustRespawn c (Binary64.advance c near 0.05) = true /\
   (random 0%nat <? 1) = true /\
   Binary64.y (Binary64.update random 0 c range near 0.05) = 1.1 /\
   (Binary64.y range
    <? Binary64.y (Binary64.update random 0 c range near 0.05) - 1) = true).
Proof. vm_compute. repeat split. Qed.

End PursuitInBinary64.

(** ** One frame of the game loop *)

Section Frame.
Import Levels Main.
Local Open Scope string_scope.

Lemma handleCollision_state (tg : Target.t) (s : State) :
  handleCollision tg s =
  (Target.withMesh tg (Target.setColor (Target.mesh tg) 0xff0000),
   collisionEnds s).
Proof. reflexivity. Qed.

Lemma collisionEnds_randomCalls (k : nat) (s : State) :
  collisionEnds (setRandomCalls k s) = setRandomCalls k (collisionEnds s).
Proof. reflexivity. Qed.

Lemma setRandomCalls_twice (k k' : nat) (s : State) :
  setRandomCalls k' (setRandomCalls k s) = setRandomCalls k' s.
Proof. reflexivity. Qed.

Lemma iter_collisionEnds_randomCalls (n k : nat) (s : State) :
  Nat.iter n collisionEnds (setRandomCalls k s) =
  setRandomCalls k (Nat.iter n collisionEnds s).
Proof.
  induction n as [| n IH]; [reflexivity |].
  rewrite !Nat.iter_succ, IH. apply collisionEnds_randomCalls.
Qed.

Lemma iter_collisionEnds_frame (n : nat) (s : State) :
  cameraPosition (Nat.iter n collisionEnds s) = cameraPosition s /\
  currentLevel (gameState (Nat.iter n collisionEnds s)) =
  currentLevel (gameState s) /\
  score (gameState (Nat.iter n collisionEnds s)) = score (gameState s) /\
  timeLeft (gameState (Nat.iter n collisionEnds s)) =
  timeLeft (gameState s) /\
  countdown (gameState (Nat.iter n collisionEnds s)) =
  countdown (gameState s) /\
  isCountdown (gameState (Nat.iter n collisionEnds s)) =
  isCountdown (gameState s) /\
  intervals (Nat.iter n collisionEnds s) = intervals s /\
  isLocked (Nat.iter n collisionEnds s) = isLocked s /\
  targets (Nat.iter n collisionEnds s) = targets s /\
  randomCalls (Nat.iter n collisionEnds s) = randomCalls s /\
  nextHandle (Nat.iter n collisionEnds s) = (nextHandle s + n)%nat /\
  isPlaying (gameState (Nat.iter n collisionEnds s)) =
  isPlaying (gameState s) && Nat.eqb n 0.
Proof.
  induction n as [| n IH]; simpl.
  - rewrite Nat.add_0_r, andb_true_r. repeat split.
  - destruct IH as (H1 & H2 & H3 & H4 & H5 & H6 & H7 & H8 & H9 & H10
                    & H11 & H12).
    rewrite andb_false_r, Nat.add_succ_r, <- H11. repeat split; assumption.
Qed.

(** The frame in closed form: every target is updated (and painted if
    it collides), and [handleCollision] runs once per colliding target. *)
Lemma forEachTarget_closed (rnd : Rand) (ts : list Target.t) :
  forall s : State,
    forEachTarget rnd ts s =
    (map (markHit (cameraPosition s))
         (fst (updateAll rnd (randomCalls s) (cameraPosition s)
                         (currentLevel (gameState s)) ts)),
     setRandomCalls
       (snd (updateAll rnd (randomCalls s) (cameraPosition s)
                       (currentLevel (gameState s)) ts))
       (Nat.iter (collisionsIn rnd s ts) collisionEnds s)).
Proof.
  induction ts as [| tg rest IH]; intros s.
  - simpl. unfold collisionsIn. simpl. destruct s; reflexivity.
  - unfold collisionsIn. cbn [forEachTarget updateAll]. unfold frameTarget.
    destruct (Target.update rnd (randomCalls s) (cameraPosition s)
                            (currentLevel (gameState s)) tg) as [t1 k1].
    change (cameraPosition (setRandomCalls k1 s)) with (cameraPosition s).
    assert (forall s1 : State,
               cameraPosition s1 = cameraPosition s ->
               currentLevel (gameState s1) = currentLevel (gameState s) ->
               randomCalls s1 = k1 ->
               forEachTarget rnd rest s1 =
               (map (markHit (cameraPosition s))
                    (fst (updateAll rnd k1 (cameraPosition s)
                                    (currentLevel (gameState s)) rest)),
                setRandomCalls
                  (snd (updateAll rnd k1 (cameraPosition s)
                                  (currentLevel (gameState s)) rest))
                  (Nat.iter
                     (List.length
                        (filter (collides (cameraPosition s))
                                (fst (updateAll rnd k1 (cameraPosition s)
                                        (currentLevel (gameState s))
                                        rest))))
                     collisionEnds s1))) as IH'.
    { intros s1 E1 E2 E3. rewrite (IH s1). unfold collisionsIn.
      rewrite E1, E2, E3. reflexivity. }
    destruct (updateAll rnd k1 (cameraPosition s)
                        (currentLevel (gameState s)) rest) as [r1 k2].
    cbn [fst snd map filter] in *. unfold markHit at 1.
    change (collides (cameraPosition s) t1)
      with (Target.checkCollision t1 (cameraPosition s)).
    destruct (Target.checkCollision t1 (cameraPosition s)) eqn:Hc.
    + rewrite handleCollision_state.
      rewrite (IH' (collisionEnds (setRandomCalls k1 s)))
        by reflexivity.
      f_equal. cbn [List.length].
      rewrite collisionEnds_randomCalls, iter_collisionEnds_randomCalls,
        setRandomCalls_twice, Nat.iter_swap, Nat.iter_succ.
      reflexivity.
    + rewrite (IH' (setRandomCalls k1 s)) by reflexivity. f_equal.
      rewrite iter_collisionEnds_randomCalls, setRandomCalls_twice.
      reflexivity.
Qed.

End Frame.

(** ** The match lifecycle *)

Section Lifecycle.
Import Levels Main.
Local Open Scope Z_scope.

Lemma quietStep_refl (s : State) : quietStep s s.
Proof. unfold quietStep. repeat split; auto; lia. Qed.

Lemma playShootSound_frame (s : State) :
  gameState (playShootSound s) = gameState s /\
  isLocked (playShootSound s) = isLocked s /\
  targets (playShootSound s) = targets s /\
  nextHandle (playShootSound s) = nextHandle s /\
  intervals (playShootSound s) = intervals s /\
  timeouts (playShootSound s) = timeouts s /\
  ui (playShootSound s) = ui s /\
  randomCalls (playShootSound s) = randomCalls s.
Proof.
  unfold playShootSound.
  destruct (shootSounds s) as [[| len] |]; repeat split.
Qed.

Lemma onClick_quiet (intersects : list Intersection) (s : State) :
  quietStep s (onClick intersects s).
Proof.
  unfold onClick.
  destruct (isPlaying (gameState s)) eqn:Hp; cbn [negb orb];
    [| apply quietStep_refl].
  destruct (isLocked s); cbn [negb]; [| apply quietStep_refl].
  destruct (playShootSound_frame s) as (Hg & _ & _ & _ & Hi & _).
  destruct intersects as [| hit rest].
  - unfold quietStep. rewrite Hg, Hi. repeat split; auto; lia.
  - unfold quietStep. cbn. rewrite Hg, Hi, Hp.
    repeat split; auto; try discriminate; lia.
Qed.

Lemma animate_closed (rnd : Rand) (s : State) :
  isPlaying (gameState s) = true ->
  animate rnd s =
  setTargets
    (map (markHit (cameraPosition s))
         (fst (updateAll rnd (randomCalls s) (cameraPosition s)
                         (currentLevel (gameState s)) (targets s))))
    (setRandomCalls
       (snd (updateAll rnd (randomCalls s) (cameraPosition s)
                       (currentLevel (gameState s)) (targets s)))
       (Nat.iter (collisionsIn rnd s (targets s)) collisionEnds s)).
Proof.
  intros Hp. unfold animate. rewrite Hp, forEachTarget_closed.
  reflexivity.
Qed.

Lemma animate_quiet (rnd : Rand) (s : State) :
  quietStep s (animate rnd s).
Proof.
  destruct (isPlaying (gameState s)) eqn:Hp.
  - rewrite (animate_closed rnd s Hp).
    destruct (iter_collisionEnds_frame (collisionsIn rnd s (targets s)) s)
      as (_ & H2 & H3 & H4 & H5 & H6 & H7 & _ & _ & _ & _ & H12).
    unfold quietStep. cbn. rewrite H2, H3, H4, H5, H6, H7, Hp.
    repeat split; auto; try discriminate; lia.
  - unfold animate. rewrite Hp. apply quietStep_refl.
Qed.

Lemma respawnHit_frame (rnd : Rand) (m : nat) (s : State) :
  gameState (respawnHit rnd m s) = gameState s /\
  intervals (respawnHit rnd m s) = intervals s /\
  timeouts (respawnHit rnd m s) = timeouts s /\
  nextHandle (respawnHit rnd m s) = nextHandle s /\
  effects (respawnHit rnd m s) = effects s.
Proof.
  unfold respawnHit.
  destruct (respawnMesh rnd (randomCalls s) (currentLevel (gameState s)) m
              (colorMesh m (color (currentLevel (gameState s)))
                         (targets s))) as [ts2 k].
  repeat split.
Qed.

Lemma unlock_quiet (s : State) :
  quietStep s (onUnlock2 (onUnlock1 (setIsLocked false s))).
Proof.
  unfold onUnlock2, onUnlock1, quietStep. cbn.
  destruct (isPlaying (gameState s)) eqn:Hp; cbn; rewrite ?Hp; cbn;
    repeat split; intros; cbn in *; auto; try congruence; lia.
Qed.

Lemma quiet_event (rnd : Rand) (e : Event) (s : State) :
  isQuiet e = true -> quietStep s (dispatch rnd e s).
Proof.
  destruct e as [level | h | h | intersects | | [|] | |]; cbn [isQuiet];
    try discriminate; intros _; cbn [dispatch].
  - destruct (findTimer h (timeouts s)) as [t |];
      [| apply quietStep_refl].
    destruct (callback t) as [| | m].
    + unfold quietStep. cbn. repeat split; auto; lia.
    + unfold quietStep. cbn. repeat split; auto; lia.
    + destruct (respawnHit_frame rnd m (dropTimeout h s))
        as (Hg & Hi & _).
      unfold quietStep. rewrite Hg, Hi. cbn. repeat split; auto; lia.
  - apply onClick_quiet.
  - apply animate_quiet.
  - unfold quietStep. cbn. repeat split; auto; lia.
  - apply unlock_quiet.
  - destruct (shootSounds s); unfold quietStep; cbn;
      repeat split; auto; lia.
  - unfold quietStep. cbn. repeat split; auto; lia.
Qed.

(** *** The two interval callbacks and the start of a match *)

Lemma updateTimer_idle (s : State) :
  isPlaying (gameState s) = false -> updateTimer s = s.
Proof. intros Hp. unfold updateTimer. rewrite Hp. reflexivity. Qed.

Lemma updateTimer_playing (s : State) :
  isPlaying (gameState s) = true ->
  let left := timeLeft (gameState s) - 1 in
  gameState (updateTimer s) =
  mkGameState (currentLevel (gameState s)) (score (gameState s)) left
              (negb (left <=? 0)) (isCountdown (gameState s))
              (countdown (gameState s)) /\
  intervals (updateTimer s) = intervals s /\
  timeouts (updateTimer s) =
  (if left <=? 0
   then timeouts s ++ [mkTimer (nextHandle s) 500 TimeUpAlert]
   else timeouts s).
Proof.
  intros Hp left. unfold updateTimer. rewrite Hp. cbn. fold left.
  destruct (left <=? 0) eqn:Hl; cbn; repeat split.
  unfold setTimeLeft. rewrite Hp. reflexivity.
Qed.

Lemma countdownStep_spec (h : nat) (s : State) :
  let c := countdown (gameState s) - 1 in
  gameState (countdownStep h s) =
  mkGameState (currentLevel (gameState s)) (score (gameState s))
              (timeLeft (gameState s))
              (if c <=? 0 then true else isPlaying (gameState s))
              (isCountdown (gameState s)) c /\
  intervals (countdownStep h s) =
  (if c <=? 0
   then filter (fun t => negb (Nat.eqb (handle t) h)) (intervals s)
   else intervals s) /\
  UIManager.countdownText (ui (countdownStep h s)) = showZ c.
Proof.
  intros c. unfold countdownStep. cbn. fold c.
  destruct (c <=? 0); cbn; repeat split.
Qed.

Lemma startCountdown_spec (rnd : Rand) (level : LevelConfig) (s : State) :
  gameState (startCountdown rnd level s) =
  mkGameState level 0 (gameTime level) (isPlaying (gameState s)) true 5 /\
  intervals (startCountdown rnd level s) =
  intervals s ++ [mkTimer (nextHandle s) 1000 CountdownStep] /\
  nextHandle (startCountdown rnd level s) = S (nextHandle s) /\
  timeouts (startCountdown rnd level s) = timeouts s /\
  isLocked (startCountdown rnd level s) = isLocked s /\
  effects (startCountdown rnd level s) = effects s /\
  UIManager.countdownText (ui (startCountdown rnd level s)) = showZ 5 /\
  UIManager.levelSelectorDisplay (ui (startCountdown rnd level s)) = false.
Proof.
  unfold startCountdown, createTargets. cbn.
  destruct (newTargets rnd level (Z.to_nat (targetCount level))
                       (randomCalls s) (nextUuid s)) as [ts k].
  cbn. repeat split.
Qed.

Lemma onLevelClick_spec (rnd : Rand) (level : LevelConfig) (s : State) :
  gameState (onLevelClick rnd level s) =
  mkGameState level 0 (gameTime level) (isPlaying (gameState s)) true 5 /\
  intervals (onLevelClick rnd level s) =
  intervals s ++ [mkTimer (nextHandle s) 1000 CountdownStep] /\
  nextHandle (onLevelClick rnd level s) = S (nextHandle s) /\
  timeouts (onLevelClick rnd level s) = timeouts s /\
  UIManager.countdownText (ui (onLevelClick rnd level s)) = showZ 5.
Proof.
  destruct (startCountdown_spec rnd level s)
    as (Hg & Hi & Hn & Ht & _ & _ & Hc & _).
  unfold onLevelClick.
  destruct (negb (isLocked (startCountdown rnd level s))); cbn;
    repeat split; assumption.
Qed.

Lemma findTimer_some {C : Type} (h : nat) (l : list (Timer C))
      (t : Timer C) :
  findTimer h l = Some t -> In t l /\ handle t = h.
Proof.
  unfold findTimer. intros H. apply find_some in H as [Hin He].
  split; [assumption | apply Nat.eqb_eq; assumption].
Qed.

Lemma countingDown_false (s : State) (t : Timer IntervalCallback) :
  countingDown s = false -> In t (intervals s) ->
  callback t = UpdateTimer.
Proof.
  unfold countingDown. intros H Hin.
  rewrite <- not_true_iff_false, existsb_exists in H.
  destruct (callback t) eqn:E; [reflexivity | exfalso].
  apply H. exists t. unfold isCountdownTimer. rewrite E. auto.
Qed.

End Lifecycle.

(** ** One match, from the choice of a level on *)

Section MatchRun.
Import Levels Main.
Local Open Scope Z_scope.

Lemma MatchInv_start (rnd : Rand) (level : LevelConfig) (s0 : State) :
  betweenMatches s0 ->
  MatchInv level (nextHandle s0) 0 (onLevelClick rnd level s0).
Proof.
  intros (Hp & Hc & Hf & _).
  destruct (onLevelClick_spec rnd level s0) as (Hg & Hi & _).
  unfold MatchInv. rewrite Hg, Hi. cbn.
  repeat split; try lia. left. repeat split; try lia; try assumption.
  - unfold findTimer. clear Hi Hc.
    induction (intervals s0) as [| t l IH]; cbn.
    + rewrite Nat.eqb_refl. reflexivity.
    + inversion Hf as [| ? ? Ht Hl]; subst.
      destruct (Nat.eqb_spec (handle t) (nextHandle s0)); [lia |].
      apply IH. assumption.
  - intros t Hin Hct. apply in_app_or in Hin as [Hin | [<- | []]].
    + pose proof (countingDown_false s0 t Hc Hin) as E.
      unfold isCountdownTimer in Hct. rewrite E in Hct. discriminate.
    + reflexivity.
Qed.

Lemma MatchInv_quiet (level : LevelConfig) (h n : nat) (s s' : State) :
  quietStep s s' -> MatchInv level h n s -> MatchInv level h n s'.
Proof.
  intros (Hi & Hl & Ht & Hc & Hic & Hp & Hs & _) (I1 & I2 & I3 & I4).
  unfold MatchInv, countingDown. rewrite Hi, Hl, Ht, Hc, Hic.
  repeat split; try assumption.
  destruct I4 as [(A1 & A2 & A3 & A4 & A5 & A6 & A7)
                 | (B1 & B2 & B3 & B4)].
  - left. repeat split; try assumption.
    + destruct (isPlaying (gameState s')); [| reflexivity].
      rewrite Hp in A3 by reflexivity. discriminate.
    + rewrite Hs; assumption.
  - right. split; [assumption | split; [assumption | split]];
      [assumption |].
    intros Hg. destruct (B4 Hg) as [B5 B6]. split; [assumption |].
    intros Hp'. apply B6, Hp, Hp'.
Qed.

Lemma MatchInv_step (rnd : Rand) (level : LevelConfig) (h n : nat)
      (e : Event) (s : State) :
  inMatch e = true -> MatchInv level h n s ->
  MatchInv level h (n + (if isTick h e then 1 else 0)) (dispatch rnd e s)
  /\ ((5 <= n)%nat -> isPlaying (gameState (dispatch rnd e s)) = true ->
      isPlaying (gameState s) = true)
  /\ ((n < 5)%nat -> isPlaying (gameState s) = false).
Proof.
  intros He Inv.
  assert ((n < 5)%nat -> isPlaying (gameState s) = false) as HA.
  { destruct Inv as (_ & _ & _ & [(_ & _ & A & _) | (B & _)]);
      [auto | lia]. }
  destruct (isQuiet e) eqn:Hq.
  - pose proof (quiet_event rnd e s Hq) as Q.
    assert (isTick h e = false) as -> by (destruct e; easy).
    rewrite Nat.add_0_r. split; [| split; [| exact HA]].
    + apply (MatchInv_quiet level h n s); assumption.
    + intros _. apply Q.
  - destruct e as [lv | h' | | | | | |]; try discriminate. clear He Hq.
    cbn [dispatch isTick].
    destruct Inv as (I1 & I2 & I3 & I4).
    destruct I4 as [(A1 & A2 & A3 & A4 & A5 & A6 & A7)
                   | (B1 & B2 & B3 & B4)].
    + (* counting down *)
      split; [| split; [lia | exact HA]].
      destruct (Nat.eqb_spec h' h) as [-> | Hne].
      * rewrite A6. cbn [callback].
        destruct (countdownStep_spec h s) as (Hg & Hi & _).
        unfold MatchInv, countingDown. rewrite Hg, Hi.
        cbn [currentLevel score timeLeft isPlaying isCountdown countdown].
        repeat split; try assumption.
        destruct (countdown (gameState s) - 1 <=? 0) eqn:Hz;
          [apply Z.leb_le in Hz | apply Z.leb_gt in Hz].
        -- right. repeat split; try lia.
           apply not_true_iff_false. intros Hex.
           apply existsb_exists in Hex as (t & Hin & Hct).
           apply filter_In in Hin as [Hin Hh].
           rewrite (A7 t Hin Hct), Nat.eqb_refl in Hh. discriminate.
        -- left. repeat split; try lia; assumption.
      * rewrite Nat.add_0_r.
        destruct (findTimer h' (intervals s)) as [t |] eqn:Hf.
        -- apply findTimer_some in Hf as [Hin Hh].
           destruct (callback t) eqn:Hcb.
           ++ rewrite (updateTimer_idle s A3). unfold MatchInv.
              repeat split; try assumption. left.
              repeat split; assumption.
           ++ exfalso. apply Hne. rewrite <- Hh. apply A7; [assumption |].
              unfold isCountdownTimer. rewrite Hcb. reflexivity.
        -- unfold MatchInv. repeat split; try assumption. left.
           repeat split; assumption.
    + (* countdown over *)
      assert (dispatch rnd (IntervalFires h') s = s \/
              dispatch rnd (IntervalFires h') s = updateTimer s) as [E | E].
      { cbn [dispatch].
        destruct (findTimer h' (intervals s)) as [t |] eqn:Hf; [| auto].
        apply findTimer_some in Hf as [Hin _].
        rewrite (countingDown_false s t B3 Hin). auto. }
      * cbn [dispatch] in E. rewrite E.
        split; [| split; [auto | exact HA]].
        unfold MatchInv. repeat split; try assumption. right.
        repeat split; try lia; try assumption; apply B4; assumption.
      * cbn [dispatch] in E. rewrite E.
        destruct (isPlaying (gameState s)) eqn:Hp.
        -- destruct (updateTimer_playing s Hp) as (Hg & Hi & _).
           split; [| split; [auto | intros; lia]].
           unfold MatchInv, countingDown. rewrite Hg, Hi.
           cbn [currentLevel score timeLeft isPlaying isCountdown
                countdown].
           repeat split; try assumption; try lia. right.
           repeat split; try lia; try assumption.
        -- rewrite (updateTimer_idle s Hp).
           split; [| split; [rewrite Hp; auto | intros; lia]].
           unfold MatchInv. repeat split; try assumption. right.
           split; [lia | split; [assumption | split]]; [assumption |].
           intros Hg. destruct (B4 Hg) as [B5 B6]. split; [assumption |].
           rewrite Hp. discriminate.
Qed.

(** The fifth firing of the countdown interval starts the match. *)
Lemma countdown_end_starts (rnd : Rand) (level : LevelConfig) (h n : nat)
      (e : Event) (s : State) :
  MatchInv level h n s -> (n < 5)%nat ->
  (5 <= n + (if isTick h e then 1 else 0))%nat ->
  e = IntervalFires h /\ n = 4%nat /\
  dispatch rnd e s = countdownStep h s /\
  isPlaying (gameState (dispatch rnd e s)) = true /\
  countdown (gameState (dispatch rnd e s)) = 0.
Proof.
  intros (_ & _ & _ & [(A1 & A2 & A3 & A4 & A5 & A6 & A7) | (B1 & _)])
         Hn Hn'; [| lia].
  destruct (isTick h e) eqn:Ht; [| lia].
  destruct e as [| h' | | | | | |]; try discriminate.
  cbn in Ht. apply Nat.eqb_eq in Ht. subst h'.
  assert (n = 4%nat) as -> by lia.
  cbn [dispatch]. rewrite A6. cbn [callback].
  destruct (countdownStep_spec h s) as (Hg & _).
  rewrite Hg. cbn [isPlaying countdown]. rewrite A2.
  repeat split.
Qed.

Lemma MatchInv_run (rnd : Rand) (level : LevelConfig) (h : nat)
      (evs : list Event) :
  forall (n : nat) (s : State),
    allInMatch evs -> MatchInv level h n s ->
    MatchInv level h (n + ticks h evs) (run rnd evs s) /\
    (endedTransitions rnd evs s + (if ended n s then 1 else 0) =
     if ended (n + ticks h evs) (run rnd evs s) then 1 else 0)%nat.
Proof.
  induction evs as [| e rest IH]; intros n s Hall Inv.
  - unfold ticks. cbn. rewrite Nat.add_0_r. auto.
  - inversion Hall as [| ? ? He Hrest]; subst.
    destruct (MatchInv_step rnd level h n e s He Inv) as (Inv' & HB & HA).
    destruct (IH _ _ Hrest Inv') as (IH1 & IH2).
    assert ((n + ticks h (e :: rest))%nat =
            (n + (if isTick h e then 1 else 0) + ticks h rest)%nat) as En.
    { unfold ticks. cbn [filter]. destruct (isTick h e); cbn; lia. }
    cbn [run fold_left] in *. fold (run rnd rest (dispatch rnd e s)).
    rewrite En. split; [exact IH1 |].
    cbn [endedTransitions]. rewrite <- IH2. unfold ended.
    destruct (Nat.leb_spec 5 n) as [H5 | H5].
    + assert ((5 <=? n + (if isTick h e then 1 else 0))%nat = true) as ->
        by (apply Nat.leb_le; lia).
      specialize (HB H5).
      destruct (isPlaying (gameState s)),
               (isPlaying (gameState (dispatch rnd e s)));
        cbn; try lia; discriminate (HB eq_refl).
    + rewrite (HA H5). cbn [andb negb].
      destruct (Nat.leb_spec 5 (n + (if isTick h e then 1 else 0)))
        as [H5' | H5']; [| cbn; lia].
      destruct (countdown_end_starts rnd level h n e s Inv H5 H5')
        as (_ & _ & _ & Hp & _).
      rewrite Hp. cbn. lia.
Qed.

End MatchRun.

(** ** The clock and the countdown of a match *)

Section ClockClaims.
Import Levels Main.
Local Open Scope Z_scope.

Lemma phase_active (s : State) :
  phase s = Active <-> isPlaying (gameState s) = true.
Proof.
  unfold phase. destruct (isPlaying (gameState s)); [easy |].
  destruct (countingDown s); [easy |].
  destruct (isCountdown (gameState s)); easy.
Qed.

Lemma phase_countdown (s : State) (h : nat) :
  isPlaying (gameState s) = false ->
  findTimer h (intervals s) = Some (mkTimer h 1000 CountdownStep) ->
  phase s = Countdown.
Proof.
  intros Hp Hf. unfold phase. rewrite Hp.
  apply findTimer_some in Hf as [Hin _].
  assert (countingDown s = true) as ->; [| reflexivity].
  apply existsb_exists. eexists. split; [exact Hin | reflexivity].
Qed.

Lemma loaded_betweenMatches : betweenMatches loaded.
Proof.
  repeat split; cbn; repeat constructor.
Qed.

Lemma quietMatch_inMatch (k : nat) : allInMatch (quietMatch k).
Proof.
  unfold allInMatch, quietMatch. apply Forall_app.
  split; apply Forall_forall; intros e He; apply repeat_spec in He;
    subst; reflexivity.
Qed.

(** C1.  In every match (a level chosen between matches, with a
    positive game time, followed by any events other than the choice of
    a level): timeLeft is never below 0; a tick of the match timer while
    Active decreases timeLeft by exactly 1, keeps it at or above 0, and
    ends the match (phase Ended, the time-up summary scheduled) exactly
    when it reaches 0; a tick outside Active leaves the whole state
    unchanged; the match stops playing at most once, and exactly once
    when timeLeft has reached 0. *)
Theorem match_clock (rnd : Rand) (level : LevelConfig) (s0 : State)
        (evs : list Event) :
  0 < gameTime level -> betweenMatches s0 -> allInMatch evs ->
  let s1 := onLevelClick rnd level s0 in
  let s := run rnd evs s1 in
  0 <= timeLeft (gameState s) /\
  (forall h t, findTimer h (intervals s) = Some t ->
               callback t = UpdateTimer ->
               dispatch rnd (IntervalFires h) s = updateTimer s) /\
  (phase s = Active ->
   timeLeft (gameState (updateTimer s)) = timeLeft (gameState s) - 1 /\
   0 <= timeLeft (gameState (updateTimer s)) /\
   (timeLeft (gameState (updateTimer s)) = 0 ->
    phase (updateTimer s) = Ended /\
    timeouts (updateTimer s) =
    timeouts s ++ [mkTimer (nextHandle s) 500 TimeUpAlert]) /\
   (0 < timeLeft (gameState (updateTimer s)) ->
    phase (updateTimer s) = Active /\
    timeouts (updateTimer s) = timeouts s)) /\
  (phase s <> Active -> updateTimer s = s) /\
  (endedTransitions rnd evs s1 <= 1)%nat /\
  (timeLeft (gameState s) = 0 -> endedTransitions rnd evs s1 = 1%nat).
Proof.
  intros Hg Hb Hall s1 s.
  pose proof (MatchInv_start rnd level s0 Hb) as Inv0.
  destruct (MatchInv_run rnd level (nextHandle s0) evs 0 s1 Hall Inv0)
    as (Inv & Hcount).
  fold s in Inv, Hcount.
  destruct Inv as (I1 & I2 & I3 & I4).
  split; [| split; [| split; [| split; [| split]]]].
  - destruct I4 as [(_ & _ & _ & A4 & _) | (_ & _ & _ & B4)];
      [lia | apply B4; assumption].
  - intros h t Hf Hc. cbn [dispatch]. rewrite Hf, Hc. reflexivity.
  - intros Hp. apply phase_active in Hp.
    destruct I4 as [(_ & _ & A3 & _) | (_ & _ & B3 & B4)];
      [congruence |].
    destruct (B4 Hg) as [_ B5]. specialize (B5 Hp).
    destruct (updateTimer_playing s Hp) as (Hgs & Hi & Ht).
    rewrite Hgs. cbn [timeLeft].
    split; [reflexivity | split; [lia | split]].
    + intros H0. unfold phase, countingDown. rewrite Hgs, Hi, Ht.
      cbn [isPlaying isCountdown]. rewrite H0. cbn.
      unfold countingDown in B3. rewrite B3, I2. auto.
    + intros H1. unfold phase. rewrite Hgs, Ht. cbn [isPlaying].
      destruct (Z.leb_spec (timeLeft (gameState s) - 1) 0); [lia |].
      auto.
  - intros Hp. apply updateTimer_idle.
    destruct (isPlaying (gameState s)) eqn:E; [| reflexivity].
    exfalso. apply Hp, phase_active, E.
  - destruct (ended (0 + ticks (nextHandle s0) evs) s); lia.
  - intros H0. unfold ended in Hcount.
    destruct I4 as [(_ & _ & _ & A4 & _) | (B1 & _ & _ & B4)]; [lia |].
    destruct (B4 Hg) as [_ B5].
    destruct (isPlaying (gameState s)); [specialize (B5 eq_refl); lia |].
    apply Nat.leb_le in B1. rewrite B1 in Hcount. cbn in Hcount. lia.
Qed.

Lemma match_clock_witness :
  let s1 := onLevelClick rnd0 beginner loaded in
  let s := run rnd0 (quietMatch 90) s1 in
  0 <= timeLeft (gameState s) /\
  (endedTransitions rnd0 (quietMatch 90) s1 <= 1)%nat /\
  (timeLeft (gameState s) = 0 ->
   endedTransitions rnd0 (quietMatch 90) s1 = 1%nat).
Proof.
  assert (0 < gameTime beginner) as Hg by (cbn; lia).
  intros s1 s.
  pose proof (match_clock rnd0 beginner loaded (quietMatch 90) Hg
                          loaded_betweenMatches (quietMatch_inMatch 90))
    as H.
  exact (conj (proj1 H) (proj2 (proj2 (proj2 (proj2 H))))).
Defined.

(** C7.  When a level is chosen between matches, the countdown starts
    at 5 in phase Countdown; after the countdown interval has fired [n]
    times (interleaved with any events other than the choice of a level)
    it stands at 5 - n, down to 0: each firing before the fifth lowers it
    by exactly 1; the match is Active only once it has reached 0, the
    fifth firing is the one that makes it Active, and from then on the
    countdown interval is cancelled. *)
Theorem countdown_to_zero (rnd : Rand) (level : LevelConfig) (s0 : State)
        (evs : list Event) :
  betweenMatches s0 -> allInMatch evs ->
  let h := nextHandle s0 in
  let s1 := onLevelClick rnd level s0 in
  let s := run rnd evs s1 in
  let n := ticks h evs in
  countdown (gameState s1) = 5 /\ phase s1 = Countdown /\
  countdown (gameState s) = Z.max 0 (5 - Z.of_nat n) /\
  ((n < 5)%nat ->
   phase s = Countdown /\
   countdown (gameState (dispatch rnd (IntervalFires h) s)) =
   countdown (gameState s) - 1 /\
   (phase (dispatch rnd (IntervalFires h) s) = Active <-> n = 4%nat)) /\
  (phase s = Active -> (5 <= n)%nat /\ countdown (gameState s) = 0) /\
  ((5 <= n)%nat -> countingDown s = false).
Proof.
  intros Hb Hall h s1 s n.
  pose proof (MatchInv_start rnd level s0 Hb) as Inv0. fold h s1 in Inv0.
  destruct (MatchInv_run rnd level h evs 0 s1 Hall Inv0) as (Inv & _).
  fold s in Inv. cbn [Nat.add] in Inv. fold n in Inv.
  split; [| split; [| split; [| split; [| split]]]].
  - destruct Inv0 as (_ & _ & _ & [(_ & A2 & _) | (B1 & _)]);
      [exact A2 | lia].
  - destruct Inv0 as (_ & _ & _ & [(_ & _ & A3 & _ & _ & A6 & _)
                                  | (B1 & _)]); [| lia].
    apply (phase_countdown s1 h A3 A6).
  - destruct Inv as (_ & _ & _ & [(A1 & A2 & _) | (B1 & B2 & _)]); lia.
  - intros Hn.
    assert (inMatch (IntervalFires h) = true) as He by reflexivity.
    destruct (MatchInv_step rnd level h n (IntervalFires h) s He Inv)
      as (Inv' & _ & HA).
    cbn [isTick] in Inv'. rewrite Nat.eqb_refl in Inv'.
    destruct Inv as (_ & _ & _ & [(A1 & A2 & A3 & _ & _ & A6 & _)
                                 | (B1 & _)]); [| lia].
    split; [apply (phase_countdown s h A3 A6) | split].
    + cbn [dispatch]. rewrite A6. cbn [callback].
      destruct (countdownStep_spec h s) as (Hg & _). rewrite Hg.
      reflexivity.
    + rewrite phase_active. split.
      * intros Hp.
        destruct Inv' as (_ & _ & _ & [(_ & _ & A3' & _) | (B1 & _)]);
          [congruence | lia].
      * intros ->.
        destruct Inv' as (_ & _ & _ & [(A1' & _) | (B1 & B2 & B3 & B4)]);
          [lia |].
        cbn [dispatch]. rewrite A6. cbn [callback].
        destruct (countdownStep_spec h s) as (Hg & _). rewrite Hg.
        cbn [isPlaying]. rewrite A2. reflexivity.
  - intros Hp. apply phase_active in Hp.
    destruct Inv as (_ & _ & _ & [(_ & _ & A3 & _) | (B1 & B2 & _)]);
      [congruence | auto].
  - intros Hn.
    destruct Inv as (_ & _ & _ & [(A1 & _) | (_ & _ & B3 & _)]);
      [lia | exact B3].
Qed.

Lemma countdown_to_zero_witness :
  let s1 := onLevelClick rnd0 beginner loaded in
  let s := run rnd0 (quietMatch 0) s1 in
  countdown (gameState s1) = 5 /\ phase s1 = Countdown /\
  countdown (gameState s) = 0 /\ phase s = Active /\
  countingDown s = false.
Proof.
  intros s1 s.
  pose proof (countdown_to_zero rnd0 beginner loaded (quietMatch 0)
                loaded_betweenMatches (quietMatch_inMatch 0)) as H.
  cbv zeta in H. fold s1 s in H.
  destruct H as (H1 & H2 & H3 & _ & _ & H6).
  split; [exact H1 | split; [exact H2 | split; [exact H3 | split]]].
  - reflexivity.
  - apply H6. cbn. lia.
Defined.

End ClockClaims.

(** ** The timer table *)

Section Timers.
Import Levels Main.
Local Open Scope Z_scope.

Lemma iter_collisionEnds_timeouts (n : nat) (s : State) :
  timeouts (Nat.iter n collisionEnds s) =
  timeouts s ++ collisionTimers (nextHandle s) n.
Proof.
  unfold collisionTimers. induction n as [| n IH].
  - cbn. rewrite app_nil_r. reflexivity.
  - rewrite Nat.iter_succ, seq_S, map_app, app_assoc, <- IH.
    destruct (iter_collisionEnds_frame n s)
      as (_ & _ & _ & _ & _ & _ & _ & _ & _ & _ & Hn & _).
    cbn. rewrite Hn. reflexivity.
Qed.

Lemma timersStep_same (s s' : State) :
  nextHandle s' = nextHandle s -> intervals s' = intervals s ->
  timeouts s' = timeouts s -> timersStep s s'.
Proof.
  intros Hn Hi Ht. unfold timersStep. rewrite Hn, Hi, Ht.
  repeat split; auto.
Qed.

Lemma timersStep_trans (s1 s2 s3 : State) :
  timersStep s1 s2 -> timersStep s2 s3 -> timersStep s1 s3.
Proof.
  intros (N1 & I1 & T1) (N2 & I2 & T2). unfold timersStep.
  split; [lia | split]; intros t Hin.
  - destruct (I2 t Hin) as [H | H]; [| right; lia].
    destruct (I1 t H) as [H' | H']; [left; assumption | right; lia].
  - destruct (T2 t Hin) as [H | H]; [| right; lia].
    destruct (T1 t H) as [H' | H']; [left; assumption | right; lia].
Qed.

Lemma timersStep_setTimeout (cb : TimeoutCallback) (ms : Z) (s : State) :
  timersStep s (setTimeout cb ms s).
Proof.
  unfold timersStep. cbn. split; [lia | split]; intros t Hin; auto.
  apply in_app_or in Hin as [H | [<- | []]]; [auto | right; cbn; lia].
Qed.

Lemma updateTimer_timers (s : State) : timersStep s (updateTimer s).
Proof.
  unfold updateTimer. destruct (negb (isPlaying (gameState s)));
    [apply timersStep_same; reflexivity |].
  cbn zeta.
  match goal with
  | |- context [if ?c then _ else _] => destruct c
  end.
  - unfold endGame. eapply timersStep_trans;
      [| apply timersStep_setTimeout]. apply timersStep_same; reflexivity.
  - apply timersStep_same; reflexivity.
Qed.

Lemma countdownStep_timers (h : nat) (s : State) :
  timersStep s (countdownStep h s).
Proof.
  unfold countdownStep. cbn zeta.
  match goal with
  | |- context [if ?c then _ else _] => destruct c
  end; [| apply timersStep_same; reflexivity].
  unfold timersStep. cbn. split; [lia | split]; intros t Hin; auto.
  apply filter_In in Hin as [Hin _]. auto.
Qed.

Lemma onClick_hit (hit : Intersection) (rest : list Intersection)
      (s : State) :
  isPlaying (gameState s) = true -> isLocked s = true ->
  let s' := onClick (hit :: rest) s in
  gameState s' = setScore (score (gameState s) + 1) (gameState s) /\
  targets s' = colorMesh (object hit) 0xffffff (targets s) /\
  timeouts s' =
  timeouts s ++ [mkTimer (nextHandle s) 200 (RespawnHit (object hit))] /\
  nextHandle s' = S (nextHandle s) /\
  intervals s' = intervals s /\
  UIManager.scoreText (ui s') =
  ("Score: " ++ showZ (score (gameState s) + 1))%string.
Proof.
  intros Hp Hl s'. unfold s', onClick. rewrite Hp, Hl. cbn [negb orb].
  destruct (playShootSound_frame s) as (Hg & _ & Ht & Hn & Hi & Hto & _).
  cbn. rewrite Hg, Ht, Hn, Hi, Hto. repeat split.
Qed.

Lemma onClick_timers (intersects : list Intersection) (s : State) :
  timersStep s (onClick intersects s).
Proof.
  destruct (isPlaying (gameState s)) eqn:Hp;
    [| unfold onClick; rewrite Hp; apply timersStep_same; reflexivity].
  destruct (isLocked s) eqn:Hl;
    [| unfold onClick; rewrite Hp, Hl; apply timersStep_same; reflexivity].
  destruct intersects as [| hit rest].
  - unfold onClick. rewrite Hp, Hl. cbn [negb orb].
    destruct (playShootSound_frame s) as (_ & _ & _ & Hn & Hi & Hto & _).
    apply timersStep_same; assumption.
  - destruct (onClick_hit hit rest s Hp Hl) as (_ & _ & Hto & Hn & Hi & _).
    unfold timersStep. rewrite Hto, Hn, Hi.
    split; [lia | split]; intros t Hin; auto.
    apply in_app_or in Hin as [H | [<- | []]]; [auto | right; cbn; lia].
Qed.

Lemma animate_timers (rnd : Rand) (s : State) : timersStep s (animate rnd s).
Proof.
  destruct (isPlaying (gameState s)) eqn:Hp;
    [| unfold animate; rewrite Hp; apply timersStep_same; reflexivity].
  rewrite (animate_closed rnd s Hp). unfold timersStep. cbn.
  set (n := collisionsIn rnd s (targets s)).
  destruct (iter_collisionEnds_frame n s)
    as (_ & _ & _ & _ & _ & _ & Hi & _ & _ & _ & Hn & _).
  rewrite Hn, Hi, iter_collisionEnds_timeouts.
  split; [lia | split]; intros t Hin; auto.
  apply in_app_or in Hin as [H | H]; [auto | right].
  unfold collisionTimers in H. apply in_map_iff in H as (i & <- & Hi').
  apply in_seq in Hi'. cbn. lia.
Qed.

Lemma onLevelClick_timers (rnd : Rand) (level : LevelConfig) (s : State) :
  timersStep s (onLevelClick rnd level s).
Proof.
  destruct (onLevelClick_spec rnd level s) as (_ & Hi & Hn & Ht & _).
  unfold timersStep. rewrite Hi, Hn, Ht.
  split; [lia | split]; intros t Hin; auto.
  apply in_app_or in Hin as [H | [<- | []]]; [auto | right; cbn; lia].
Qed.

Lemma dispatch_timers (rnd : Rand) (e : Event) (s : State) :
  timersStep s (dispatch rnd e s).
Proof.
  destruct e as [level | h | h | intersects | | [|] | |]; cbn [dispatch].
  - apply onLevelClick_timers.
  - destruct (findTimer h (intervals s)) as [t |];
      [| apply timersStep_same; reflexivity].
    destruct (callback t);
      [apply updateTimer_timers | apply countdownStep_timers].
  - destruct (findTimer h (timeouts s)) as [t |];
      [| apply timersStep_same; reflexivity].
    apply (timersStep_trans s (dropTimeout h s)).
    + unfold timersStep. cbn. split; [lia | split]; intros t' Hin; auto.
      apply filter_In in Hin as [Hin _]. auto.
    + destruct (callback t) as [| | m];
        try (apply timersStep_same; reflexivity).
      destruct (respawnHit_frame rnd m (dropTimeout h s))
        as (_ & Hi & Ht & Hn & _).
      apply timersStep_same; assumption.
  - apply onClick_timers.
  - apply animate_timers.
  - apply timersStep_same; reflexivity.
  - unfold onUnlock2, onUnlock1. cbn.
    destruct (isPlaying (gameState s)) eqn:Hp; cbn; rewrite ?Hp; cbn;
      apply timersStep_same; reflexivity.
  - destruct (shootSounds s); apply timersStep_same; reflexivity.
  - apply timersStep_same; reflexivity.
Qed.

Lemma freshHandles_step (s s' : State) :
  timersStep s s' -> freshHandles s -> freshHandles s'.
Proof.
  intros (Hn & Hi & Ht) (Fi & Ft). unfold freshHandles.
  rewrite !Forall_forall in *. split; intros t Hin.
  - destruct (Hi t Hin) as [H | H]; [specialize (Fi t H); lia | lia].
  - destruct (Ht t Hin) as [H | H]; [specialize (Ft t H); lia | lia].
Qed.

Lemma freshHandles_run (rnd : Rand) (evs : list Event) :
  forall s : State, freshHandles s -> freshHandles (run rnd evs s).
Proof.
  induction evs as [| e rest IH]; intros s Hf; [exact Hf |].
  cbn [run fold_left]. apply IH.
  apply (freshHandles_step s); [apply dispatch_timers | exact Hf].
Qed.

(** A timeout set with a fresh handle is the one found under it. *)
Lemma findTimer_fresh {C : Type} (l : list (Timer C)) (t : Timer C)
      (rest : list (Timer C)) :
  Forall (fun t' => (handle t' < handle t)%nat) l ->
  findTimer (handle t) (l ++ t :: rest) = Some t.
Proof.
  unfold findTimer. induction l as [| a l IH]; intros Hf; cbn.
  - rewrite Nat.eqb_refl. reflexivity.
  - inversion Hf as [| ? ? Ha Hl]; subst.
    destruct (Nat.eqb_spec (handle a) (handle t)); [lia | auto].
Qed.

End Timers.

(** ** Shooting *)

Section Shooting.
Import Levels Main.
Local Open Scope Z_scope.

Lemma onClick_ignored (intersects : list Intersection) (s : State) :
  isPlaying (gameState s) = false \/ isLocked s = false ->
  onClick intersects s = s.
Proof.
  intros [H | H]; unfold onClick; rewrite H;
    [| rewrite orb_true_r]; reflexivity.
Qed.

(** C5.  A click while the match is not Active or while the pointer is
    not locked leaves the whole state unchanged; a click whose ray meets
    no target leaves the game state, the targets, the timer table (so no
    respawn is scheduled) and the UI unchanged (only the shot sound is
    played). *)
Theorem click_without_effect (intersects : list Intersection) (s : State) :
  phase s <> Active \/ isLocked s = false \/ intersects = [] ->
  let s' := onClick intersects s in
  score (gameState s') = score (gameState s) /\
  gameState s' = gameState s /\ targets s' = targets s /\
  timeouts s' = timeouts s /\ intervals s' = intervals s /\
  nextHandle s' = nextHandle s /\ ui s' = ui s /\
  isLocked s' = isLocked s /\ randomCalls s' = randomCalls s /\
  (phase s <> Active \/ isLocked s = false -> s' = s).
Proof.
  intros H s'.
  assert (phase s <> Active -> isPlaying (gameState s) = false) as Hph.
  { intros Hp. destruct (isPlaying (gameState s)) eqn:E; [| reflexivity].
    exfalso. apply Hp, phase_active, E. }
  assert (phase s <> Active \/ isLocked s = false -> s' = s) as Hsame.
  { intros [Hp | Hl]; apply onClick_ignored; auto. }
  destruct H as [H | [H | ->]].
  - rewrite Hsame by auto. repeat split; auto.
  - rewrite Hsame by auto. repeat split; auto.
  - split; [| split; [| split; [| split; [| split; [| split; [| split;
      [| split; [| split]]]]]]]]; try exact Hsame; unfold s', onClick;
      destruct (negb (isPlaying (gameState s)) || negb (isLocked s));
      try reflexivity;
      destruct (playShootSound_frame s)
        as (Hg & Hl & Ht & Hn & Hi & Hto & Hu & Hr);
      congruence.
Qed.

Lemma click_without_effect_witness :
  onClick [mkIntersection 15 0] loaded = loaded /\
  timeouts (onClick [] loaded) = timeouts loaded.
Proof.
  assert (phase loaded <> Active) as Hp by (cbn; discriminate).
  split.
  - exact (proj2 (proj2 (proj2 (proj2 (proj2 (proj2 (proj2 (proj2 (proj2
             (click_without_effect [mkIntersection 15 0] loaded
                (or_introl Hp))))))))))
             (or_introl Hp)).
  - exact (proj1 (proj2 (proj2 (proj2
             (click_without_effect [] loaded
                (or_intror (or_intror eq_refl))))))).
Defined.








End Shooting.

(** ** When the score and the clock move *)

Section ScoreClaims.
Import Levels Main.
Local Open Scope Z_scope.

Lemma not_active (s : State) :
  phase s <> Active <-> isPlaying (gameState s) = false.
Proof.
  rewrite phase_active. destruct (isPlaying (gameState s)); split;
    congruence.
Qed.

(** C9, as amended.  The choice of a level resets the score to 0 and
    timeLeft to the level's game time, in whatever phase it arrives.
    Every other event leaves both unchanged outside Active; in Active it
    leaves the score unchanged or adds exactly 1 to it, and leaves
    timeLeft unchanged or takes exactly 1 from it. *)
Theorem score_and_clock_moves (rnd : Rand) (e : Event) (s : State) :
  let s' := dispatch rnd e s in
  (forall level, e = LevelClick level ->
                 score (gameState s') = 0 /\
                 timeLeft (gameState s') = gameTime level) /\
  (inMatch e = true ->
   (phase s <> Active ->
    score (gameState s') = score (gameState s) /\
    timeLeft (gameState s') = timeLeft (gameState s)) /\
   (phase s = Active ->
    (score (gameState s') = score (gameState s) \/
     score (gameState s') = score (gameState s) + 1) /\
    (timeLeft (gameState s') = timeLeft (gameState s) \/
     timeLeft (gameState s') = timeLeft (gameState s) - 1))).
Proof.
  intros s'. split.
  - intros level ->. unfold s'. cbn [dispatch].
    destruct (onLevelClick_spec rnd level s) as (Hg & _). rewrite Hg.
    split; reflexivity.
  - intros He. rewrite not_active, phase_active.
    destruct (isQuiet e) eqn:Hq.
    + destruct (quiet_event rnd e s Hq)
        as (_ & _ & Ht & _ & _ & _ & Hs & Hb).
      fold s' in Ht, Hs, Hb. split.
      * intros Hp. split; [apply Hs, Hp | exact Ht].
      * intros _. split; [lia | left; exact Ht].
    + destruct e as [lv | h | | | | | |]; try discriminate. clear He Hq.
      unfold s'. cbn [dispatch].
      destruct (findTimer h (intervals s)) as [t |]; [| split; auto].
      destruct (callback t).
      * destruct (isPlaying (gameState s)) eqn:Hp.
        -- destruct (updateTimer_playing s Hp) as (Hg & _). rewrite Hg.
           cbn [score timeLeft]. split; [discriminate | auto].
        -- rewrite (updateTimer_idle s Hp). split; auto.
      * destruct (countdownStep_spec h s) as (Hg & _). rewrite Hg.
        cbn [score timeLeft]. split; auto.
Qed.

Lemma score_and_clock_moves_witness :
  let s' := dispatch rndCycle (Click [mkIntersection 4.2 0]) aiming in
  score (gameState s') = score (gameState aiming) \/
  score (gameState s') = score (gameState aiming) + 1.
Proof.
  intros s'.
  exact (proj1 (proj2 (proj2 (score_and_clock_moves rndCycle
                                (Click [mkIntersection 4.2 0]) aiming)
                             eq_refl) eq_refl)).
Defined.

(** C9 as stated fails: in phase Ended, with the score at 1 and timeLeft
    at 0, the choice of a level sets the score to 0 and timeLeft to the
    game time of the level. *)
Lemma level_choice_resets_score :
  let s' := dispatch rndCycle (LevelClick intermediate) timeIsUp in
  phase timeIsUp = Ended /\
  score (gameState timeIsUp) = 1 /\ timeLeft (gameState timeIsUp) = 0 /\
  score (gameState s') = 0 /\ timeLeft (gameState s') = 60 /\
  score (gameState s') <> score (gameState timeIsUp) /\
  timeLeft (gameState s') <> timeLeft (gameState timeIsUp).
Proof.
  lazy. repeat split; discriminate.
Qed.

End ScoreClaims.

(** ** After the end of a match *)

Section AfterTheEnd.
Import Levels Main.
Local Open Scope Z_scope.

Lemma findTimer_filter {C : Type} (h h' : nat) (l : list (Timer C)) :
  h' <> h ->
  findTimer h (filter (fun t => negb (Nat.eqb (handle t) h')) l) =
  findTimer h l.
Proof.
  intros Hne. unfold findTimer. induction l as [| a l IH]; [reflexivity |].
  cbn. destruct (Nat.eqb_spec (handle a) h') as [E | E]; cbn.
  - destruct (Nat.eqb_spec (handle a) h) as [E' | _]; [congruence | exact IH].
  - destruct (Nat.eqb (handle a) h); [reflexivity | exact IH].
Qed.

(** Once a match is over and no countdown is pending, the events of the
    match leave the game state and the interval table alone, and a
    timeout stays in the table until it fires. *)
Lemma over_stays (rnd : Rand) (e : Event) (s : State) (h : nat) :
  inMatch e = true -> isPlaying (gameState s) = false ->
  countingDown s = false -> e <> TimeoutFires h ->
  gameState (dispatch rnd e s) = gameState s /\
  intervals (dispatch rnd e s) = intervals s /\
  findTimer h (timeouts (dispatch rnd e s)) = findTimer h (timeouts s).
Proof.
  intros He Hp Hc Hne.
  destruct e as [lv | h' | h' | intersects | | b | |]; try discriminate;
    cbn [dispatch].
  - destruct (findTimer h' (intervals s)) as [t |] eqn:Hf; [| auto].
    apply findTimer_some in Hf as [Hin _].
    rewrite (countingDown_false s t Hc Hin), (updateTimer_idle s Hp). auto.
  - destruct (findTimer h' (timeouts s)) as [t |]; [| auto].
    assert (h' <> h) as Hh by congruence.
    destruct (callback t) as [| | m].
    + split; [reflexivity | split; [reflexivity |]].
      exact (findTimer_filter h h' (timeouts s) Hh).
    + split; [reflexivity | split; [reflexivity |]].
      exact (findTimer_filter h h' (timeouts s) Hh).
    + destruct (respawnHit_frame rnd m (dropTimeout h' s))
        as (Hg & Hi & Ht & _).
      rewrite Hg, Hi, Ht. split; [reflexivity | split; [reflexivity |]].
      exact (findTimer_filter h h' (timeouts s) Hh).
  - rewrite (onClick_ignored intersects s (or_introl Hp)). auto.
  - unfold animate. rewrite Hp. auto.
  - destruct b; [cbn; auto |].
    unfold onUnlock2, onUnlock1. cbn. rewrite Hp. cbn. rewrite Hp. cbn.
    repeat split.
  - destruct (shootSounds s); cbn; repeat split.
  - cbn. repeat split.
Qed.

Lemma over_run (rnd : Rand) (h : nat) (evs : list Event) :
  forall s : State,
    allInMatch evs -> ~ In (TimeoutFires h) evs ->
    isPlaying (gameState s) = false -> countingDown s = false ->
    gameState (run rnd evs s) = gameState s /\
    findTimer h (timeouts (run rnd evs s)) = findTimer h (timeouts s).
Proof.
  induction evs as [| e rest IH]; intros s Hall Hno Hp Hc; [auto |].
  inversion Hall as [| ? ? He Hrest]; subst.
  assert (e <> TimeoutFires h) as Hne
      by (intros ->; apply Hno; left; reflexivity).
  destruct (over_stays rnd e s h He Hp Hc Hne) as (Hg & Hi & Ht).
  cbn [run fold_left]. fold (run rnd rest (dispatch rnd e s)).
  destruct (IH (dispatch rnd e s) Hrest) as (IH1 & IH2).
  - intros Hin. apply Hno. right. exact Hin.
  - rewrite Hg. exact Hp.
  - unfold countingDown. rewrite Hi. exact Hc.
  - rewrite IH1, IH2, Hg, Ht. auto.
Qed.
End AfterTheEnd.

(** ** Collisions *)

Section Collisions.
Import Levels Main.
Local Open Scope R_scope.

Lemma sqrt_between (a b x : R) :
  0 <= a -> 0 <= b -> a * a <= x < b * b -> a <= sqrt x < b.
Proof.
  intros Ha Hb [H1 H2]. split.
  - rewrite <- (sqrt_square a Ha). apply sqrt_le_1_alt. exact H1.
  - rewrite <- (sqrt_square b Hb). apply sqrt_lt_1_alt. split; [| exact H2].
    apply Rle_trans with (a * a); [nra | exact H1].
Qed.

(** A target between 14 and 16 away from a player at the origin, in front
    of it and moving at speed 13, ends its step between 1 and 3 away, so
    without respawn. *)
Lemma long_step (rnd : Rand) (k : nat) (lc : LevelConfig) (tg : Target.t) :
  Target.speed tg = 13 ->
  14 <= distanceOf tg Vector3.zero < 16 ->
  Vector3.z (positionOf tg) < 0 ->
  Target.update rnd k Vector3.zero lc tg =
  (Target.advance Vector3.zero tg, k) /\
  1 <= distanceOf (Target.advance Vector3.zero tg) Vector3.zero < 3.
Proof.
  intros Hs Hd Hz.
  assert (distanceOf tg Vector3.zero <> 0) as Hne by lra.
  pose proof (advance_distance Vector3.zero tg Hne) as Hd1.
  rewrite Hs in Hd1. rewrite Rabs_right in Hd1 by lra.
  pose proof (advance_z_origin tg Hne) as Hz1. rewrite Hs in Hz1.
  split; [| lra].
  destruct (update_cases rnd k Vector3.zero lc tg) as [[Hm _] | [_ Hu]];
    [exfalso | exact Hu].
  unfold Target.mustRespawn, gtb in Hm.
  fold (positionOf (Target.advance Vector3.zero tg)) in Hm.
  fold (distanceOf (Target.advance Vector3.zero tg) Vector3.zero) in Hm.
  apply orb_true_iff in Hm as [Hm | Hm]; apply ltb_true in Hm; [lra |].
  rewrite Hz1 in Hm.
  assert (0 < 1 - 13 / distanceOf tg Vector3.zero).
  { apply Rmult_lt_reg_r with (distanceOf tg Vector3.zero); [lra |].
    replace ((1 - 13 / distanceOf tg Vector3.zero) *
             distanceOf tg Vector3.zero)
      with (distanceOf tg Vector3.zero - 13) by (field; lra).
    lra. }
  nra.
Qed.

Lemma duelStart_state :
  targets duelStart = [duelist 0 0; duelist 3 1] /\
  cameraPosition duelStart = Vector3.zero /\
  currentLevel (gameState duelStart) = duel /\
  randomCalls duelStart = 6%nat /\ nextHandle duelStart = 3%nat /\
  timeouts duelStart = [] /\ effects duelStart = [ControlsLock] /\
  phase duelStart = Active.
Proof. lazy. repeat split. Qed.

Lemma duelist_close (k id : nat) :
  (k = 0 \/ k = 3)%nat ->
  Target.speed (duelist k id) = 13 /\
  14 <= distanceOf (duelist k id) Vector3.zero < 16 /\
  Vector3.z (positionOf (duelist k id)) < 0 /\
  Target.levelConfig (duelist k id) = duel.
Proof.
  intros Hk. split; [reflexivity |]. split; [| split; [| reflexivity]].
  - unfold distanceOf, Vector3.distanceTo. apply sqrt_between; try lra.
    unfold Vector3.distanceToSquared.
    destruct Hk as [-> | ->]; cbn; unfold rndDuel; cbn; lra.
  - destruct Hk as [-> | ->]; cbn; unfold rndDuel; cbn; lra.
Qed.

Lemma duelStart_collisions :
  collisionsIn rndDuel duelStart (targets duelStart) = 2%nat.
Proof.
  destruct duelStart_state as (Ht & Hc & Hl & Hr & _).
  unfold collisionsIn. rewrite Ht, Hc, Hl, Hr. cbn [updateAll].
  destruct (duelist_close 0 0 (or_introl eq_refl)) as (S0 & D0 & Z0 & L0).
  destruct (duelist_close 3 1 (or_intror eq_refl)) as (S1 & D1 & Z1 & L1).
  destruct (long_step rndDuel 6 duel _ S0 D0 Z0) as (-> & B0).
  destruct (long_step rndDuel 6 duel _ S1 D1 Z1) as (-> & B1).
  cbn [fst snd filter]. unfold collides, Target.checkCollision.
  change (Target.levelConfig (Target.advance Vector3.zero (duelist 0 0)))
    with (Target.levelConfig (duelist 0 0)).
  change (Target.levelConfig (Target.advance Vector3.zero (duelist 3 1)))
    with (Target.levelConfig (duelist 3 1)).
  rewrite L0, L1.
  fold (positionOf (Target.advance Vector3.zero (duelist 0 0))).
  fold (positionOf (Target.advance Vector3.zero (duelist 3 1))).
  fold (distanceOf (Target.advance Vector3.zero (duelist 0 0)) Vector3.zero).
  fold (distanceOf (Target.advance Vector3.zero (duelist 3 1)) Vector3.zero).
  assert (forall d, d < 3 -> ltb d (collisionDistance duel) = true) as Hlt
      by (intros d Hd; apply ltb_true; cbn; lra).
  rewrite !Hlt by lra. reflexivity.
Qed.

Local Open Scope Z_scope.

Lemma iter_collisionEnds_effects (n : nat) (s : State) :
  effects (Nat.iter n collisionEnds s) =
  effects s ++
  List.concat (repeat [ConsoleLog "COLLISION DETECTED! Game Over!";
                       ControlsUnlock] n).
Proof.
  induction n as [| n IH].
  - cbn. rewrite app_nil_r. reflexivity.
  - rewrite Nat.iter_succ.
    change (effects (collisionEnds (Nat.iter n collisionEnds s)))
      with ((effects (Nat.iter n collisionEnds s) ++
             [ConsoleLog "COLLISION DETECTED! Game Over!"]) ++
            [ControlsUnlock]).
    rewrite IH, <- !app_assoc. f_equal.
    replace (S n) with (n + 1)%nat by lia.
    rewrite repeat_app, concat_app. reflexivity.
Qed.

Lemma match_run_fresh (rnd : Rand) (level : LevelConfig) (s0 : State)
      (evs : list Event) :
  betweenMatches s0 ->
  freshHandles (run rnd evs (onLevelClick rnd level s0)).
Proof.
  intros (_ & _ & Hf). apply freshHandles_run.
  apply (freshHandles_step s0); [apply onLevelClick_timers | exact Hf].
Qed.

(** C6.  In every match, a frame during which at least one target
    reports a collision takes the match from Active to Ended and leaves
    the score unchanged; it schedules, 500 ms later, the summary.
    Whatever events of the match come before that timeout fires, the
    summary it then presents shows the score the match ended with and the
    name of the level, and brings the level selector back. *)
Theorem collision_ends_match (rnd : Rand) (level : LevelConfig)
        (s0 : State) (evs : list Event) :
  betweenMatches s0 -> allInMatch evs ->
  let s := run rnd evs (onLevelClick rnd level s0) in
  phase s = Active -> (0 < collisionsIn rnd s (targets s))%nat ->
  let s' := animate rnd s in
  let h := nextHandle s in
  let text :=
    ("Game Over!" ++ nl ++ "You were hit by a target!" ++ nl ++
     "Final Score: " ++ showZ (score (gameState s)) ++ nl ++
     "Level: " ++ name level)%string in
  phase s' = Ended /\
  score (gameState s') = score (gameState s) /\
  findTimer h (timeouts s') = Some (mkTimer h 500 CollisionAlert) /\
  (forall evs2 : list Event,
      allInMatch evs2 -> ~ In (TimeoutFires h) evs2 ->
      let s2 := run rnd evs2 s' in
      effects (dispatch rnd (TimeoutFires h) s2) =
      effects s2 ++ [Alert text] /\
      UIManager.levelSelectorDisplay
        (ui (dispatch rnd (TimeoutFires h) s2)) = true).
Proof.
  intros Hb Hall s Hp Hn s' h text.
  pose proof (match_run_fresh rnd level s0 evs Hb) as (_ & Hf). fold s in Hf.
  pose proof (MatchInv_start rnd level s0 Hb) as Inv0.
  destruct (MatchInv_run rnd level (nextHandle s0) evs 0 _ Hall Inv0)
    as (Inv & _).
  fold s in Inv. destruct Inv as (I1 & I2 & _ & I4).
  apply phase_active in Hp.
  assert (countingDown s = false) as Hcd.
  { destruct I4 as [(_ & _ & A3 & _) | (_ & _ & B3 & _)];
      [congruence | exact B3]. }
  set (n := collisionsIn rnd s (targets s)) in *.
  destruct (iter_collisionEnds_frame n s)
    as (_ & F2 & F3 & _ & _ & F6 & F7 & _ & _ & _ & _ & F12).
  assert (gameState s' =
          gameState (Nat.iter n collisionEnds s)) as Hg
      by (unfold s'; rewrite (animate_closed rnd s Hp); reflexivity).
  assert (intervals s' = intervals s) as Hi
      by (unfold s'; rewrite (animate_closed rnd s Hp); exact F7).
  assert (timeouts s' = timeouts s ++ collisionTimers h n) as Ht
      by (unfold s'; rewrite (animate_closed rnd s Hp);
          apply iter_collisionEnds_timeouts).
  assert (isPlaying (gameState s') = false) as Hp'.
  { rewrite Hg, F12. destruct n; [lia |]. rewrite andb_false_r.
    reflexivity. }
  assert (countingDown s' = false) as Hcd'
      by (unfold countingDown in *; rewrite Hi; exact Hcd).
  assert (findTimer h (timeouts s') = Some (mkTimer h 500 CollisionAlert))
    as Hfind.
  { rewrite Ht. destruct n as [| n']; [lia |].
    unfold collisionTimers. rewrite <- cons_seq. cbn [map].
    rewrite Nat.add_0_r.
    apply (findTimer_fresh (timeouts s) (mkTimer h 500 CollisionAlert)).
    exact Hf. }
  split; [| split; [| split; [exact Hfind |]]].
  - unfold phase. rewrite Hp', Hcd', Hg, F6, I2. reflexivity.
  - rewrite Hg. exact F3.
  - intros evs2 Hall2 Hno s2.
    destruct (over_run rnd h evs2 s' Hall2 Hno Hp' Hcd') as (Hg2 & Hf2).
    fold s2 in Hg2, Hf2. rewrite Hfind in Hf2.
    cbn [dispatch]. rewrite Hf2. cbn [callback].
    unfold collisionAlert. cbn.
    rewrite Hg2, Hg. unfold summary. rewrite F3, F2, I1.
    split; reflexivity.
Qed.

Lemma collision_ends_match_witness :
  phase (animate rndDuel duelStart) = Ended /\
  score (gameState (animate rndDuel duelStart)) = 0 /\
  findTimer 3 (timeouts (animate rndDuel duelStart)) =
  Some (mkTimer 3 500 CollisionAlert) /\
  effects (dispatch rndDuel (TimeoutFires 3)
             (run rndDuel [PointerLockChange false]
                  (animate rndDuel duelStart))) =
  effects (run rndDuel [PointerLockChange false]
               (animate rndDuel duelStart)) ++
  [Alert ("Game Over!" ++ nl ++ "You were hit by a target!" ++ nl ++
          "Final Score: 0" ++ nl ++ "Level: Duel")%string].
Proof.
  destruct duelStart_state as (_ & _ & _ & _ & Hh & _ & _ & Hp).
  pose proof duelStart_collisions as Hc.
  assert (score (gameState duelStart) = 0) as Hs by (lazy; reflexivity).
  assert (0 < collisionsIn rndDuel duelStart (targets duelStart))%nat
    as Hn by (rewrite Hc; lia).
  pose proof (collision_ends_match rndDuel duel loaded (quietMatch 0)
                loaded_betweenMatches (quietMatch_inMatch 0) Hp Hn) as H.
  cbv zeta in H. rewrite Hh, Hs in H.
  destruct H as (H1 & H2 & H3 & H4).
  assert (allInMatch [PointerLockChange false]) as Ha
      by (repeat constructor).
  assert (~ In (TimeoutFires 3) [PointerLockChange false]) as Hno
      by (intros [E | []]; discriminate E).
  split; [exact H1 | split; [exact H2 | split; [exact H3 |]]].
  exact (proj1 (H4 [PointerLockChange false] Ha Hno)).
Defined.

Lemma updateAll_length (rnd : Rand) (c : Vector3.t) (lc : LevelConfig)
      (ts : list Target.t) :
  forall k : nat,
    List.length (fst (updateAll rnd k c lc ts)) = List.length ts.
Proof.
  induction ts as [| tg rest IH]; intros k; [reflexivity |].
  cbn [updateAll]. destruct (Target.update rnd k c lc tg) as [t1 k1].
  specialize (IH k1). destruct (updateAll rnd k1 c lc rest) as [r1 k2].
  cbn in *. rewrite IH. reflexivity.
Qed.

Lemma animate_outcome (rnd : Rand) (s : State) :
  isPlaying (gameState s) = true ->
  let n := collisionsIn rnd s (targets s) in
  timeouts (animate rnd s) = timeouts s ++ collisionTimers (nextHandle s) n
  /\
  effects (animate rnd s) =
  effects s ++
  List.concat (repeat [ConsoleLog "COLLISION DETECTED! Game Over!";
                       ControlsUnlock] n) /\
  intervals (animate rnd s) = intervals s /\
  isPlaying (gameState (animate rnd s)) = Nat.eqb n 0.
Proof.
  intros Hp n. rewrite (animate_closed rnd s Hp). fold n.
  change (timeouts (Nat.iter n collisionEnds s) =
          timeouts s ++ collisionTimers (nextHandle s) n /\
          effects (Nat.iter n collisionEnds s) =
          effects s ++
          List.concat (repeat [ConsoleLog "COLLISION DETECTED! Game Over!";
                               ControlsUnlock] n) /\
          intervals (Nat.iter n collisionEnds s) = intervals s /\
          isPlaying (gameState (Nat.iter n collisionEnds s)) = Nat.eqb n 0).
  split; [apply iter_collisionEnds_timeouts |].
  split; [apply iter_collisionEnds_effects |].
  destruct (iter_collisionEnds_frame n s)
    as (_ & _ & _ & _ & _ & _ & F7 & _ & _ & _ & _ & F12).
  split; [exact F7 |]. rewrite F12, Hp. reflexivity.
Qed.

(** C10.  In a frame of an Active match every target is updated, whatever
    collisions the frame detects: the targets after the frame are the
    updates of all targets before it, and [handleCollision] has run once
    for each of them that collides.  There is a state, two targets both
    within collision range, in which it runs twice in one frame: two
    summaries are scheduled and the pointer is released twice. *)
Theorem collision_does_not_stop_the_frame :
  (forall (rnd : Rand) (s : State),
      phase s = Active ->
      let c := cameraPosition s in
      let upd := updateAll rnd (randomCalls s) c
                           (currentLevel (gameState s)) (targets s) in
      targets (animate rnd s) = map (markHit c) (fst upd) /\
      List.length (targets (animate rnd s)) = List.length (targets s) /\
      animate rnd s =
      setTargets (map (markHit c) (fst upd))
        (setRandomCalls (snd upd)
           (Nat.iter (collisionsIn rnd s (targets s)) collisionEnds s))) /\
  (exists (rnd : Rand) (s : State),
      phase s = Active /\ List.length (targets s) = 2%nat /\
      collisionsIn rnd s (targets s) = 2%nat /\
      timeouts (animate rnd s) =
      timeouts s ++ [mkTimer (nextHandle s) 500 CollisionAlert;
                     mkTimer (S (nextHandle s)) 500 CollisionAlert] /\
      effects (animate rnd s) =
      effects s ++ [ConsoleLog "COLLISION DETECTED! Game Over!";
                    ControlsUnlock;
                    ConsoleLog "COLLISION DETECTED! Game Over!";
                    ControlsUnlock]).
Proof.
  split.
  - intros rnd s Hp c upd. apply phase_active in Hp.
    rewrite (animate_closed rnd s Hp). fold c upd.
    split; [reflexivity | split; [| reflexivity]].
    change (List.length (map (markHit c) (fst upd)) =
            List.length (targets s)).
    rewrite length_map. apply updateAll_length.
  - exists rndDuel, duelStart.
    destruct duelStart_state as (Ht & _ & _ & _ & _ & _ & _ & Hp).
    split; [exact Hp |]. split; [rewrite Ht; reflexivity |].
    split; [exact duelStart_collisions |].
    apply phase_active in Hp.
    destruct (animate_outcome rndDuel duelStart Hp) as (Hto & He & _).
    rewrite duelStart_collisions in Hto, He.
    rewrite Hto, He. unfold collisionTimers. cbn [seq map repeat List.concat].
    rewrite Nat.add_0_r, Nat.add_1_r. split; reflexivity.
Qed.

Lemma collision_does_not_stop_the_frame_witness :
  List.length (targets (animate rndDuel duelStart)) =
  List.length (targets duelStart).
Proof.
  destruct duelStart_state as (_ & _ & _ & _ & _ & _ & _ & Hp).
  exact (proj1 (proj2 (proj1 collision_does_not_stop_the_frame
                         rndDuel duelStart Hp))).
Defined.

End Collisions.

(** ** Cancelling the intervals *)

Section IntervalClaims.
Import Levels Main.
Local Open Scope Z_scope.

Lemma filter_swap {A : Type} (p q : A -> bool) (l : list A) :
  filter p (filter q l) = filter q (filter p l).
Proof.
  induction l as [| a l IH]; [reflexivity |]. cbn.
  destruct (p a) eqn:Hp, (q a) eqn:Hq; cbn; rewrite ?Hp, ?Hq, IH;
    reflexivity.
Qed.

Lemma oneMatchTimer_same (s s' : State) :
  intervals s' = intervals s -> (nextHandle s <= nextHandle s')%nat ->
  oneMatchTimer s -> oneMatchTimer s'.
Proof.
  intros Hi Hn (K1 & K2 & K3). unfold oneMatchTimer. rewrite Hi.
  repeat split; [assumption | lia | assumption].
Qed.

Lemma oneMatchTimer_step (rnd : Rand) (e : Event) (s : State) :
  oneMatchTimer s -> oneMatchTimer (dispatch rnd e s).
Proof.
  intros K. pose proof (dispatch_timers rnd e s) as (Hn & _).
  destruct (isQuiet e) eqn:Hq.
  - apply (oneMatchTimer_same s); [apply (quiet_event rnd e s Hq) | | ];
      assumption.
  - destruct K as (K1 & K2 & K3).
    destruct e as [level | h | | | | | |]; try discriminate;
      cbn [dispatch] in *.
    + destruct (onLevelClick_spec rnd level s) as (_ & Hi & Hn' & _).
      unfold oneMatchTimer. rewrite Hi, Hn', filter_app, K1.
      repeat split; [lia |]. apply Forall_app. split; [exact K3 |].
      repeat constructor. cbn. lia.
    + destruct (findTimer h (intervals s)) as [t |] eqn:Hf;
        [| repeat split; assumption].
      apply findTimer_some in Hf as [Hin Hh].
      destruct (callback t) eqn:Hcb.
      * apply (oneMatchTimer_same s); [| exact Hn | repeat split; assumption].
        destruct (isPlaying (gameState s)) eqn:Hp;
          [apply (updateTimer_playing s Hp)
          | rewrite (updateTimer_idle s Hp); reflexivity].
      * destruct (countdownStep_spec h s) as (_ & Hi & _).
        unfold oneMatchTimer. rewrite Hi.
        destruct (countdown (gameState s) - 1 <=? 0);
          [| repeat split; try assumption; lia].
        rewrite Forall_forall in K3.
        assert (2 <= h)%nat as H2.
        { rewrite <- Hh. apply K3; [exact Hin |].
          unfold isCountdownTimer. rewrite Hcb. reflexivity. }
        rewrite filter_swap, K1. cbn [filter matchTimer handle].
        destruct (Nat.eqb_spec 1 h) as [E | _]; [lia |]. cbn [negb].
        repeat split; [lia |].
        apply Forall_forall. intros t' Hin'.
        apply filter_In in Hin' as [Hin' _]. apply K3, Hin'.
Qed.

Lemma oneMatchTimer_run (rnd : Rand) (evs : list Event) :
  forall s : State, oneMatchTimer s -> oneMatchTimer (run rnd evs s).
Proof.
  induction evs as [| e rest IH]; intros s K; [exact K |].
  cbn [run fold_left]. apply IH, oneMatchTimer_step, K.
Qed.

Lemma oneMatchTimer_loaded : oneMatchTimer loaded.
Proof.
  unfold oneMatchTimer. cbn. repeat split; [lia |].
  repeat constructor. cbn. discriminate.
Qed.

(** C8, as amended.  The match timer interval is registered once, when
    the module is loaded, and is never cancelled: in every state reached
    from there it is the one interval that runs [updateTimer]; the end of
    a match ([endGame]), the termination by a collision
    ([handleCollision]) and the release of the pointer leave the interval
    table as it is, and the ticks of the timer outside Active change
    nothing.  The countdown interval is cancelled by its own callback,
    when the countdown reaches 0: no interval keeps its handle, and once
    a match has left its Countdown phase no countdown interval is
    registered. *)
Theorem intervals_do_not_pile_up (rnd : Rand) (evs : list Event) :
  let s := run rnd evs loaded in
  filter isMatchTimer (intervals s) = [matchTimer] /\
  intervals (endGame s) = intervals s /\
  (forall tg, intervals (snd (handleCollision tg s)) = intervals s) /\
  intervals (dispatch rnd (PointerLockChange false) s) = intervals s /\
  (phase s <> Active -> updateTimer s = s) /\
  (forall h t, countdown (gameState s) <= 1 ->
               In t (intervals (countdownStep h s)) -> handle t <> h) /\
  (forall (level : LevelConfig) (s0 : State) (evs' : list Event),
      betweenMatches s0 -> allInMatch evs' ->
      let s' := run rnd evs' (onLevelClick rnd level s0) in
      phase s' = Active \/ phase s' = Ended -> countingDown s' = false).
Proof.
  intros s.
  split; [apply (oneMatchTimer_run rnd evs loaded oneMatchTimer_loaded) |].
  split; [reflexivity |]. split; [reflexivity |].
  split; [apply (quiet_event rnd (PointerLockChange false) s eq_refl) |].
  split; [intros Hp; apply updateTimer_idle, not_active, Hp |].
  split.
  - intros h t Hc Hin. destruct (countdownStep_spec h s) as (_ & Hi & _).
    rewrite Hi in Hin.
    destruct (Z.leb_spec (countdown (gameState s) - 1) 0); [| lia].
    apply filter_In in Hin as [_ Hh].
    apply negb_true_iff, Nat.eqb_neq in Hh. exact Hh.
  - intros level s0 evs' Hb Hall s' Hph.
    pose proof (MatchInv_start rnd level s0 Hb) as Inv0.
    destruct (MatchInv_run rnd level (nextHandle s0) evs' 0 _ Hall Inv0)
      as (Inv & _).
    fold s' in Inv.
    destruct Inv as (_ & _ & _ & [(_ & _ & A3 & _ & _ & A6 & _)
                                 | (_ & _ & B3 & _)]); [| exact B3].
    rewrite (phase_countdown s' _ A3 A6) in Hph.
    destruct Hph; discriminate.
Qed.

Lemma intervals_do_not_pile_up_witness :
  filter isMatchTimer (intervals (run rnd0 [LevelClick beginner] loaded)) =
  [matchTimer] /\
  updateTimer (run rnd0 [LevelClick beginner] loaded) =
  run rnd0 [LevelClick beginner] loaded.
Proof.
  pose proof (intervals_do_not_pile_up rnd0 [LevelClick beginner]) as H.
  cbv zeta in H.
  assert (phase (run rnd0 [LevelClick beginner] loaded) <> Active) as Hp
      by (lazy; discriminate).
  exact (conj (proj1 H) (proj1 (proj2 (proj2 (proj2 (proj2 H)))) Hp)).
Defined.

Lemma duel_frame_ends :
  isPlaying (gameState (animate rndDuel duelStart)) = false /\
  intervals (animate rndDuel duelStart) = intervals duelStart.
Proof.
  destruct duelStart_state as (_ & _ & _ & _ & _ & _ & _ & Hp).
  apply phase_active in Hp.
  destruct (animate_outcome rndDuel duelStart Hp) as (_ & _ & Hi & Hpl).
  rewrite duelStart_collisions in Hpl. split; [exact Hpl | exact Hi].
Qed.

(** C8 as stated fails: nothing in the code cancels the match timer
    interval.  It is still registered when a Beginner match has run out
    of time, when the player has released the pointer during a match, and
    when a collision has ended a match; and a countdown during which the
    pointer is released keeps its interval and goes on to start the
    match. *)
Lemma match_timer_outlives_the_match :
  let start := onLevelClick rnd0 beginner loaded in
  let timeUp := run rnd0 (quietMatch 90) start in
  let abandoned := run rnd0 (quietMatch 3 ++ [PointerLockChange false])
                       start in
  let hit := animate rndDuel duelStart in
  let released := run rnd0 [IntervalFires 2; PointerLockChange false]
                      start in
  (phase timeUp = Ended /\ timeLeft (gameState timeUp) = 0 /\
   intervals timeUp = [matchTimer]) /\
  (phase (run rnd0 (quietMatch 3) start) = Active /\
   phase abandoned = Ended /\ intervals abandoned = [matchTimer]) /\
  (isPlaying (gameState hit) = false /\ intervals hit = [matchTimer]) /\
  (phase released = Countdown /\
   intervals released = [matchTimer; mkTimer 2 1000 CountdownStep] /\
   phase (run rnd0 (repeat (IntervalFires 2) 4) released) = Active).
Proof.
  intros start timeUp abandoned hit released.
  split; [lazy; repeat split |]. split; [lazy; repeat split |].
  split; [| lazy; repeat split].
  destruct duel_frame_ends as (Hp & Hi). unfold hit.
  rewrite Hp, Hi. split; [reflexivity |]. lazy. reflexivity.
Qed.

End IntervalClaims.

(** * Further properties *)

(** Projections of a state built by the field updates. *)
Ltac fields :=
  cbn [gameState isLocked cameraPosition sceneMeshes targets nextUuid
       shootSounds currentSoundIndex nextHandle intervals timeouts ui
       randomCalls effects setGameState setIsLocked setScene setTargets
       setAudio setTimers setUi setRandomCalls emit onGameState onUi
       setInterval setTimeout clearInterval dropTimeout currentLevel score
       timeLeft isPlaying isCountdown countdown setScore setTimeLeft
       setIsPlaying setCountdown UIManager.levelSelectorDisplay
       UIManager.countdownDisplay UIManager.crosshairDisplay
       UIManager.scoreText UIManager.timerText UIManager.countdownText
       UIManager.showLevelSelector UIManager.hideLevelSelector
       UIManager.showCountdown UIManager.hideCountdown
       UIManager.updateCountdown UIManager.updateTimer
       UIManager.updateScore UIManager.showCrosshair
       UIManager.hideCrosshair negb orb andb fst snd] in *.

(** ** The approach of a target *)

Section Approach.
Import Levels.
Local Open Scope R_scope.

Lemma depth_le_distance (p : Vector3.t) :
  - Vector3.z p <= Vector3.distanceTo p Vector3.zero.
Proof.
  unfold Vector3.distanceTo, Vector3.distanceToSquared. cbn.
  apply Rle_trans with (Rabs (Vector3.z p)).
  - rewrite <- Rabs_Ropp. apply Rle_abs.
  - rewrite <- sqrt_Rsqr_abs. apply sqrt_le_1_alt. unfold Rsqr.
    pose proof (Rle_0_sqr (Vector3.x p - 0)) as Hx.
    pose proof (Rle_0_sqr (Vector3.y p - 0)) as Hy.
    unfold Rsqr in *. nra.
Qed.

(** X1.  With the player at the origin, a target whose step brings it
    within 1.0 of the player (or past the plane z = 0) is respawned before
    the collision test of the frame sees it: after [update] every target
    is at least 1 away; a respawned one is at least 5 away and, for a
    collision distance of at most 5, is not reported as colliding; a
    target that is reported has made a plain step and stands between 1
    and the collision distance. *)
Theorem respawn_precedes_collision (rnd : Rand) (k : nat) (lc : LevelConfig)
        (tg : Target.t) :
  unit_interval rnd -> positiveRange lc ->
  collisionDistance (Target.levelConfig tg) <= 5 ->
  let t' := fst (Target.update rnd k Vector3.zero lc tg) in
  1 <= distanceOf t' Vector3.zero /\
  (Target.mustRespawn Vector3.zero (Target.advance Vector3.zero tg) = true ->
   5 <= distanceOf t' Vector3.zero /\
   Target.checkCollision t' Vector3.zero = false) /\
  (Target.checkCollision t' Vector3.zero = true ->
   Target.mustRespawn Vector3.zero (Target.advance Vector3.zero tg) = false
   /\ distanceOf t' Vector3.zero
      < collisionDistance (Target.levelConfig tg)).
Proof.
  intros Hr Hp Hc t'.
  assert (Target.mustRespawn Vector3.zero (Target.advance Vector3.zero tg)
          = true ->
          5 <= distanceOf t' Vector3.zero /\
          Target.checkCollision t' Vector3.zero = false) as Hre.
  { intros Hm. unfold t', Target.update. rewrite Hm.
    pose proof (respawn_position rnd k lc (Target.advance Vector3.zero tg)
                                 Hr Hp) as (_ & _ & Hz).
    pose proof (depth_le_distance
                  (positionOf (fst (Target.respawn rnd k lc
                                      (Target.advance Vector3.zero tg)))))
      as Hd.
    fold (distanceOf (fst (Target.respawn rnd k lc
                             (Target.advance Vector3.zero tg)))
                     Vector3.zero) in Hd.
    split; [lra |]. unfold Target.checkCollision.
    fold (positionOf (fst (Target.respawn rnd k lc
                             (Target.advance Vector3.zero tg)))).
    fold (distanceOf (fst (Target.respawn rnd k lc
                             (Target.advance Vector3.zero tg)))
                     Vector3.zero).
    apply ltb_false.
    change (Target.levelConfig
              (fst (Target.respawn rnd k lc
                      (Target.advance Vector3.zero tg))))
      with (Target.levelConfig tg).
    lra. }
  destruct (Target.mustRespawn Vector3.zero
              (Target.advance Vector3.zero tg)) eqn:Hm.
  - destruct (Hre eq_refl) as [H5 Hno].
    split; [lra | split; [auto |]]. rewrite Hno. discriminate.
  - assert (t' = Target.advance Vector3.zero tg) as E
        by (unfold t', Target.update; rewrite Hm; reflexivity).
    destruct (no_respawn_bounds _ _ Hm) as [H1 _]. rewrite <- E in H1.
    split; [exact H1 | split; [discriminate |]].
    intros Hcol. split; [reflexivity |].
    unfold Target.checkCollision in Hcol. apply ltb_true in Hcol.
    rewrite E in *. exact Hcol.
Qed.

Lemma respawn_precedes_collision_witness :
  let tg := targetAt 0 beginner (Vector3.mk 0 0 (-1.02)) 0.05 in
  let t' := fst (Target.update rnd0 0 Vector3.zero beginner tg) in
  5 <= distanceOf t' Vector3.zero /\
  Target.checkCollision t' Vector3.zero = false.
Proof.
  intros tg t'.
  assert (collisionDistance (Target.levelConfig tg) <= 5) as Hc
      by (cbn; lra).
  assert (Target.mustRespawn Vector3.zero (Target.advance Vector3.zero tg)
          = true) as Hm.
  { unfold Vector3.zero.
    rewrite (mustRespawn_on_axis 0 (-1.02) tg eq_refl) by lra.
    apply orb_true_iff. left. apply ltb_true. cbn.
    rewrite Rabs_left; lra. }
  exact (proj1 (proj2 (respawn_precedes_collision rnd0 0 beginner tg
                         rnd0_unit beginner_positive Hc)) Hm).
Defined.

Lemma no_respawn_when_far (tg : Target.t) :
  0 < Target.speed tg -> Vector3.z (positionOf tg) < 0 ->
  1 <= distanceOf tg Vector3.zero - Target.speed tg ->
  Target.mustRespawn Vector3.zero (Target.advance Vector3.zero tg) = false.
Proof.
  intros Hs Hz Hd.
  assert (distanceOf tg Vector3.zero <> 0) as Hne by lra.
  unfold Target.mustRespawn, gtb.
  fold (positionOf (Target.advance Vector3.zero tg)).
  fold (distanceOf (Target.advance Vector3.zero tg) Vector3.zero).
  rewrite (advance_distance Vector3.zero tg Hne), (advance_z_origin tg Hne).
  rewrite Rabs_right by lra.
  apply orb_false_iff. split; apply ltb_false; [lra |].
  assert (0 < 1 - Target.speed tg / distanceOf tg Vector3.zero).
  { apply Rmult_lt_reg_r with (distanceOf tg Vector3.zero); [lra |].
    replace ((1 - Target.speed tg / distanceOf tg Vector3.zero) *
             distanceOf tg Vector3.zero)
      with (distanceOf tg Vector3.zero - Target.speed tg) by (field; lra).
    lra. }
  nra.
Qed.

Lemma approach_steps (rnd : Rand) (k : nat) (lc : LevelConfig)
      (tg : Target.t) (n : nat) :
  0 < Target.speed tg -> Vector3.z (positionOf tg) < 0 ->
  1 <= distanceOf tg Vector3.zero - INR n * Target.speed tg ->
  let r := updates rnd n k Vector3.zero lc tg in
  snd r = k /\
  distanceOf (fst r) Vector3.zero =
  distanceOf tg Vector3.zero - INR n * Target.speed tg /\
  Vector3.z (positionOf (fst r)) < 0 /\
  Target.speed (fst r) = Target.speed tg /\
  Target.levelConfig (fst r) = Target.levelConfig tg.
Proof.
  intros Hs Hz. induction n as [| n IH]; intros Hd r.
  - unfold r. cbn. repeat split; [lra | exact Hz].
  - rewrite S_INR in Hd.
    assert (1 <= distanceOf tg Vector3.zero - INR n * Target.speed tg)
      as Hd' by nra.
    destruct (IH Hd') as (Ik & Idist & Iz & Is & Il).
    unfold r. cbn [updates].
    destruct (updates rnd n k Vector3.zero lc tg) as [tn kn].
    cbn [fst snd] in *. subst kn.
    assert (Target.mustRespawn Vector3.zero (Target.advance Vector3.zero tn)
            = false) as Hm
        by (apply no_respawn_when_far; rewrite ?Is, ?Idist; [lra | | nra];
            exact Iz).
    destruct (update_cases rnd k Vector3.zero lc tn) as [[Hm' _] | [_ ->]];
      [congruence |].
    cbn [fst snd].
    destruct (step_closer_origin tn) as [Hd1 Hz1];
      [rewrite Is; exact Hs | exact Iz | exact Hm |].
    rewrite S_INR, Hd1, Idist, Is.
    repeat split; [lra | exact Hz1 | exact Is | exact Il].
Qed.

End Approach.

Section RoundedApproach.
Import Levels.
Local Open Scope R_scope.

Variable fl : R -> R.
Hypothesis Hfl : binary64 fl.

Lemma checkCollision_by_distance (tg : Target.t) :
  Rounded.checkCollision fl tg Vector3.zero =
  ltb (roundedDistance fl tg Vector3.zero)
      (collisionDistance (Target.levelConfig tg)).
Proof. reflexivity. Qed.

(** As long as no random number is drawn, no respawn has fired, and
    each call has taken the speed off the distance up to 2^-33. *)
Lemma rounded_approach_steps (rnd : Rand) (k : nat) (lc : LevelConfig)
      (tg : Target.t) (n : nat) :
  unit_interval rnd -> playable lc -> inPlay fl tg ->
  snd (roundedUpdates fl rnd n k Vector3.zero lc tg) = k ->
  let c := Vector3.zero in
  let tn := fst (roundedUpdates fl rnd n k c lc tg) in
  Target.speed tn = Target.speed tg /\
  Target.levelConfig tn = Target.levelConfig tg /\
  Rabs (roundedDistance fl tn c -
        (roundedDistance fl tg c - INR n * Target.speed tg))
  <= INR n / 2 ^ 33.
Proof.
  intros Hr Hlc Hin. induction n as [| n IH]; intros Hk c tn.
  - unfold tn, c. cbn [roundedUpdates fst INR].
    split; [reflexivity | split; [reflexivity |]].
    apply Rabs_bounds. lra.
  - unfold tn, c in *. clear tn c.
    pose proof (roundedUpdates_inPlay fl Hfl rnd k lc tg n Hr Hlc Hin) as Hn.
    pose proof (roundedUpdates_draws fl rnd k lc tg n) as Hle.
    cbn [roundedUpdates] in Hk |- *.
    destruct (roundedUpdates fl rnd n k Vector3.zero lc tg) as [t kn].
    cbn [fst snd] in IH, Hn, Hle.
    destruct (update_inPlay fl Hfl rnd kn lc t Hr Hlc Hn) as (_ & H2 & H3).
    destruct (Rounded.mustRespawn fl Vector3.zero
                (Rounded.advance fl Vector3.zero t)) eqn:Hm.
    + destruct (H2 eq_refl) as (Hk3 & _). rewrite Hk3 in Hk. lia.
    + destruct (H3 eq_refl) as (Hk0 & Hs & Hl & _ & Hd).
      rewrite Hk0 in Hk. destruct (IH Hk) as (Is & Il & Id).
      rewrite Hs, Hl, Is. split; [reflexivity | split; [exact Il |]].
      rewrite Is in Hd. rewrite S_INR.
      apply Rabs_bounds in Hd. apply Rabs_bounds in Id.
      apply Rabs_bounds. lra.
Qed.

(** X2.  With the player at the origin, a target in play comes on at
    its constant speed, in the arithmetic of the code up to rounding:
    over [n] updates that draw no random number (none respawns the
    target), the speed and the level of the target are unchanged and the
    computed distance is within n * 2^-33 of d - n * speed, d being the
    distance before; so the target collides after them when
    d - n * speed is below the collision distance of its level by more
    than n * 2^-33, and does not when it is at or above it by n * 2^-33. *)
Theorem straight_approach (rnd : Rand) (k : nat) (lc : LevelConfig)
        (tg : Target.t) (n : nat) :
  unit_interval rnd -> playable lc -> inPlay fl tg ->
  snd (roundedUpdates fl rnd n k Vector3.zero lc tg) = k ->
  let c := Vector3.zero in
  let tn := fst (roundedUpdates fl rnd n k c lc tg) in
  let d := roundedDistance fl tg c in
  let threshold := collisionDistance (Target.levelConfig tg) in
  Target.speed tn = Target.speed tg /\
  Rabs (roundedDistance fl tn c - (d - INR n * Target.speed tg))
  <= INR n / 2 ^ 33 /\
  (d - INR n * Target.speed tg + INR n / 2 ^ 33 < threshold ->
   Rounded.checkCollision fl tn c = true) /\
  (threshold <= d - INR n * Target.speed tg - INR n / 2 ^ 33 ->
   Rounded.checkCollision fl tn c = false).
Proof.
  intros Hr Hlc Hin Hk c tn d threshold.
  destruct (rounded_approach_steps rnd k lc tg n Hr Hlc Hin Hk)
    as (Hs & Hl & Hd).
  fold c tn d in Hs, Hl, Hd.
  split; [exact Hs | split; [exact Hd |]].
  unfold c. rewrite checkCollision_by_distance. fold c. rewrite Hl.
  fold threshold. apply Rabs_bounds in Hd.
  split; intros H; [apply ltb_true | apply ltb_false]; lra.
Qed.

(** From the spawn volume on, every call of [update] leaves the target
    at least 5 - 2^-30 away, less the steps made since. *)
Lemma rounded_grace_steps (rnd : Rand) (k : nat) (lc : LevelConfig)
      (tg : Target.t) (n : nat) :
  unit_interval rnd -> playable lc ->
  nearSpawnVolume (/ 2 ^ 40) lc (positionOf tg) ->
  Target.speed tg = targetSpeed lc ->
  let c := Vector3.zero in
  let tn := fst (roundedUpdates fl rnd n k c lc tg) in
  inPlay fl tn /\
  Target.speed tn = targetSpeed lc /\
  Target.levelConfig tn = Target.levelConfig tg /\
  5 - / 2 ^ 30 - INR n * (targetSpeed lc + / 2 ^ 33)
  <= roundedDistance fl tn c.
Proof.
  intros Hr Hlc Hnear Hs c tn. unfold tn, c. clear tn c.
  assert (0 < / 2 ^ 33) as H33 by (apply Rinv_0_lt_compat, pow_lt; lra).
  assert (0 < targetSpeed lc) as Hpos.
  { destruct Hlc as (_ & _ & _ & _ & Hl & _).
    assert (0 < / 2 ^ 32) by (apply Rinv_0_lt_compat, pow_lt; lra). lra. }
  induction n as [| n IH].
  - cbn [roundedUpdates fst INR].
    destruct (spawned_inPlay fl Hfl lc tg Hlc Hnear Hs) as [Hin H5].
    split; [exact Hin | split; [exact Hs | split; [reflexivity |]]]. lra.
  - cbn [roundedUpdates].
    destruct (roundedUpdates fl rnd n k Vector3.zero lc tg) as [t kn].
    cbn [fst] in IH |- *. destruct IH as (Iin & Is & Il & Id).
    destruct (update_inPlay fl Hfl rnd kn lc t Hr Hlc Iin) as (H1 & H2 & H3).
    split; [exact H1 |]. rewrite S_INR.
    pose proof (pos_INR n) as Hn0.
    destruct (Rounded.mustRespawn fl Vector3.zero
                (Rounded.advance fl Vector3.zero t)) eqn:Hm.
    + destruct (H2 eq_refl) as (_ & Hs' & Hl' & _ & H5).
      split; [exact Hs' | split; [congruence |]]. nra.
    + destruct (H3 eq_refl) as (_ & Hs' & Hl' & _ & Hd).
      split; [congruence | split; [congruence |]].
      apply Rabs_bounds in Hd. rewrite Is in Hd. nra.
Qed.

(** X3.  A target that has just been spawned cannot hit the player at
    once, in the arithmetic of the code up to rounding: started within
    2^-40 of the spawn volume of a playable level at the level's speed,
    after [n] updates with the player at the origin (respawns included)
    its computed distance is at least
    5 - 2^-30 - n * (speed + 2^-33), and it does not collide as long as
    that bound is not below the collision distance of its level. *)
Theorem spawn_grace_period (rnd : Rand) (k : nat) (lc : LevelConfig)
        (tg : Target.t) (n : nat) :
  unit_interval rnd -> playable lc ->
  nearSpawnVolume (/ 2 ^ 40) lc (positionOf tg) ->
  Target.speed tg = targetSpeed lc ->
  let c := Vector3.zero in
  let tn := fst (roundedUpdates fl rnd n k c lc tg) in
  let bound := 5 - / 2 ^ 30 - INR n * (targetSpeed lc + / 2 ^ 33) in
  bound <= roundedDistance fl tn c /\
  (collisionDistance (Target.levelConfig tg) <= bound ->
   Rounded.checkCollision fl tn c = false).
Proof.
  intros Hr Hlc Hnear Hs c tn bound.
  destruct (rounded_grace_steps rnd k lc tg n Hr Hlc Hnear Hs)
    as (_ & _ & Hl & Hd).
  fold c tn bound in Hl, Hd. split; [exact Hd |].
  intros Hc. unfold c. rewrite checkCollision_by_distance. fold c.
  rewrite Hl. apply ltb_false. lra.
Qed.

End RoundedApproach.

Section RoundedApproachInstances.
Import Levels.
Local Open Scope R_scope.

Lemma professional_playable : playable professional.
Proof.
  split; [unfold positiveRange; cbn; lra |]. cbn.
  assert (0 < / 2 ^ 32) by (apply Rinv_0_lt_compat, pow_lt; lra).
  assert (/ 2 ^ 32 <= / 2 ^ 4)
    by (apply Rinv_le_contravar; [apply pow_lt; lra |];
        apply Rle_pow; [lra | lia]).
  lra.
Qed.

Lemma straight_approach_witness :
  let c := Vector3.zero in
  let tg := targetAt 0 beginner (Vector3.mk 0 0 (-10)) 0.05 in
  let tn := fst (roundedUpdates unrounded rnd0 3 0 c beginner tg) in
  snd (roundedUpdates unrounded rnd0 3 0 c beginner tg) = 0%nat /\
  Rabs (roundedDistance unrounded tn c - 9.85) <= 3 / 2 ^ 33 /\
  Rounded.checkCollision unrounded tn c = false.
Proof.
  intros c tg tn.
  assert (distanceOf tg Vector3.zero = 10) as Hd.
  { unfold Vector3.zero. rewrite (distanceOf_on_axis 0 (-10) tg eq_refl).
    rewrite Rabs_left; lra. }
  assert (inPlay unrounded tg) as Hin.
  { unfold inPlay. rewrite unrounded_distance, Hd. cbn.
    rewrite Rabs_R0, Rabs_left by lra.
    assert (0 < / 2 ^ 32) by (apply Rinv_0_lt_compat, pow_lt; lra).
    assert (/ 2 ^ 32 <= / 2 ^ 4)
      by (apply Rinv_le_contravar; [apply pow_lt; lra |];
          apply Rle_pow; [lra | lia]).
    lra. }
  assert (snd (roundedUpdates unrounded rnd0 3 0 c beginner tg) = 0%nat)
    as Hk.
  { rewrite unrounded_updates.
    apply (approach_steps rnd0 0 beginner tg 3); [cbn; lra | cbn; lra |].
    rewrite Hd. cbn. lra. }
  split; [exact Hk |].
  destruct (straight_approach unrounded unrounded_binary64 rnd0 0 beginner
                              tg 3 rnd0_unit beginner_playable Hin Hk)
    as (_ & H2 & _ & H4).
  fold c tn in H2, H4.
  assert (0 < / 2 ^ 33) as H33 by (apply Rinv_0_lt_compat, pow_lt; lra).
  assert (roundedDistance unrounded tg c = 10) as Hd'
      by (rewrite unrounded_distance; exact Hd).
  rewrite Hd' in H2, H4.
  change (Target.speed tg) with 0.05 in H2, H4.
  change (collisionDistance (Target.levelConfig tg)) with 3.0 in H4.
  cbn [INR] in H2, H4.
  split.
  - replace 9.85 with (10 - (1 + 1 + 1) * 0.05) by lra.
    replace (3 / 2 ^ 33) with ((1 + 1 + 1) / 2 ^ 33) by (f_equal; lra).
    exact H2.
  - apply H4. unfold Rdiv. lra.
Defined.

Lemma spawn_grace_period_witness :
  let c := Vector3.zero in
  let tg := targetAt 0 professional (Vector3.mk 0 1 (-5)) 0.15 in
  let tn := fst (roundedUpdates unrounded rnd0 13 0 c professional tg) in
  Rounded.checkCollision unrounded tn c = false.
Proof.
  intros c tg tn.
  assert (0 < / 2 ^ 40) as H40 by (apply Rinv_0_lt_compat, pow_lt; lra).
  assert (nearSpawnVolume (/ 2 ^ 40) professional (positionOf tg)) as Hv
      by (unfold nearSpawnVolume; cbn; lra).
  destruct (spawn_grace_period unrounded unrounded_binary64 rnd0 0
                               professional tg 13 rnd0_unit
                               professional_playable Hv eq_refl)
    as (_ & H2).
  apply H2. cbn.
  assert (0 < / 2 ^ 30) as H30 by (apply Rinv_0_lt_compat, pow_lt; lra).
  assert (/ 2 ^ 30 <= / 2 ^ 10)
    by (apply Rinv_le_contravar; [apply pow_lt; lra |];
        apply Rle_pow; [lra | lia]).
  assert (/ 2 ^ 33 <= / 2 ^ 10)
    by (apply Rinv_le_contravar; [apply pow_lt; lra |];
        apply Rle_pow; [lra | lia]).
  assert (0 < / 2 ^ 33) by (apply Rinv_0_lt_compat, pow_lt; lra).
  lra.
Defined.

End RoundedApproachInstances.

(** ** Every event, field by field *)

Section Reach.
Import Levels Main.
Local Open Scope string_scope.

Lemma iter_collisionEnds_rest (n : nat) (s : State) :
  shootSounds (Nat.iter n collisionEnds s) = shootSounds s /\
  currentSoundIndex (Nat.iter n collisionEnds s) = currentSoundIndex s /\
  sceneMeshes (Nat.iter n collisionEnds s) = sceneMeshes s /\
  nextUuid (Nat.iter n collisionEnds s) = nextUuid s /\
  UIManager.timerText (ui (Nat.iter n collisionEnds s)) =
  UIManager.timerText (ui s) /\
  UIManager.scoreText (ui (Nat.iter n collisionEnds s)) =
  UIManager.scoreText (ui s) /\
  UIManager.countdownText (ui (Nat.iter n collisionEnds s)) =
  UIManager.countdownText (ui s) /\
  UIManager.crosshairDisplay (ui (Nat.iter n collisionEnds s)) =
  UIManager.crosshairDisplay (ui s) && Nat.eqb n 0.
Proof.
  induction n as [| n IH]; simpl.
  - rewrite andb_true_r. repeat split.
  - destruct IH as (H1 & H2 & H3 & H4 & H5 & H6 & H7 & H8).
    rewrite andb_false_r. repeat split; assumption.
Qed.

(** The state a level button leaves behind. *)
Lemma onLevelClick_state (rnd : Rand) (level : LevelConfig) (s : State) :
  let n := Z.to_nat (targetCount level) in
  let fresh := newTargets rnd level n (randomCalls s) (nextUuid s) in
  onLevelClick rnd level s =
  mkState
    (mkGameState level 0 (gameTime level) (isPlaying (gameState s)) true 5)
    (isLocked s) (cameraPosition s)
    (filter (fun m => negb (existsb (Nat.eqb m) (map meshOf (targets s))))
            (sceneMeshes s) ++ map meshOf (fst fresh))
    (fst fresh) (nextUuid s + n) (shootSounds s) (currentSoundIndex s)
    (S (nextHandle s))
    (intervals s ++ [mkTimer (nextHandle s) 1000 CountdownStep])
    (timeouts s)
    (UIManager.mk false true (UIManager.crosshairDisplay (ui s))
                  ("Score: " ++ showZ 0)
                  ("Time: " ++ formatTime (gameTime level)) (showZ 5))
    (snd fresh)
    (if isLocked s then effects s else effects s ++ [ControlsLock]).
Proof.
  intros n fresh. subst n fresh.
  destruct s as [g lk cam sc ts0 id sounds idx nh iv tm u k0 ef].
  unfold onLevelClick, startCountdown, createTargets. fields.
  destruct (newTargets rnd level (Z.to_nat (targetCount level)) k0 id)
    as [ts k].
  destruct lk; reflexivity.
Qed.

(** The second ['unlock'] listener finds [isPlaying] cleared. *)
Lemma onUnlock2_idle (s : State) : onUnlock2 (onUnlock1 s) = onUnlock1 s.
Proof.
  unfold onUnlock2, onUnlock1. fields.
  destruct (isPlaying (gameState s)) eqn:Hp; fields; rewrite ?Hp;
    reflexivity.
Qed.

End Reach.

(** ** The pool of shot sounds *)

Section Sound.
Import Levels Main.

Lemma soundIndexOk_same (s s' : State) :
  shootSounds s' = shootSounds s ->
  currentSoundIndex s' = currentSoundIndex s ->
  soundIndexOk s -> soundIndexOk s'.
Proof. unfold soundIndexOk. intros -> ->. exact (fun H => H). Qed.

Lemma playShootSound_index (s : State) :
  soundIndexOk s -> soundIndexOk (playShootSound s).
Proof.
  unfold soundIndexOk, playShootSound.
  destruct (shootSounds s) as [[| len] |] eqn:Hs; fields; rewrite ?Hs;
    auto.
  intros _. left. apply Nat.mod_upper_bound. discriminate.
Qed.

Lemma soundIndexOk_step (rnd : Rand) (e : Event) (s : State) :
  soundIndexOk s -> soundIndexOk (dispatch rnd e s).
Proof.
  intros H.
  destruct e as [level | h | h | intersects | | [|] | |]; cbn [dispatch].
  - rewrite onLevelClick_state. revert H. apply soundIndexOk_same;
      reflexivity.
  - destruct (findTimer h (intervals s)) as [t |]; [| exact H].
    destruct (callback t).
    + unfold updateTimer, endGame.
      destruct (isPlaying (gameState s)); fields; [| exact H].
      destruct (timeLeft (gameState s) - 1 <=? 0)%Z; revert H;
        apply soundIndexOk_same; reflexivity.
    + unfold countdownStep. fields.
      destruct (countdown (gameState s) - 1 <=? 0)%Z; revert H;
        apply soundIndexOk_same; reflexivity.
  - destruct (findTimer h (timeouts s)) as [t |]; [| exact H].
    destruct (callback t) as [| | m];
      [revert H; apply soundIndexOk_same; reflexivity .. |].
    unfold respawnHit. fields.
    destruct (respawnMesh rnd (randomCalls s) (currentLevel (gameState s)) m
                (colorMesh m (color (currentLevel (gameState s)))
                           (targets s))) as [ts2 k].
    revert H. apply soundIndexOk_same; reflexivity.
  - unfold onClick.
    destruct (negb (isPlaying (gameState s)) || negb (isLocked s));
      [exact H |].
    apply playShootSound_index in H.
    destruct intersects as [| hit rest]; [exact H |].
    revert H. apply soundIndexOk_same; reflexivity.
  - destruct (isPlaying (gameState s)) eqn:Hp.
    + rewrite (animate_closed rnd s Hp).
      destruct (iter_collisionEnds_rest (collisionsIn rnd s (targets s)) s)
        as (H1 & H2 & _).
      revert H. apply soundIndexOk_same; fields; assumption.
    + unfold animate. rewrite Hp. exact H.
  - revert H. apply soundIndexOk_same; reflexivity.
  - rewrite onUnlock2_idle. unfold onUnlock1. fields.
    destruct (isPlaying (gameState s)); revert H;
      apply soundIndexOk_same; reflexivity.
  - unfold soundIndexOk in *.
    destruct (shootSounds s) as [len |] eqn:Hs; fields; rewrite ?Hs;
      [| exact I].
    left. unfold MAX_SOUNDS. lia.
  - unfold soundIndexOk. fields. exact I.
Qed.

Lemma soundIndexOk_run (rnd : Rand) (evs : list Event) :
  forall s : State, soundIndexOk s -> soundIndexOk (run rnd evs s).
Proof.
  induction evs as [| e evs IH]; intros s H; [exact H |].
  apply (IH (dispatch rnd e s)), soundIndexOk_step, H.
Qed.

(** X4.  The index into the pool of shot sounds never leaves the pool:
    in every state reached from the loaded page in which the pool holds
    [len] sounds, [currentSoundIndex] is below [len]; a shot then plays
    the sound at that index and nothing else, and moves the index on by
    one, back to 0 after the last. *)
Theorem sound_index_in_range (rnd : Rand) (evs : list Event) (len : nat) :
  shootSounds (run rnd evs loaded) = SoundArray len -> (0 < len)%nat ->
  let s := run rnd evs loaded in
  (currentSoundIndex s < len)%nat /\
  (forall intersects : list Intersection,
      isPlaying (gameState s) = true -> isLocked s = true ->
      effects (onClick intersects s) =
      effects s ++ [PlaySound (currentSoundIndex s)] /\
      currentSoundIndex (onClick intersects s) =
      ((currentSoundIndex s + 1) mod len)%nat /\
      shootSounds (onClick intersects s) = SoundArray len).
Proof.
  intros Hs Hlen s.
  assert (soundIndexOk s) as H
      by (apply soundIndexOk_run; unfold soundIndexOk; cbn; right;
          split; reflexivity).
  fold s in Hs. unfold soundIndexOk in H. rewrite Hs in H.
  split; [lia |].
  intros intersects Hp Hl. unfold onClick, playShootSound.
  rewrite Hp, Hl, Hs. cbn [negb orb].
  destruct len as [| len']; [lia |].
  destruct intersects as [| hit rest]; fields; repeat split.
Qed.

Lemma sound_index_in_range_witness :
  let s := run rnd0 [AudioLoaded; LevelClick beginner;
                     PointerLockChange true; IntervalFires 2;
                     IntervalFires 2; IntervalFires 2; IntervalFires 2;
                     IntervalFires 2; Click []; Click []; Click [];
                     Click []; Click []; Click []] loaded in
  currentSoundIndex s = 1%nat /\ (currentSoundIndex s < 5)%nat.
Proof.
  intros s. split; [lazy; reflexivity |].
  refine (proj1 (sound_index_in_range rnd0 _ 5 _ _)).
  - lazy. reflexivity.
  - lia.
Defined.

End Sound.

(** ** Leaving the pointer lock *)

Section Unlock.
Import Levels Main.
Local Open Scope string_scope.

(** X5.  Losing the pointer lock during a match abandons it: the match
    stops where it is, with its score and clock, the crosshair goes and
    the level selector comes back, but no summary is scheduled or shown;
    from then on clicks, frames and clock ticks do nothing.  The second
    ['unlock'] listener never has anything left to do, and outside a
    match the event is only logged. *)
Theorem unlock_abandons_match (rnd : Rand) (s : State) :
  let s' := dispatch rnd (PointerLockChange false) s in
  s' = onUnlock1 (setIsLocked false s) /\
  (isPlaying (gameState s) = true ->
   gameState s' = setIsPlaying false (gameState s) /\
   isLocked s' = false /\
   UIManager.crosshairDisplay (ui s') = false /\
   UIManager.levelSelectorDisplay (ui s') = true /\
   timeouts s' = timeouts s /\ intervals s' = intervals s /\
   targets s' = targets s /\
   effects s' = (effects s ++ [ConsoleLog "Pointer unlocked."])%list /\
   (forall intersects, onClick intersects s' = s') /\
   animate rnd s' = s' /\ updateTimer s' = s') /\
  (isPlaying (gameState s) = false ->
   s' = emit (ConsoleLog "Pointer unlocked.") (setIsLocked false s)).
Proof.
  intros s'. subst s'. cbn [dispatch]. rewrite onUnlock2_idle.
  split; [reflexivity |]. unfold onUnlock1. fields.
  split; intros Hp; rewrite Hp; [| reflexivity].
  unfold onClick, animate, updateTimer. fields. repeat split.
Qed.

Lemma unlock_abandons_match_witness :
  let s' := dispatch rndCycle (PointerLockChange false) aiming in
  isPlaying (gameState s') = false /\ timeouts s' = timeouts aiming /\
  updateTimer s' = s'.
Proof.
  intros s'.
  assert (isPlaying (gameState aiming) = true) as Hp
      by (lazy; reflexivity).
  pose proof (proj1 (proj2 (unlock_abandons_match rndCycle aiming)) Hp)
    as (Hg & _ & _ & _ & Ht & _ & _ & _ & _ & _ & Hu).
  fold s' in Hg, Ht, Hu. rewrite Hg. exact (conj eq_refl (conj Ht Hu)).
Defined.

End Unlock.

(** ** The score and the countdown flag over a whole run *)

Section Tally.
Import Levels Main.
Local Open Scope Z_scope.

Lemma interval_gameState (rnd : Rand) (h : nat) (s : State) :
  let g := gameState s in
  let g' := gameState (dispatch rnd (IntervalFires h) s) in
  currentLevel g' = currentLevel g /\ score g' = score g /\
  isCountdown g' = isCountdown g.
Proof.
  cbn [dispatch].
  destruct (findTimer h (intervals s)) as [t |]; [| repeat split].
  destruct (callback t).
  - destruct (isPlaying (gameState s)) eqn:Hp.
    + destruct (updateTimer_playing s Hp) as (Hg & _). rewrite Hg.
      repeat split.
    + rewrite (updateTimer_idle s Hp). repeat split.
  - destruct (countdownStep_spec h s) as (Hg & _). rewrite Hg.
    repeat split.
Qed.

Lemma miss_keeps_score (rnd : Rand) (e : Event) (s : State) :
  inMatch e = true -> isShot e = false ->
  score (gameState (dispatch rnd e s)) = score (gameState s).
Proof.
  destruct e as [level | h | h | intersects | | [|] | |]; cbn [inMatch];
    try discriminate; intros _ Hshot.
  - apply interval_gameState.
  - cbn [dispatch].
    destruct (findTimer h (timeouts s)) as [t |]; [| reflexivity].
    destruct (callback t) as [| | m]; [reflexivity .. |].
    destruct (respawnHit_frame rnd m (dropTimeout h s)) as (Hg & _).
    rewrite Hg. reflexivity.
  - destruct intersects as [| hit rest]; [| discriminate].
    cbn [dispatch]. unfold onClick.
    destruct (negb (isPlaying (gameState s)) || negb (isLocked s));
      [reflexivity |].
    destruct (playShootSound_frame s) as (Hg & _). rewrite Hg.
    reflexivity.
  - cbn [dispatch]. destruct (isPlaying (gameState s)) eqn:Hp.
    + rewrite (animate_closed rnd s Hp). fields.
      apply iter_collisionEnds_frame.
    + unfold animate. rewrite Hp. reflexivity.
  - reflexivity.
  - cbn [dispatch]. rewrite onUnlock2_idle. unfold onUnlock1. fields.
    destruct (isPlaying (gameState s)); reflexivity.
  - cbn [dispatch]. destruct (shootSounds s); reflexivity.
  - reflexivity.
Qed.

Lemma score_step (rnd : Rand) (e : Event) (s : State) :
  let s' := dispatch rnd e s in
  (inMatch e = false -> score (gameState s') = 0) /\
  (inMatch e = true ->
   score (gameState s) <= score (gameState s') <=
   score (gameState s) + (if isShot e then 1 else 0)).
Proof.
  intros s'. subst s'. split; intros Hm.
  - destruct e; try discriminate. cbn [dispatch].
    rewrite onLevelClick_state. reflexivity.
  - destruct (isShot e) eqn:Hs.
    + destruct e as [| | | intersects | | | |]; try discriminate.
      apply (onClick_quiet intersects s).
    + rewrite (miss_keeps_score rnd e s Hm Hs). lia.
Qed.

(** X6.  The score counts shots that had a target under the crosshair:
    over any sequence of events it stays non-negative and never exceeds
    the starting score plus the number of such clicks, and as long as no
    new level is chosen it never goes down. *)
Theorem score_bounded_by_shots (rnd : Rand) (evs : list Event) :
  forall s : State,
    0 <= score (gameState s) ->
    let s' := run rnd evs s in
    0 <= score (gameState s') <=
    score (gameState s) + Z.of_nat (shots evs) /\
    (allInMatch evs -> score (gameState s) <= score (gameState s')).
Proof.
  induction evs as [| e evs IH]; intros s H0 s'; subst s'.
  - cbn. split; [lia | intros _; lia].
  - change (run rnd (e :: evs) s) with (run rnd evs (dispatch rnd e s)).
    destruct (score_step rnd e s) as [Hl Hm].
    assert (0 <= score (gameState (dispatch rnd e s)) <=
            score (gameState s) + (if isShot e then 1 else 0)) as Hstep.
    { destruct (inMatch e) eqn:He.
      - specialize (Hm eq_refl). lia.
      - rewrite (Hl eq_refl). destruct (isShot e); lia. }
    destruct (IH (dispatch rnd e s) (proj1 Hstep)) as [Hb Hmono].
    unfold shots in *. cbn [filter].
    split.
    + destruct (isShot e); cbn [List.length] in *; lia.
    + intros Hall. inversion Hall as [| e' evs' He Hrest]; subst.
      specialize (Hm He). specialize (Hmono Hrest). lia.
Qed.

Lemma score_bounded_by_shots_witness :
  let s' := run rndCycle [Click [mkIntersection 4.2 0]; Click [];
                          AnimationFrame; IntervalFires 1] aiming in
  0 <= score (gameState s') <= 1.
Proof.
  intros s'.
  assert (score (gameState aiming) = 0) as H0 by (lazy; reflexivity).
  assert (0 <= score (gameState aiming)) as Hs by (rewrite H0; lia).
  pose proof (proj1 (score_bounded_by_shots rndCycle
                       [Click [mkIntersection 4.2 0]; Click [];
                        AnimationFrame; IntervalFires 1] aiming Hs)) as H.
  fold s' in H. rewrite H0 in H. exact H.
Defined.

(** X7.  [isCountdown] is set by the first choice of a level and is never
    cleared again, neither by the end of the countdown nor by the end of
    the match: after any events it is set exactly if it was set before
    or a level has been chosen meanwhile. *)
Theorem isCountdown_never_cleared (rnd : Rand) (evs : list Event) :
  forall s : State,
    isCountdown (gameState (run rnd evs s)) =
    isCountdown (gameState s) || existsb (fun e => negb (inMatch e)) evs.
Proof.
  induction evs as [| e evs IH]; intros s.
  - cbn. rewrite orb_false_r. reflexivity.
  - change (run rnd (e :: evs) s) with (run rnd evs (dispatch rnd e s)).
    rewrite IH. cbn [existsb].
    destruct e as [level | h | h | intersects | | locked | |];
      cbn [inMatch negb orb].
    + cbn [dispatch]. rewrite onLevelClick_state. cbn.
      rewrite orb_true_r. reflexivity.
    + destruct (interval_gameState rnd h s) as (_ & _ & ->). reflexivity.
    + destruct (quiet_event rnd (TimeoutFires h) s eq_refl)
        as (_ & _ & _ & _ & -> & _). reflexivity.
    + destruct (quiet_event rnd (Click intersects) s eq_refl)
        as (_ & _ & _ & _ & -> & _). reflexivity.
    + destruct (quiet_event rnd AnimationFrame s eq_refl)
        as (_ & _ & _ & _ & -> & _). reflexivity.
    + destruct (quiet_event rnd (PointerLockChange locked) s eq_refl)
        as (_ & _ & _ & _ & -> & _). reflexivity.
    + destruct (quiet_event rnd AudioLoaded s eq_refl)
        as (_ & _ & _ & _ & -> & _). reflexivity.
    + destruct (quiet_event rnd AudioFailed s eq_refl)
        as (_ & _ & _ & _ & -> & _). reflexivity.
Qed.

End Tally.

(** ** The end of the time *)

Section TimeUp.
Import Levels Main.
Local Open Scope Z_scope.
Local Open Scope string_scope.

Lemma endGame_tick (s : State) :
  isPlaying (gameState s) = true -> timeLeft (gameState s) <= 1 ->
  effects (updateTimer s) = (effects s ++ [ControlsUnlock])%list /\
  UIManager.crosshairDisplay (ui (updateTimer s)) = false /\
  UIManager.timerText (ui (updateTimer s)) =
  "Time: " ++ formatTime (timeLeft (gameState s) - 1) /\
  nextHandle (updateTimer s) = S (nextHandle s).
Proof.
  intros Hp Hle. unfold updateTimer, endGame. rewrite Hp. fields.
  assert ((timeLeft (gameState s) - 1 <=? 0)%Z = true) as ->
      by (apply Z.leb_le; lia).
  repeat split.
Qed.

(** X8.  When the clock of a match reaches zero the match ends without
    the score changing, the pointer is released, the crosshair hidden and
    one summary scheduled; whatever happens in between (short of a new
    level), that timeout shows the time-up summary with the final score
    and the name of the level, and brings the level selector back. *)
Theorem time_up_summary (rnd : Rand) (level : LevelConfig) (s0 : State)
        (evs : list Event) :
  betweenMatches s0 -> allInMatch evs ->
  let s := run rnd evs (onLevelClick rnd level s0) in
  phase s = Active -> timeLeft (gameState s) <= 1 ->
  let s' := updateTimer s in
  let h := nextHandle s in
  let text :=
    "Game Over!" ++ nl ++ "Time's up!" ++ nl ++
    "Final Score: " ++ showZ (score (gameState s)) ++ nl ++
    "Level: " ++ name level in
  phase s' = Ended /\
  score (gameState s') = score (gameState s) /\
  effects s' = (effects s ++ [ControlsUnlock])%list /\
  UIManager.crosshairDisplay (ui s') = false /\
  findTimer h (timeouts s') = Some (mkTimer h 500 TimeUpAlert) /\
  (forall evs2 : list Event,
      allInMatch evs2 -> ~ In (TimeoutFires h) evs2 ->
      let s2 := run rnd evs2 s' in
      effects (dispatch rnd (TimeoutFires h) s2) =
      (effects s2 ++ [Alert text])%list /\
      UIManager.levelSelectorDisplay
        (ui (dispatch rnd (TimeoutFires h) s2)) = true).
Proof.
  intros Hb Hall s Hp Hle s' h text.
  pose proof (match_run_fresh rnd level s0 evs Hb) as (_ & Hf). fold s in Hf.
  pose proof (MatchInv_start rnd level s0 Hb) as Inv0.
  destruct (MatchInv_run rnd level (nextHandle s0) evs 0 _ Hall Inv0)
    as (Inv & _).
  fold s in Inv. destruct Inv as (I1 & I2 & _ & I4).
  apply phase_active in Hp.
  assert (countingDown s = false) as Hcd.
  { destruct I4 as [(_ & _ & A3 & _) | (_ & _ & B3 & _)];
      [congruence | exact B3]. }
  destruct (updateTimer_playing s Hp) as (Hg & Hi & Ht).
  destruct (endGame_tick s Hp Hle) as (He & Hc & _).
  fold s' in Hg, Hi, Ht, He, Hc.
  assert ((timeLeft (gameState s) - 1 <=? 0)%Z = true) as Hz
      by (apply Z.leb_le; lia).
  rewrite Hz in Hg, Ht. cbn [negb] in Hg.
  assert (isPlaying (gameState s') = false) as Hp'
      by (rewrite Hg; reflexivity).
  assert (countingDown s' = false) as Hcd'
      by (unfold countingDown in *; rewrite Hi; exact Hcd).
  assert (findTimer h (timeouts s') = Some (mkTimer h 500 TimeUpAlert))
    as Hfind.
  { rewrite Ht.
    apply (findTimer_fresh (timeouts s) (mkTimer h 500 TimeUpAlert)).
    exact Hf. }
  split; [| split; [| split; [exact He | split; [exact Hc |
                                                 split; [exact Hfind |]]]]].
  - unfold phase. rewrite Hp', Hcd', Hg. cbn [isCountdown]. rewrite I2.
    reflexivity.
  - rewrite Hg. reflexivity.
  - intros evs2 Hall2 Hno s2.
    destruct (over_run rnd h evs2 s' Hall2 Hno Hp' Hcd') as (Hg2 & Hf2).
    fold s2 in Hg2, Hf2. rewrite Hfind in Hf2.
    cbn [dispatch]. rewrite Hf2. cbn [callback].
    unfold timeUpAlert. fields.
    rewrite Hg2, Hg. unfold summary. cbn [score currentLevel]. rewrite I1.
    split; reflexivity.
Qed.

Lemma time_up_summary_witness :
  let s := run rnd0 (quietMatch 89) (onLevelClick rnd0 beginner loaded) in
  phase (updateTimer s) = Ended /\
  effects (dispatch rnd0 (TimeoutFires 3)
             (run rnd0 [AnimationFrame] (updateTimer s))) =
  (effects (run rnd0 [AnimationFrame] (updateTimer s)) ++
   [Alert ("Game Over!" ++ nl ++ "Time's up!" ++ nl ++
           "Final Score: 0" ++ nl ++ "Level: Beginner")])%list.
Proof.
  intros s.
  assert (phase s = Active) as Hp by (lazy; reflexivity).
  assert (timeLeft (gameState s) = 1) as Ht by (lazy; reflexivity).
  assert (timeLeft (gameState s) <= 1) as Hle by (rewrite Ht; lia).
  assert (score (gameState s) = 0) as Hs by (lazy; reflexivity).
  assert (nextHandle s = 3%nat) as Hh by (lazy; reflexivity).
  pose proof (time_up_summary rnd0 beginner loaded (quietMatch 89)
                loaded_betweenMatches (quietMatch_inMatch 89) Hp Hle) as H.
  cbv zeta in H. fold s in H. rewrite Hh, Hs in H.
  destruct H as (H1 & _ & _ & _ & _ & H6).
  assert (allInMatch [AnimationFrame]) as Ha by (repeat constructor).
  assert (~ In (TimeoutFires 3) [AnimationFrame]) as Hno
      by (intros [E | []]; discriminate E).
  split; [exact H1 |].
  exact (proj1 (H6 [AnimationFrame] Ha Hno)).
Defined.

End TimeUp.

(** ** What the HUD shows *)

Section Hud.
Import Levels Main.
Local Open Scope string_scope.

Ltac hud H :=
  unfold hudShows in *; fields; destruct H as (? & ? & ?);
  repeat split; first [reflexivity | assumption].

Lemma hudShows_step (rnd : Rand) (e : Event) (s : State) :
  hudShows s -> hudShows (dispatch rnd e s).
Proof.
  intros H.
  destruct e as [level | h | h | intersects | | [|] | |]; cbn [dispatch].
  - rewrite onLevelClick_state. unfold hudShows. fields. repeat split.
  - destruct (findTimer h (intervals s)) as [t |]; [| exact H].
    destruct (callback t).
    + unfold updateTimer, endGame.
      destruct (isPlaying (gameState s)); fields; [| exact H].
      destruct (timeLeft (gameState s) - 1 <=? 0)%Z; hud H.
    + unfold countdownStep. fields.
      destruct (countdown (gameState s) - 1 <=? 0)%Z; hud H.
  - destruct (findTimer h (timeouts s)) as [t |]; [| exact H].
    destruct (callback t) as [| | m]; [hud H .. |].
    unfold respawnHit. fields.
    destruct (respawnMesh rnd (randomCalls s) (currentLevel (gameState s)) m
                (colorMesh m (color (currentLevel (gameState s)))
                           (targets s))) as [ts2 k].
    hud H.
  - unfold onClick.
    destruct (negb (isPlaying (gameState s)) || negb (isLocked s));
      [exact H |].
    destruct (playShootSound_frame s) as (Hg & _ & _ & _ & _ & _ & Hu & _).
    destruct intersects as [| hit rest];
      unfold hudShows in *; fields; rewrite ?Hg, ?Hu;
      destruct H as (? & ? & ?); repeat split;
      first [reflexivity | assumption].
  - destruct (isPlaying (gameState s)) eqn:Hp.
    + rewrite (animate_closed rnd s Hp).
      destruct (iter_collisionEnds_rest (collisionsIn rnd s (targets s)) s)
        as (_ & _ & _ & _ & R5 & R6 & R7 & _).
      destruct (iter_collisionEnds_frame (collisionsIn rnd s (targets s)) s)
        as (_ & _ & F3 & F4 & F5 & _).
      unfold hudShows in *. fields. rewrite R5, R6, R7, F3, F4, F5.
      exact H.
    + unfold animate. rewrite Hp. exact H.
  - hud H.
  - rewrite onUnlock2_idle. unfold onUnlock1. fields.
    destruct (isPlaying (gameState s)); hud H.
  - destruct (shootSounds s); hud H.
  - hud H.
Qed.

Lemma crosshair_step (rnd : Rand) (e : Event) (s : State) :
  UIManager.crosshairDisplay (ui s) = isPlaying (gameState s) ->
  UIManager.crosshairDisplay (ui (dispatch rnd e s)) =
  isPlaying (gameState (dispatch rnd e s)).
Proof.
  intros H.
  destruct e as [level | h | h | intersects | | [|] | |]; cbn [dispatch].
  - rewrite onLevelClick_state. exact H.
  - destruct (findTimer h (intervals s)) as [t |]; [| exact H].
    destruct (callback t).
    + unfold updateTimer, endGame.
      destruct (isPlaying (gameState s)) eqn:Hp; fields; [| congruence].
      destruct (timeLeft (gameState s) - 1 <=? 0)%Z; fields;
        [reflexivity | congruence].
    + unfold countdownStep. fields.
      destruct (countdown (gameState s) - 1 <=? 0)%Z; fields;
        [reflexivity | exact H].
  - destruct (findTimer h (timeouts s)) as [t |]; [| exact H].
    destruct (callback t) as [| | m]; [exact H .. |].
    unfold respawnHit. fields.
    destruct (respawnMesh rnd (randomCalls s) (currentLevel (gameState s)) m
                (colorMesh m (color (currentLevel (gameState s)))
                           (targets s))) as [ts2 k].
    exact H.
  - unfold onClick.
    destruct (negb (isPlaying (gameState s)) || negb (isLocked s));
      [exact H |].
    destruct (playShootSound_frame s) as (Hg & _ & _ & _ & _ & _ & Hu & _).
    destruct intersects as [| hit rest]; fields; rewrite ?Hg, ?Hu;
      exact H.
  - destruct (isPlaying (gameState s)) eqn:Hp.
    + rewrite (animate_closed rnd s Hp).
      destruct (iter_collisionEnds_rest (collisionsIn rnd s (targets s)) s)
        as (_ & _ & _ & _ & _ & _ & _ & R8).
      destruct (iter_collisionEnds_frame (collisionsIn rnd s (targets s)) s)
        as (_ & _ & _ & _ & _ & _ & _ & _ & _ & _ & _ & F12).
      fields. rewrite R8, F12, H, Hp. reflexivity.
    + unfold animate. rewrite Hp. congruence.
  - exact H.
  - rewrite onUnlock2_idle. unfold onUnlock1. fields.
    destruct (isPlaying (gameState s)) eqn:Hp; fields;
      [reflexivity | congruence].
  - destruct (shootSounds s); exact H.
  - exact H.
Qed.

(** X9.  The HUD shows the game state.  Once a level has been chosen,
    whatever the state before and whatever happens after, the timer text
    is the formatted [timeLeft], the score text is the score and the
    countdown text is the countdown.  The crosshair is shown exactly while
    a match is played, from any state in which that is so (as on a page
    that starts with the crosshair hidden). *)
Theorem hud_shows_game_state (rnd : Rand) (evs : list Event) (s : State) :
  let s' := run rnd evs s in
  (existsb (fun e => negb (inMatch e)) evs = true ->
   UIManager.timerText (ui s') =
   "Time: " ++ formatTime (timeLeft (gameState s')) /\
   UIManager.scoreText (ui s') =
   "Score: " ++ showZ (score (gameState s')) /\
   UIManager.countdownText (ui s') = showZ (countdown (gameState s'))) /\
  (UIManager.crosshairDisplay (ui s) = isPlaying (gameState s) ->
   UIManager.crosshairDisplay (ui s') = isPlaying (gameState s')).
Proof.
  revert s. induction evs as [| e evs IH]; intros s s'; subst s'.
  - split; [discriminate | exact (fun H => H)].
  - change (run rnd (e :: evs) s) with (run rnd evs (dispatch rnd e s)).
    destruct (IH (dispatch rnd e s)) as [I1 I2]. split.
    + cbn [existsb]. intros H. apply orb_true_iff in H.
      destruct H as [H | H]; [| exact (I1 H)].
      destruct e as [level | | | | | | |]; try discriminate H.
      assert (forall st : State, hudShows st -> hudShows (run rnd evs st))
        as Hrun.
      { clear. induction evs as [| e evs IH]; intros st Hst; [exact Hst |].
        apply (IH (dispatch rnd e st)), hudShows_step, Hst. }
      apply Hrun. cbn [dispatch]. rewrite onLevelClick_state.
      unfold hudShows. fields. repeat split.
    + intros Hc. apply I2, crosshair_step, Hc.
Qed.

Lemma hud_shows_game_state_witness :
  let s := run rnd0 (LevelClick beginner :: quietMatch 30) loaded in
  (UIManager.timerText (ui s) =
   "Time: " ++ formatTime (timeLeft (gameState s)) /\
   UIManager.timerText (ui s) = "Time: 1:00") /\
  UIManager.crosshairDisplay (ui s) = isPlaying (gameState s).
Proof.
  intros s.
  pose proof (hud_shows_game_state
                rnd0 (LevelClick beginner :: quietMatch 30) loaded)
    as [H1 H2].
  fold s in H1, H2.
  split; [split; [exact (proj1 (H1 eq_refl)) | lazy; reflexivity] |].
  exact (H2 eq_refl).
Defined.

End Hud.

(** ** The targets and the scene *)

Section Scene.
Import Levels Main.

Lemma update_meshOf (rnd : Rand) (k : nat) (c : Vector3.t)
      (lc : LevelConfig) (tg : Target.t) :
  meshOf (fst (Target.update rnd k c lc tg)) = meshOf tg.
Proof.
  unfold Target.update.
  destruct (Target.mustRespawn c (Target.advance c tg)); reflexivity.
Qed.

Lemma markHit_meshOf (c : Vector3.t) (tg : Target.t) :
  meshOf (markHit c tg) = meshOf tg.
Proof. unfold markHit. destruct (collides c tg); reflexivity. Qed.

Lemma updateAll_meshes (rnd : Rand) (c : Vector3.t) (lc : LevelConfig)
      (ts : list Target.t) :
  forall k : nat,
    map meshOf (map (markHit c) (fst (updateAll rnd k c lc ts))) =
    map meshOf ts.
Proof.
  induction ts as [| tg rest IH]; intros k; [reflexivity |].
  cbn [updateAll]. pose proof (update_meshOf rnd k c lc tg) as Hu.
  destruct (Target.update rnd k c lc tg) as [t1 k1].
  specialize (IH k1). destruct (updateAll rnd k1 c lc rest) as [r1 k2].
  cbn [fst map] in *. rewrite markHit_meshOf, Hu, IH. reflexivity.
Qed.

Lemma colorMesh_meshes (m : nat) (c : Z) (ts : list Target.t) :
  map meshOf (colorMesh m c ts) = map meshOf ts.
Proof.
  unfold colorMesh. rewrite map_map. apply map_ext. intros tg.
  destruct (Nat.eqb (meshOf tg) m); reflexivity.
Qed.

Lemma respawnMesh_meshes (rnd : Rand) (lc : LevelConfig) (m : nat)
      (ts : list Target.t) :
  forall k : nat,
    map meshOf (fst (respawnMesh rnd k lc m ts)) = map meshOf ts.
Proof.
  induction ts as [| tg rest IH]; intros k; [reflexivity |].
  cbn [respawnMesh]. destruct (Nat.eqb (meshOf tg) m); [reflexivity |].
  specialize (IH k). destruct (respawnMesh rnd k lc m rest) as [r k'].
  cbn [fst map] in *. rewrite IH. reflexivity.
Qed.

(** A mesh that no target holds: the callback of a hit finds nothing to
    paint and nothing to respawn. *)
Lemma colorMesh_absent (m : nat) (c : Z) (ts : list Target.t) :
  ~ In m (map meshOf ts) -> colorMesh m c ts = ts.
Proof.
  induction ts as [| tg rest IH]; intros Hn; [reflexivity |].
  cbn [colorMesh map] in *. unfold colorMesh in IH.
  rewrite IH by (intros Hx; apply Hn; right; exact Hx).
  destruct (Nat.eqb_spec (meshOf tg) m) as [E | _]; [| reflexivity].
  exfalso. apply Hn. left. exact E.
Qed.

Lemma respawnMesh_absent (rnd : Rand) (k : nat) (lc : LevelConfig) (m : nat)
      (ts : list Target.t) :
  ~ In m (map meshOf ts) -> respawnMesh rnd k lc m ts = (ts, k).
Proof.
  induction ts as [| tg rest IH]; intros Hn; [reflexivity |].
  cbn [respawnMesh map] in *.
  destruct (Nat.eqb_spec (meshOf tg) m) as [E | _];
    [exfalso; apply Hn; left; exact E |].
  rewrite IH by (intros Hx; apply Hn; right; exact Hx). reflexivity.
Qed.

Lemma newTargets_spec (rnd : Rand) (lc : LevelConfig) (n : nat) :
  forall k id : nat,
    snd (newTargets rnd lc n k id) = (k + 3 * n)%nat /\
    map meshOf (fst (newTargets rnd lc n k id)) = seq id n /\
    Forall (fun tg =>
              Target.levelConfig tg = lc /\
              Target.speed tg = targetSpeed lc /\
              (unit_interval rnd -> positiveRange lc ->
               Target.inSpawnVolume lc (positionOf tg)))
           (fst (newTargets rnd lc n k id)).
Proof.
  induction n as [| n IH]; intros k id.
  - cbn. split; [lia | split; [reflexivity | constructor]].
  - cbn [newTargets].
    pose proof (fun Hr Hp =>
                  respawn_position rnd k lc
                    (Target.mk lc
                       (Target.mkMesh id (targetSize lc) (color lc)
                                      Vector3.zero 0 0) 0) Hr Hp) as Hpos.
    change (Target.respawn rnd k lc
              (Target.mk lc
                 (Target.mkMesh id (targetSize lc) (color lc)
                                Vector3.zero 0 0) 0))
      with (Target.create rnd k id lc) in Hpos.
    assert (snd (Target.create rnd k id lc) = (k + 3)%nat /\
            meshOf (fst (Target.create rnd k id lc)) = id /\
            Target.levelConfig (fst (Target.create rnd k id lc)) = lc /\
            Target.speed (fst (Target.create rnd k id lc)) = targetSpeed lc)
      as (C1 & C2 & C3 & C4) by (repeat split).
    destruct (Target.create rnd k id lc) as [tg k1].
    cbn [fst snd] in *. subst k1.
    destruct (IH (k + 3)%nat (S id)) as (I1 & I2 & I3).
    destruct (newTargets rnd lc n (k + 3) (S id)) as [rest k2].
    cbn [fst snd map seq] in *.
    split; [lia |]. split; [rewrite C2, I2; reflexivity |].
    constructor; [| exact I3].
    split; [exact C3 | split; [exact C4 | exact Hpos]].
Qed.

Lemma filter_absent_self (l : list nat) :
  filter (fun m => negb (existsb (Nat.eqb m) l)) l = [].
Proof.
  assert (forall l' : list nat,
             incl l' l ->
             filter (fun m => negb (existsb (Nat.eqb m) l)) l' = [])
    as H.
  { induction l' as [| a l' IH]; intros Hi; [reflexivity |].
    cbn [filter].
    assert (existsb (Nat.eqb a) l = true) as ->.
    { apply existsb_exists. exists a.
      split; [apply Hi; left; reflexivity | apply Nat.eqb_refl]. }
    cbn [negb]. apply IH. intros x Hx. apply Hi. right. exact Hx. }
  apply H, incl_refl.
Qed.

Lemma sceneOk_targets (s : State) (ts : list Target.t) (k : nat) :
  map meshOf ts = map meshOf (targets s) ->
  sceneOk s -> sceneOk (setRandomCalls k (setTargets ts s)).
Proof.
  unfold sceneOk. fields. intros -> H. exact H.
Qed.

Lemma sceneOk_same (s s' : State) :
  sceneMeshes s' = sceneMeshes s -> targets s' = targets s ->
  nextUuid s' = nextUuid s -> sceneOk s -> sceneOk s'.
Proof. unfold sceneOk. intros -> -> ->. exact (fun H => H). Qed.

Lemma sceneOk_step (rnd : Rand) (e : Event) (s : State) :
  sceneOk s ->
  sceneOk (dispatch rnd e s) /\
  (inMatch e = true ->
   map meshOf (targets (dispatch rnd e s)) = map meshOf (targets s)).
Proof.
  intros H.
  destruct e as [level | h | h | intersects | | [|] | |];
    cbn [dispatch inMatch].
  - split; [| discriminate]. rewrite onLevelClick_state.
    destruct H as (H1 & H2 & H3). unfold sceneOk. fields.
    rewrite <- H1, filter_absent_self. cbn [app].
    destruct (newTargets_spec rnd level (Z.to_nat (targetCount level))
                              (randomCalls s) (nextUuid s)) as (_ & -> & _).
    split; [reflexivity |]. split; [apply seq_NoDup |].
    apply Forall_forall. intros m Hm. apply in_seq in Hm. lia.
  - destruct (findTimer h (intervals s)) as [t |]; [| split; auto].
    destruct (callback t).
    + unfold updateTimer, endGame.
      destruct (isPlaying (gameState s)); fields; [| split; auto].
      destruct (timeLeft (gameState s) - 1 <=? 0)%Z;
        (split; [revert H; apply sceneOk_same |]; reflexivity).
    + unfold countdownStep. fields.
      destruct (countdown (gameState s) - 1 <=? 0)%Z;
        (split; [revert H; apply sceneOk_same |]; reflexivity).
  - destruct (findTimer h (timeouts s)) as [t |]; [| split; auto].
    destruct (callback t) as [| | m];
      [split; [revert H; apply sceneOk_same |]; reflexivity .. |].
    unfold respawnHit. fields.
    pose proof (respawnMesh_meshes rnd (currentLevel (gameState s)) m
                  (colorMesh m (color (currentLevel (gameState s)))
                             (targets s)) (randomCalls s)) as Hm.
    rewrite colorMesh_meshes in Hm.
    destruct (respawnMesh rnd (randomCalls s) (currentLevel (gameState s)) m
                (colorMesh m (color (currentLevel (gameState s)))
                           (targets s))) as [ts2 k].
    cbn [fst] in Hm. split; [| intros _; exact Hm].
    apply (sceneOk_targets (dropTimeout h s)); [exact Hm |].
    revert H. apply sceneOk_same; reflexivity.
  - unfold onClick.
    destruct (negb (isPlaying (gameState s)) || negb (isLocked s));
      [split; auto |].
    assert (sceneOk (playShootSound s) /\
            targets (playShootSound s) = targets s) as [Hs Ht].
    { unfold playShootSound.
      destruct (shootSounds s) as [[| len] |];
        (split; [revert H; apply sceneOk_same |]; reflexivity). }
    destruct intersects as [| hit rest];
      [split; [exact Hs | rewrite Ht; reflexivity] |].
    destruct Hs as (H1 & H2 & H3). rewrite Ht in H1.
    unfold sceneOk. fields. rewrite ?Ht, !colorMesh_meshes.
    repeat split; first [assumption | reflexivity].
  - destruct (isPlaying (gameState s)) eqn:Hp.
    + rewrite (animate_closed rnd s Hp).
      destruct (iter_collisionEnds_rest (collisionsIn rnd s (targets s)) s)
        as (_ & _ & R3 & R4 & _).
      pose proof (updateAll_meshes rnd (cameraPosition s)
                    (currentLevel (gameState s)) (targets s)
                    (randomCalls s)) as Hm.
      split; [| intros _; exact Hm].
      destruct H as (H1 & H2 & H3). unfold sceneOk. fields.
      rewrite R3, R4, Hm. repeat split; assumption.
    + unfold animate. rewrite Hp. split; auto.
  - split; [revert H; apply sceneOk_same |]; reflexivity.
  - rewrite onUnlock2_idle. unfold onUnlock1. fields.
    destruct (isPlaying (gameState s));
      (split; [revert H; apply sceneOk_same |]; reflexivity).
  - destruct (shootSounds s);
      (split; [revert H; apply sceneOk_same |]; reflexivity).
  - split; [revert H; apply sceneOk_same |]; reflexivity.
Qed.

Lemma sceneOk_run (rnd : Rand) (evs : list Event) :
  forall s : State,
    sceneOk s ->
    sceneOk (run rnd evs s) /\
    (allInMatch evs ->
     map meshOf (targets (run rnd evs s)) = map meshOf (targets s)).
Proof.
  induction evs as [| e evs IH]; intros s H; [split; auto |].
  change (run rnd (e :: evs) s) with (run rnd evs (dispatch rnd e s)).
  destruct (sceneOk_step rnd e s H) as [H1 H2].
  destruct (IH (dispatch rnd e s) H1) as [I1 I2].
  split; [exact I1 |]. intros Hall.
  inversion Hall as [| e' evs' He Hrest]; subst.
  rewrite (I2 Hrest). apply H2, He.
Qed.

Lemma sceneOk_loaded : sceneOk loaded.
Proof. unfold sceneOk. cbn. repeat constructor. Qed.

(** X10.  At any time after loading, the target meshes in the scene are
    exactly the meshes of the current targets, in order and each once:
    [createTargets] takes every old mesh out before it adds the new ones,
    and nothing else adds or removes a mesh. *)
Theorem scene_holds_the_targets (rnd : Rand) (evs : list Event) :
  let s := run rnd evs loaded in
  sceneMeshes s = map meshOf (targets s) /\ NoDup (map meshOf (targets s)).
Proof.
  intros s.
  destruct (sceneOk_run rnd evs loaded sceneOk_loaded) as [(H1 & H2 & _) _].
  fold s in H1, H2. split; [exact H1 |]. rewrite <- H1. exact H2.
Qed.



(** X12.  A respawn that is still pending for a target hit in an earlier
    match finds no target with that mesh once a new level has been
    chosen: its callback changes nothing in the new match and draws no
    random number. *)
Theorem stale_respawn_is_ignored (rnd : Rand) (level : LevelConfig)
        (s : State) (evs : list Event) (m : nat) :
  sceneOk s -> In m (sceneMeshes s) -> allInMatch evs ->
  let s' := run rnd evs (onLevelClick rnd level s) in
  respawnHit rnd m s' = s'.
Proof.
  intros Hs Hm Hall s'.
  assert (sceneOk (onLevelClick rnd level s)) as Hs1
      by (exact (proj1 (sceneOk_step rnd (LevelClick level) s Hs))).
  pose proof (proj2 (sceneOk_run rnd evs _ Hs1) Hall) as Hsame.
  fold s' in Hsame.
  assert (~ In m (map meshOf (targets s'))) as Hnew.
  { rewrite Hsame, onLevelClick_state. fields.
    destruct (newTargets_spec rnd level (Z.to_nat (targetCount level))
                              (randomCalls s) (nextUuid s)) as (_ & -> & _).
    intros Hin. apply in_seq in Hin.
    destruct Hs as (_ & _ & S3). rewrite Forall_forall in S3.
    specialize (S3 _ Hm). cbv beta in S3. lia. }
  unfold respawnHit.
  rewrite colorMesh_absent by exact Hnew.
  rewrite respawnMesh_absent by exact Hnew.
  destruct s'; reflexivity.
Qed.

Lemma stale_respawn_is_ignored_witness :
  let s' := run rnd0 [AnimationFrame]
                (onLevelClick rnd0 intermediate
                              (run rnd0 [LevelClick beginner] loaded)) in
  respawnHit rnd0 0 s' = s'.
Proof.
  pose proof (proj1 (sceneOk_run rnd0 [LevelClick beginner] loaded
                                 sceneOk_loaded)) as Hs.
  assert (In 0%nat (sceneMeshes (run rnd0 [LevelClick beginner] loaded)))
    as Hin by (lazy; left; reflexivity).
  assert (allInMatch [AnimationFrame]) as Ha by (repeat constructor).
  exact (stale_respawn_is_ignored rnd0 intermediate _ [AnimationFrame] 0
           Hs Hin Ha).
Defined.

End Scene.

(** ** Where the targets are *)

Section Front.
Import Levels Main.
Local Open Scope R_scope.

Lemma spawned_inFront (lc : LevelConfig) (tg : Target.t) :
  Target.inSpawnVolume lc (positionOf tg) -> 0 < Target.speed tg ->
  inFront tg.
Proof.
  intros (_ & _ & Hz) Hs. pose proof (depth_le_distance (positionOf tg)).
  unfold inFront, distanceOf. repeat split; lra.
Qed.

Lemma respawn_inFront (rnd : Rand) (k : nat) (lc : LevelConfig)
      (tg : Target.t) :
  unit_interval rnd -> goodLevel lc ->
  inFront (fst (Target.respawn rnd k lc tg)).
Proof.
  intros Hr [Hp Hs]. apply (spawned_inFront lc).
  - apply respawn_position; assumption.
  - exact Hs.
Qed.

Lemma update_inFront (rnd : Rand) (k : nat) (lc : LevelConfig)
      (tg : Target.t) :
  unit_interval rnd -> goodLevel lc -> inFront tg ->
  inFront (fst (Target.update rnd k Vector3.zero lc tg)).
Proof.
  intros Hr Hg (Hz & Hd & Hs).
  destruct (update_cases rnd k Vector3.zero lc tg) as [[_ ->] | [Hm ->]].
  - apply respawn_inFront; assumption.
  - cbn [fst]. destruct (step_closer_origin tg Hs Hz Hm) as [_ Hz'].
    destruct (no_respawn_bounds _ _ Hm) as [Hd' _].
    repeat split; assumption.
Qed.

Lemma markHit_inFront (c : Vector3.t) (tg : Target.t) :
  inFront tg -> inFront (markHit c tg).
Proof. unfold markHit. destruct (collides c tg); exact (fun H => H). Qed.

Lemma updateAll_inFront (rnd : Rand) (lc : LevelConfig)
      (ts : list Target.t) :
  unit_interval rnd -> goodLevel lc -> Forall inFront ts ->
  forall k : nat,
    Forall inFront
           (map (markHit Vector3.zero)
                (fst (updateAll rnd k Vector3.zero lc ts))).
Proof.
  intros Hr Hg. induction 1 as [| tg rest Htg _ IH]; intros k;
    [constructor |].
  cbn [updateAll].
  pose proof (update_inFront rnd k lc tg Hr Hg Htg) as Hu.
  destruct (Target.update rnd k Vector3.zero lc tg) as [t1 k1].
  specialize (IH k1).
  destruct (updateAll rnd k1 Vector3.zero lc rest) as [r1 k2].
  cbn [fst map] in *. constructor; [apply markHit_inFront, Hu | exact IH].
Qed.

Lemma colorMesh_inFront (m : nat) (c : Z) (ts : list Target.t) :
  Forall inFront ts -> Forall inFront (colorMesh m c ts).
Proof.
  unfold colorMesh. induction 1 as [| tg rest Htg _ IH]; cbn [map];
    constructor; [| exact IH].
  destruct (Nat.eqb (meshOf tg) m); exact Htg.
Qed.

Lemma respawnMesh_inFront (rnd : Rand) (lc : LevelConfig) (m : nat)
      (ts : list Target.t) :
  unit_interval rnd -> goodLevel lc -> Forall inFront ts ->
  forall k : nat, Forall inFront (fst (respawnMesh rnd k lc m ts)).
Proof.
  intros Hr Hg. induction 1 as [| tg rest Htg Hrest IH]; intros k;
    [constructor |].
  cbn [respawnMesh]. destruct (Nat.eqb (meshOf tg) m).
  - pose proof (respawn_inFront rnd k lc tg Hr Hg) as Hn.
    destruct (Target.respawn rnd k lc tg) as [tg' k'].
    cbn [fst] in *. constructor; assumption.
  - specialize (IH k). destruct (respawnMesh rnd k lc m rest) as [r k'].
    cbn [fst] in *. constructor; assumption.
Qed.

Lemma keptInFront_same (s s' : State) :
  cameraPosition s' = cameraPosition s ->
  currentLevel (gameState s') = currentLevel (gameState s) ->
  targets s' = targets s -> keptInFront s -> keptInFront s'.
Proof. unfold keptInFront. intros -> -> ->. exact (fun H => H). Qed.

Lemma keptInFront_step (rnd : Rand) (e : Event) (s : State) :
  unit_interval rnd ->
  match e with
  | LevelClick level => goodLevel level
  | _ => True
  end ->
  keptInFront s -> keptInFront (dispatch rnd e s).
Proof.
  intros Hr He H.
  destruct e as [level | h | h | intersects | | [|] | |]; cbn [dispatch].
  - rewrite onLevelClick_state. destruct H as (H1 & _ & _).
    unfold keptInFront. fields.
    split; [exact H1 | split; [exact He |]].
    destruct (newTargets_spec rnd level (Z.to_nat (targetCount level))
                              (randomCalls s) (nextUuid s)) as (_ & _ & N3).
    eapply Forall_impl; [| exact N3]. cbv beta.
    intros tg (_ & Hs & Hpos). apply (spawned_inFront level).
    + apply Hpos; [exact Hr | apply He].
    + rewrite Hs. apply He.
  - destruct (findTimer h (intervals s)) as [t |]; [| exact H].
    destruct (callback t).
    + unfold updateTimer, endGame.
      destruct (isPlaying (gameState s)); fields; [| exact H].
      destruct (timeLeft (gameState s) - 1 <=? 0)%Z; revert H;
        apply keptInFront_same; reflexivity.
    + unfold countdownStep. fields.
      destruct (countdown (gameState s) - 1 <=? 0)%Z; revert H;
        apply keptInFront_same; reflexivity.
  - destruct (findTimer h (timeouts s)) as [t |]; [| exact H].
    destruct (callback t) as [| | m];
      [revert H; apply keptInFront_same; reflexivity .. |].
    unfold respawnHit. fields. destruct H as (H1 & H2 & H3).
    pose proof (respawnMesh_inFront rnd (currentLevel (gameState s)) m
                  (colorMesh m (color (currentLevel (gameState s)))
                             (targets s)) Hr H2
                  (colorMesh_inFront _ _ _ H3) (randomCalls s)) as Hm.
    destruct (respawnMesh rnd (randomCalls s) (currentLevel (gameState s)) m
                (colorMesh m (color (currentLevel (gameState s)))
                           (targets s))) as [ts2 k].
    unfold keptInFront. fields. repeat split; try assumption; apply H2.
  - unfold onClick.
    destruct (negb (isPlaying (gameState s)) || negb (isLocked s));
      [exact H |].
    assert (keptInFront (playShootSound s)) as Hs.
    { unfold playShootSound.
      destruct (shootSounds s) as [[| len] |]; revert H;
        apply keptInFront_same; reflexivity. }
    destruct intersects as [| hit rest]; [exact Hs |].
    destruct Hs as (H1 & H2 & H3). unfold keptInFront. fields.
    split; [exact H1 | split; [exact H2 |]].
    apply colorMesh_inFront, H3.
  - destruct (isPlaying (gameState s)) eqn:Hp.
    + rewrite (animate_closed rnd s Hp).
      destruct (iter_collisionEnds_frame (collisionsIn rnd s (targets s)) s)
        as (F1 & F2 & _).
      destruct H as (H1 & H2 & H3). unfold keptInFront. fields.
      rewrite F1, F2. split; [exact H1 | split; [exact H2 |]].
      rewrite H1. apply updateAll_inFront; assumption.
    + unfold animate. rewrite Hp. exact H.
  - revert H. apply keptInFront_same; reflexivity.
  - rewrite onUnlock2_idle. unfold onUnlock1. fields.
    destruct (isPlaying (gameState s)); revert H;
      apply keptInFront_same; reflexivity.
  - destruct (shootSounds s); revert H; apply keptInFront_same;
      reflexivity.
  - revert H. apply keptInFront_same; reflexivity.
Qed.

Lemma beginner_good : goodLevel beginner.
Proof. split; [exact beginner_positive | cbn; lra]. Qed.

(** X13.  The player never moves and no target ever gets behind the
    player or inside the respawn radius: at any time after loading, for
    levels with a proper spawn box and a positive speed, the camera is at
    the origin and every target has a negative z, is at least 1.0 away
    and has a positive speed. *)
Theorem targets_kept_in_front (rnd : Rand) (evs : list Event) :
  unit_interval rnd -> goodLevels evs ->
  let s := run rnd evs loaded in
  cameraPosition s = Vector3.zero /\
  Forall (fun tg =>
            Vector3.z (positionOf tg) < 0 /\
            1 <= distanceOf tg (cameraPosition s) /\
            0 < Target.speed tg) (targets s).
Proof.
  intros Hr Hev.
  assert (forall s : State, keptInFront s -> keptInFront (run rnd evs s))
    as Hrun.
  { induction Hev as [| e evs He _ IH]; intros s H; [exact H |].
    apply (IH (dispatch rnd e s)), keptInFront_step; assumption. }
  intros s.
  assert (keptInFront loaded) as H0.
  { split; [reflexivity | split; [exact beginner_good | constructor]]. }
  destruct (Hrun loaded H0) as (H1 & _ & H3). fold s in H1, H3.
  split; [exact H1 |]. rewrite H1. exact H3.
Qed.

Lemma targets_kept_in_front_witness :
  let s := run rnd0 (LevelClick beginner :: quietMatch 0 ++ [AnimationFrame])
               loaded in
  cameraPosition s = Vector3.zero /\
  Forall (fun tg =>
            Vector3.z (positionOf tg) < 0 /\
            1 <= distanceOf tg (cameraPosition s) /\
            0 < Target.speed tg) (targets s).
Proof.
  apply (targets_kept_in_front rnd0); [exact rnd0_unit |].
  unfold goodLevels, quietMatch. cbn [repeat app].
  repeat (apply Forall_cons; [first [exact beginner_good | exact I] |]).
  apply Forall_nil.
Defined.

End Front.

(** ** The clock text *)

Section ClockText.
Import Levels Main.
Local Open Scope Z_scope.
Local Open Scope string_scope.

Lemma seconds_padded (r : Z) :
  0 <= r < 60 ->
  (if (r <? 10)%Z then "0" else "") ++ showZ r =
  String (digitChar (r / 10)) (String (digitChar (r mod 10)) EmptyString).
Proof.
  intros Hr.
  assert (forallb
            (fun n : nat =>
               String.eqb
                 ((if (Z.of_nat n <? 10)%Z then "0" else "") ++
                  showZ (Z.of_nat n))
                 (String (digitChar (Z.of_nat n / 10))
                         (String (digitChar (Z.of_nat n mod 10))
                                 EmptyString)))
            (seq 0 60) = true) as H by (vm_compute; reflexivity).
  rewrite forallb_forall in H.
  specialize (H (Z.to_nat r)). rewrite Z2Nat.id in H by lia.
  apply String.eqb_eq, H, in_seq. lia.
Qed.

(** X14.  The clock text of a non-negative number of seconds is the
    whole minutes, a colon, and the remaining seconds with exactly two
    digits; the minutes are not wrapped at the hour.  For a negative
    number the pieces keep their signs, as for -1. *)
Theorem formatTime_minutes_and_seconds (seconds : Z) :
  0 <= seconds ->
  let r := seconds mod 60 in
  formatTime seconds =
  showZ (seconds / 60) ++ ":" ++
  String (digitChar (r / 10)) (String (digitChar (r mod 10)) EmptyString)
  /\ formatTime (seconds + 60) =
     showZ (seconds / 60 + 1) ++ ":" ++
     String (digitChar (r / 10)) (String (digitChar (r mod 10)) EmptyString)
  /\ formatTime (-1) = "-1:0-1".
Proof.
  intros H0 r.
  assert (forall n : Z,
             0 <= n ->
             formatTime n =
             showZ (n / 60) ++ ":" ++
             String (digitChar (n mod 60 / 10))
                    (String (digitChar ((n mod 60) mod 10)) EmptyString))
    as Hf.
  { intros n Hn. unfold formatTime. cbv zeta.
    rewrite Z.rem_mod_nonneg by lia.
    rewrite seconds_padded by (apply Z.mod_pos_bound; lia).
    reflexivity. }
  split; [apply Hf, H0 |]. split; [| vm_compute; reflexivity].
  rewrite Hf by lia.
  replace (seconds + 60) with (seconds + 1 * 60) by lia.
  rewrite Z.div_add, Z.mod_add by lia. reflexivity.
Qed.

Lemma formatTime_minutes_and_seconds_witness :
  formatTime 3605 = "60:05" /\ formatTime 90 = "1:30".
Proof.
  assert (0 <= 3605) as H1 by lia.
  assert (0 <= 90) as H2 by lia.
  rewrite (proj1 (formatTime_minutes_and_seconds 3605 H1)).
  rewrite (proj1 (formatTime_minutes_and_seconds 90 H2)).
  split; vm_compute; reflexivity.
Defined.

End ClockText.

(** ** After the match *)

Section Over.
Import Levels Main.

(** X15.  Once a match is over (or before the first one), nothing but
    the choice of a level starts play again: over any events other than
    level clicks the game state stays as it is, with its score, clock and
    level, the intervals stay the same and so does the phase. *)
Theorem game_over_is_final (rnd : Rand) (evs : list Event) :
  forall s : State,
    allInMatch evs ->
    isPlaying (gameState s) = false -> countingDown s = false ->
    gameState (run rnd evs s) = gameState s /\
    intervals (run rnd evs s) = intervals s /\
    phase (run rnd evs s) = phase s.
Proof.
  induction evs as [| e evs IH]; intros s Hall Hp Hc;
    [repeat split |].
  inversion Hall as [| e' evs' He Hrest]; subst.
  change (run rnd (e :: evs) s) with (run rnd evs (dispatch rnd e s)).
  assert (exists h : nat, e <> TimeoutFires h) as [h Hne].
  { destruct e as [| | h' | | | | |];
      try (exists O; discriminate).
    exists (S h'). intros E. injection E as E. lia. }
  destruct (over_stays rnd e s h He Hp Hc Hne) as (Hg & Hi & _).
  destruct (IH (dispatch rnd e s) Hrest) as (I1 & I2 & I3).
  - rewrite Hg. exact Hp.
  - unfold countingDown. rewrite Hi. exact Hc.
  - rewrite I1, I2, I3, Hg, Hi. repeat split.
    unfold phase, countingDown. rewrite Hg, Hi. reflexivity.
Qed.

Lemma game_over_is_final_witness :
  let s := run rndCycle [Click [mkIntersection 4.2 0]; IntervalFires 1;
                         AnimationFrame; PointerLockChange true]
               timeIsUp in
  gameState s = gameState timeIsUp /\ phase s = Ended.
Proof.
  intros s.
  assert (isPlaying (gameState timeIsUp) = false) as Hp
      by (lazy; reflexivity).
  assert (countingDown timeIsUp = false) as Hc by (lazy; reflexivity).
  assert (phase timeIsUp = Ended) as He by (lazy; reflexivity).
  assert (allInMatch [Click [mkIntersection 4.2 0]; IntervalFires 1;
                      AnimationFrame; PointerLockChange true]) as Ha
      by (repeat constructor).
  destruct (game_over_is_final rndCycle _ timeIsUp Ha Hp Hc)
    as (H1 & _ & H3).
  fold s in H1, H3. rewrite H3. exact (conj H1 He).
Defined.

End Over.

(** ** Targets and their level *)

Section OfLevel.
Import Levels Main.

Lemma update_ofLevel (rnd : Rand) (k : nat) (c : Vector3.t)
      (lc : LevelConfig) (tg : Target.t) :
  ofLevel lc tg -> ofLevel lc (fst (Target.update rnd k c lc tg)).
Proof.
  intros [H1 H2]. unfold Target.update.
  destruct (Target.mustRespawn c (Target.advance c tg)); split;
    first [exact H1 | exact H2 | reflexivity].
Qed.

Lemma updateAll_ofLevel (rnd : Rand) (c : Vector3.t) (lc : LevelConfig)
      (ts : list Target.t) :
  Forall (ofLevel lc) ts ->
  forall k : nat,
    Forall (ofLevel lc) (map (markHit c) (fst (updateAll rnd k c lc ts))).
Proof.
  induction 1 as [| tg rest Htg _ IH]; intros k; [constructor |].
  cbn [updateAll]. pose proof (update_ofLevel rnd k c lc tg Htg) as Hu.
  destruct (Target.update rnd k c lc tg) as [t1 k1].
  specialize (IH k1). destruct (updateAll rnd k1 c lc rest) as [r1 k2].
  cbn [fst map] in *. constructor; [| exact IH].
  unfold markHit. destruct (collides c t1); exact Hu.
Qed.

Lemma colorMesh_ofLevel (lc : LevelConfig) (m : nat) (c : Z)
      (ts : list Target.t) :
  Forall (ofLevel lc) ts -> Forall (ofLevel lc) (colorMesh m c ts).
Proof.
  unfold colorMesh. induction 1 as [| tg rest Htg _ IH]; cbn [map];
    constructor; [| exact IH].
  destruct (Nat.eqb (meshOf tg) m); exact Htg.
Qed.

Lemma respawnMesh_ofLevel (rnd : Rand) (lc : LevelConfig) (m : nat)
      (ts : list Target.t) :
  Forall (ofLevel lc) ts ->
  forall k : nat, Forall (ofLevel lc) (fst (respawnMesh rnd k lc m ts)).
Proof.
  induction 1 as [| tg rest Htg Hrest IH]; intros k; [constructor |].
  cbn [respawnMesh]. destruct (Nat.eqb (meshOf tg) m).
  - cbn [fst Target.respawn]. constructor; [| exact Hrest].
    split; [apply Htg | reflexivity].
  - specialize (IH k). destruct (respawnMesh rnd k lc m rest) as [r k'].
    cbn [fst] in *. constructor; assumption.
Qed.

Lemma levelTargets_same (s s' : State) :
  currentLevel (gameState s') = currentLevel (gameState s) ->
  targets s' = targets s -> levelTargets s -> levelTargets s'.
Proof. unfold levelTargets. intros -> ->. exact (fun H => H). Qed.

Lemma levelTargets_step (rnd : Rand) (e : Event) (s : State) :
  levelTargets s -> levelTargets (dispatch rnd e s).
Proof.
  intros H.
  destruct e as [level | h | h | intersects | | [|] | |]; cbn [dispatch].
  - rewrite onLevelClick_state. unfold levelTargets. fields.
    destruct (newTargets_spec rnd level (Z.to_nat (targetCount level))
                              (randomCalls s) (nextUuid s)) as (_ & _ & N3).
    eapply Forall_impl; [| exact N3]. cbv beta.
    intros tg (H1 & H2 & _). split; assumption.
  - destruct (findTimer h (intervals s)) as [t |]; [| exact H].
    destruct (callback t).
    + unfold updateTimer, endGame.
      destruct (isPlaying (gameState s)); fields; [| exact H].
      destruct (timeLeft (gameState s) - 1 <=? 0)%Z; revert H;
        apply levelTargets_same; reflexivity.
    + unfold countdownStep. fields.
      destruct (countdown (gameState s) - 1 <=? 0)%Z; revert H;
        apply levelTargets_same; reflexivity.
  - destruct (findTimer h (timeouts s)) as [t |]; [| exact H].
    destruct (callback t) as [| | m];
      [revert H; apply levelTargets_same; reflexivity .. |].
    unfold respawnHit. fields.
    pose proof (respawnMesh_ofLevel rnd (currentLevel (gameState s)) m
                  (colorMesh m (color (currentLevel (gameState s)))
                             (targets s))
                  (colorMesh_ofLevel _ _ _ _ H) (randomCalls s)) as Hm.
    destruct (respawnMesh rnd (randomCalls s) (currentLevel (gameState s)) m
                (colorMesh m (color (currentLevel (gameState s)))
                           (targets s))) as [ts2 k].
    exact Hm.
  - unfold onClick.
    destruct (negb (isPlaying (gameState s)) || negb (isLocked s));
      [exact H |].
    assert (levelTargets (playShootSound s)) as Hs.
    { unfold playShootSound.
      destruct (shootSounds s) as [[| len] |]; revert H;
        apply levelTargets_same; reflexivity. }
    destruct intersects as [| hit rest]; [exact Hs |].
    unfold levelTargets in *. fields. apply colorMesh_ofLevel, Hs.
  - destruct (isPlaying (gameState s)) eqn:Hp.
    + rewrite (animate_closed rnd s Hp).
      destruct (iter_collisionEnds_frame (collisionsIn rnd s (targets s)) s)
        as (_ & F2 & _).
      unfold levelTargets in *. fields. rewrite F2.
      apply updateAll_ofLevel, H.
    + unfold animate. rewrite Hp. exact H.
  - revert H. apply levelTargets_same; reflexivity.
  - rewrite onUnlock2_idle. unfold onUnlock1. fields.
    destruct (isPlaying (gameState s)); revert H;
      apply levelTargets_same; reflexivity.
  - destruct (shootSounds s); revert H; apply levelTargets_same;
      reflexivity.
  - revert H. apply levelTargets_same; reflexivity.
Qed.

(** X16.  Every target belongs to the current level: a target keeps the
    level it was made with, while updates and respawns are given
    [gameState.currentLevel]; at any time after loading the two agree, so
    the collision distance a target tests against and the speed it moves
    at are those of the current level. *)
Theorem targets_belong_to_level (rnd : Rand) (evs : list Event) :
  let s := run rnd evs loaded in
  Forall (fun tg =>
            Target.levelConfig tg = currentLevel (gameState s) /\
            Target.speed tg = targetSpeed (currentLevel (gameState s)))
         (targets s).
Proof.
  assert (forall s : State, levelTargets s -> levelTargets (run rnd evs s))
    as Hrun.
  { induction evs as [| e evs IH]; intros s H; [exact H |].
    apply (IH (dispatch rnd e s)), levelTargets_step, H. }
  intros s. apply (Hrun loaded). constructor.
Qed.

End OfLevel.
